(** * minijit: a shallow embedding of [python/minijit/minijit.py]

    The Python module JIT-compiles a small subset of CPython bytecode to
    x86-64 machine code.  This development embeds

    - the [Assembler] class (byte emitters),
    - the [Compiler] class (bytecode decoder and IR builder),
    - the peephole pass [optimize] and the optimisation loop of
      [compile_native],
    - the [jit] decorator (compile once, cache, fall back),

    together with two reference semantics that the Python file relies on but
    does not contain: the x86-64 encoding and meaning of the nine
    instructions the assembler knows, and the meaning of the ten CPython
    opcodes the compiler knows. *)

From Stdlib Require Import ZArith List Bool Lia.
From Stdlib Require String.
Import String.StringSyntax.
From Equations Require Import Equations.
Import ListNotations.

Delimit Scope string_scope with string.
Local Open Scope Z_scope.

(** ** Python values that occur in the IR *)

(** The eight register names of [Assembler.registers], in the order of its
    [order] tuple. *)
Inductive reg : Set := rax | rcx | rdx | rbx | rsp | rbp | rsi | rdi.

(** An operand of an IR tuple: a register name (a Python [str]), an integer
    (a Python [int], unbounded) or [None]. *)
Inductive operand : Set :=
| Reg (r : reg)
| Imm (n : Z)
| ONone.

(** The operation tag of an IR tuple: the name of an [Assembler] method, or
    [None], which is what [fetch] of [optimize] returns past the end of the
    list. *)
Inductive irop : Set :=
| Omov | Opush | Opop | Oimmediate | Oadd | Osub | Oimul | Oneg | Oret
| OpNone.

(** An IR instruction is the Python triple [(op, a, b)]. *)
Definition instr : Set := (irop * operand * operand)%type.

Definition reg_eqb (x y : reg) : bool :=
  match x, y with
  | rax, rax | rcx, rcx | rdx, rdx | rbx, rbx
  | rsp, rsp | rbp, rbp | rsi, rsi | rdi, rdi => true
  | _, _ => false
  end.

(** Python [==] on operands: strings compare by content, ints by value,
    [None] only equals [None]; a string never equals an int. *)
Definition operand_eqb (x y : operand) : bool :=
  match x, y with
  | Reg r, Reg s => reg_eqb r s
  | Imm n, Imm m => Z.eqb n m
  | ONone, ONone => true
  | _, _ => false
  end.

Definition irop_eqb (x y : irop) : bool :=
  match x, y with
  | Omov, Omov | Opush, Opush | Opop, Opop | Oimmediate, Oimmediate
  | Oadd, Oadd | Osub, Osub | Oimul, Oimul | Oneg, Oneg | Oret, Oret
  | OpNone, OpNone => true
  | _, _ => false
  end.

(** ** Python exceptions as an error monad *)

Inductive exn : Set :=
| IndexError
| ValueError
| TypeError
| AttributeError
| NotImplementedError (op : String.string).

Inductive result (A : Type) : Type :=
| Ok (a : A)
| Raise (e : exn).
Arguments Ok {A} a.
Arguments Raise {A} e.

Definition bind {A B} (m : result A) (k : A -> result B) : result B :=
  match m with
  | Ok a => k a
  | Raise e => Raise e
  end.

Notation "x <- m ;; k" := (bind m (fun x => k))
  (at level 61, m at next level, right associativity).

Definition is_ok {A} (m : result A) : bool :=
  match m with Ok _ => true | Raise _ => false end.

(** ** Lists indexed as Python lists *)

(** [l[i] = v] for [i] in range; the caller checks the range. *)
Fixpoint list_set {A} (l : list A) (i : nat) (v : A) : list A :=
  match l, i with
  | [], _ => []
  | _ :: t, O => v :: t
  | h :: t, S j => h :: list_set t j v
  end.

(** [l[i]], raising [IndexError] out of range. *)
Definition getitem {A} (l : list A) (i : nat) : result A :=
  match nth_error l i with
  | Some a => Ok a
  | None => Raise IndexError
  end.

(** ** class Assembler *)

Module Assembler.

(** The fields set by [__init__]. *)
Record t : Set := mk { block : list Z; index : nat; size : nat }.

(** Modelled from the spec: [mj.create_block] is not among the sources.
    Section 4.5 describes it as the allocation of a writable region of
    [size] bytes; the region is taken to be zero filled and to reject a
    write at an index outside it, as a Python buffer does. *)
Definition create_block (size : nat) : list Z := repeat 0 size.

Definition init (size : nat) : t := mk (create_block size) 0%nat size.

(** [raw]: [bytes(self.block[:self.index])]. *)
Definition raw (self : t) : list Z := firstn (index self) (block self).

(** [little_endian]:
    [[(n & (0xff << i*2)) >> i*8 for i in range(8)]]. *)
Definition little_endian (n : Z) : list Z :=
  map (fun i => Z.shiftr (Z.land n (Z.shiftl 255 (i * 2))) (i * 8))
      [0; 1; 2; 3; 4; 5; 6; 7].

(** [order.index(a)] for the tuple [order] of [registers]; a value that is
    not one of the eight names raises [ValueError]. *)
Definition order_index (a : operand) : result Z :=
  match a with
  | Reg rax => Ok 0 | Reg rcx => Ok 1 | Reg rdx => Ok 2 | Reg rbx => Ok 3
  | Reg rsp => Ok 4 | Reg rbp => Ok 5 | Reg rsi => Ok 6 | Reg rdi => Ok 7
  | Imm _ | ONone => Raise ValueError
  end.

(** [registers(a, b=None)]. *)
Definition registers (a b : operand) : result Z :=
  enc <- order_index a ;;
  match b with
  | ONone => Ok enc
  | _ => j <- order_index b ;; Ok (Z.lor (Z.shiftl enc 3) j)
  end.

(** [emit]: one store and one increment for each byte of [args]; a
    store past the end of the block raises. *)
Fixpoint emit (self : t) (args : list Z) : result t :=
  match args with
  | [] => Ok self
  | code :: rest =>
      if (index self <? length (block self))%nat
      then emit (mk (list_set (block self) (index self) code)
                    (S (index self)) (size self)) rest
      else Raise IndexError
  end.

Definition ret (self : t) (a b : operand) : result t :=
  emit self [0xc3].

Definition push (self : t) (a b : operand) : result t :=
  r <- registers a ONone ;; emit self [Z.lor 0x50 r].

Definition pop (self : t) (a b : operand) : result t :=
  r <- registers a ONone ;; emit self [Z.lor 0x58 r].

Definition imul (self : t) (a b : operand) : result t :=
  r <- registers a b ;; emit self [0x48; 0x0f; 0xaf; Z.lor 0xc0 r].

Definition add (self : t) (a b : operand) : result t :=
  r <- registers b a ;; emit self [0x48; 0x01; Z.lor 0xc0 r].

Definition sub (self : t) (a b : operand) : result t :=
  r <- registers b a ;; emit self [0x48; 0x29; Z.lor 0xc0 r].

(** [neg] looks up [self.register], an attribute the class does not
    have: the lookup raises before anything is emitted. *)
Definition neg (self : t) (a b : operand) : result t :=
  Raise AttributeError.

Definition mov (self : t) (a b : operand) : result t :=
  r <- registers b a ;; emit self [0x48; 0x89; Z.lor 0xc0 r].

(** [immediate(a, number)]; [number & ...] raises [TypeError] when
    [number] is a string or [None]. *)
Definition immediate (self : t) (a number : operand) : result t :=
  r <- registers a ONone ;;
  match number with
  | Imm n => emit self (0x48 :: Z.lor 0xb8 r :: little_endian n)
  | Reg _ | ONone => Raise TypeError
  end.

(** [getattr(assembler, name)]; a name that is not a string is a
    [TypeError]. *)
Definition getattr (name : irop) : t -> operand -> operand -> result t :=
  match name with
  | Omov => mov | Opush => push | Opop => pop | Oimmediate => immediate
  | Oadd => add | Osub => sub | Oimul => imul | Oneg => neg | Oret => ret
  | OpNone => fun _ _ _ => Raise TypeError
  end.

End Assembler.

(** ** class Compiler *)

(** A value of the constants table [co_consts]: an integer, or anything
    else (CPython puts [None] in slot 0 of most tables). *)
Inductive pyconst : Set :=
| CInt (n : Z)
| CNone.

Definition operand_of_const (c : pyconst) : operand :=
  match c with
  | CInt n => Imm n
  | CNone => ONone
  end.

Definition inspect {A} (a : A) : {b | a = b} := exist _ a eq_refl.

Module Compiler.
Section Interpreter.

(** The two things [decode] takes from the running interpreter: the
    module constant [PRE36] and the table [dis.opname]. *)
Variable PRE36 : bool.
Variable opname_table : Z -> String.string.

Record t : Set :=
  mk { bytecode : list Z; constants : list pyconst; index : nat }.

Definition fetch (self : t) : result (Z * t) :=
  byte <- getitem (bytecode self) (index self) ;;
  Ok (byte, mk (bytecode self) (constants self) (S (index self))).

(** [opname.startswith(("UNARY", "BINARY", "INPLACE", "RETURN"))]. *)
Definition startswith_noarg (opname : String.string) : bool :=
  existsb (fun p => String.prefix p opname)
          ["UNARY"; "BINARY"; "INPLACE"; "RETURN"]%string.

Definition decode (self : t) : result (String.string * option Z * t) :=
  f <- fetch self ;;
  let '(opcode, self) := f in
  let opname := opname_table opcode in
  if startswith_noarg opname then
    if negb PRE36
    then f <- fetch self ;; Ok (opname, None, snd f)
    else Ok (opname, None, self)
  else
    f <- fetch self ;;
    let '(argument, self) := f in
    if PRE36
    then f <- fetch self ;;
         Ok (opname, Some (Z.lor argument (Z.shiftl (fst f) 8)), snd f)
    else Ok (opname, Some argument, self).

(** [variable]: [order[number]] for [order = ("rdi", "rsi", "rdx", "rcx")];
    indexing with [None] is a [TypeError]. *)
Definition variable (number : option Z) : result operand :=
  match number with
  | None => Raise TypeError
  | Some n => r <- getitem [rdi; rsi; rdx; rcx] (Z.to_nat n) ;; Ok (Reg r)
  end.

Definition constant (self : t) (arg : option Z) : result operand :=
  match arg with
  | None => Raise TypeError
  | Some n => c <- getitem (constants self) (Z.to_nat n) ;;
              Ok (operand_of_const c)
  end.

Definition op_in (op : String.string) (names : list String.string) : bool :=
  existsb (String.eqb op) names.

(** The body of the [while] loop of [compile] after [decode]: the
    instructions one bytecode yields. *)
Definition template (self : t) (op : String.string) (arg : option Z)
  : result (list instr) :=
  if String.eqb op "LOAD_FAST" then
    v <- variable arg ;; Ok [(Opush, v, ONone)]
  else if String.eqb op "STORE_FAST" then
    v <- variable arg ;;
    Ok [(Opop, Reg rax, ONone); (Omov, v, Reg rax)]
  else if String.eqb op "LOAD_CONST" then
    c <- constant self arg ;;
    Ok [(Oimmediate, Reg rax, c); (Opush, Reg rax, ONone)]
  else if String.eqb op "BINARY_MULTIPLY" then
    Ok [(Opop, Reg rax, ONone); (Opop, Reg rbx, ONone);
        (Oimul, Reg rax, Reg rbx); (Opush, Reg rax, ONone)]
  else if op_in op ["BINARY_ADD"; "INPLACE_ADD"]%string then
    Ok [(Opop, Reg rax, ONone); (Opop, Reg rbx, ONone);
        (Oadd, Reg rax, Reg rbx); (Opush, Reg rax, ONone)]
  else if op_in op ["BINARY_SUBTRACT"; "INPLACE_SUBTRACT"]%string then
    Ok [(Opop, Reg rbx, ONone); (Opop, Reg rax, ONone);
        (Osub, Reg rax, Reg rbx); (Opush, Reg rax, ONone)]
  else if String.eqb op "UNARY_NEGATIVE" then
    Ok [(Opop, Reg rax, ONone); (Oneg, Reg rax, ONone);
        (Opush, Reg rax, ONone)]
  else if String.eqb op "RETURN_VALUE" then
    Ok [(Opop, Reg rax, ONone); (Oret, ONone, ONone)]
  else Raise (NotImplementedError op).

Lemma fetch_advance self byte self' :
  fetch self = Ok (byte, self') ->
  bytecode self' = bytecode self /\ constants self' = constants self /\
  index self' = S (index self).
Proof.
  unfold fetch, getitem.
  destruct (nth_error (bytecode self) (index self)); simpl; [|discriminate].
  intros H; inversion H; subst; simpl; auto.
Qed.

Lemma decode_advance self op arg self' :
  decode self = Ok (op, arg, self') ->
  bytecode self' = bytecode self /\ constants self' = constants self /\
  (index self < index self')%nat.
Proof.
  unfold decode.
  destruct (fetch self) as [[b1 s1]|] eqn:F1; simpl; [|discriminate].
  apply fetch_advance in F1. destruct F1 as (B1 & C1 & I1).
  destruct (startswith_noarg _); destruct PRE36; simpl.
  - intros H; inversion H; subst. repeat split; auto; lia.
  - destruct (fetch s1) as [[b2 s2]|] eqn:F2; simpl; [|discriminate].
    apply fetch_advance in F2. destruct F2 as (B2 & C2 & I2).
    intros H; inversion H; subst. repeat split; try congruence; lia.
  - destruct (fetch s1) as [[b2 s2]|] eqn:F2; simpl; [|discriminate].
    apply fetch_advance in F2. destruct F2 as (B2 & C2 & I2).
    destruct (fetch s2) as [[b3 s3]|] eqn:F3; simpl; [|discriminate].
    apply fetch_advance in F3. destruct F3 as (B3 & C3 & I3).
    intros H; inversion H; subst. repeat split; try congruence; lia.
  - destruct (fetch s1) as [[b2 s2]|] eqn:F2; simpl; [|discriminate].
    apply fetch_advance in F2. destruct F2 as (B2 & C2 & I2).
    intros H; inversion H; subst. repeat split; try congruence; lia.
Qed.

(** [compile]: the generator, read to its end as [list(ir)] does; an
    exception raised on the way discards what was yielded before. *)
Equations? compile (self : t) : result (list instr)
  by wf (length (bytecode self) - index self)%nat lt :=
  compile self with inspect (index self <? length (bytecode self))%nat := {
    | exist _ false _ => Ok []
    | exist _ true Hlt with inspect (decode self) := {
        | exist _ (Raise e) _ => Raise e
        | exist _ (Ok (op, arg, self')) Hdec with template self' op arg := {
            | Raise e => Raise e
            | Ok ir with compile self' := {
                | Raise e => Raise e
                | Ok rest => Ok (ir ++ rest) } } } }.
Proof.
  apply decode_advance in Hdec. destruct Hdec as (B & _ & I).
  apply Nat.ltb_lt in Hlt. rewrite B. lia.
Qed.

End Interpreter.
End Compiler.

(** ** Where a routine leaves the supported subset *)

Section Positions.

Variable PRE36 : bool.
Variable opname_table : Z -> String.string.

(** The opcode names [Compiler.compile] has a branch for. *)
Definition supported (op : String.string) : bool :=
  Compiler.op_in op
    ["LOAD_FAST"; "STORE_FAST"; "LOAD_CONST"; "BINARY_MULTIPLY";
     "BINARY_ADD"; "INPLACE_ADD"; "BINARY_SUBTRACT"; "INPLACE_SUBTRACT";
     "UNARY_NEGATIVE"; "RETURN_VALUE"]%string.

(** [at_instruction self self']: reading instruction after instruction
    from the position of [self], the decoder arrives at the position of
    [self']. *)
Inductive at_instruction (self : Compiler.t) : Compiler.t -> Prop :=
| at_start : at_instruction self self
| at_next op arg self1 self' :
    Compiler.decode PRE36 opname_table self = Ok (op, arg, self1) ->
    at_instruction self1 self' ->
    at_instruction self self'.

(** The opcode byte at the position of [self]. *)
Definition opcode_at (self : Compiler.t) : option Z :=
  nth_error (Compiler.bytecode self) (Compiler.index self).

End Positions.

(** ** The peephole pass [optimize] *)

(** The inner [fetch(n)] of [optimize]. *)
Definition fetch (ir : list instr) (n : nat) : instr :=
  match nth_error ir n with
  | Some i => i
  | None => (OpNone, ONone, ONone)
  end.

(** [op in ("push", "pop")]. *)
Definition push_or_pop (op : irop) : bool :=
  irop_eqb op Opush || irop_eqb op Opop.

(** One iteration of the [while] loop of [optimize] at [index]: the
    instructions it yields and the new value of [index].  The two windows
    with in-between instructions are written in Python as an [if] nested in
    an [if], and a failed inner test falls through to the next window; here
    both tests are one conjunction, which falls through the same way. *)
Definition optimize_step (ir : list instr) (index : nat)
  : list instr * nat :=
  let '(op1, a1, b1) := fetch ir index in
  let '(op2, a2, b2) := fetch ir (index + 1) in
  let '(op3, a3, b3) := fetch ir (index + 2) in
  let '(op4, a4, b4) := fetch ir (index + 3) in
  if irop_eqb op1 Omov && operand_eqb a1 b1 then
    ([], index + 1)%nat
  else if irop_eqb op1 op2 && irop_eqb op2 Omov && operand_eqb a1 b2 then
    ([(Omov, a2, b1)], index + 2)%nat
  else if irop_eqb op1 Opush && irop_eqb op2 Opop then
    ([(Omov, a2, a1)], index + 2)%nat
  else if irop_eqb op1 Opush && irop_eqb op3 Opop && negb (push_or_pop op2)
          && negb (operand_eqb a2 a3) then
    ([(Omov, a3, a1); (op2, a2, b2)], index + 3)%nat
  else if irop_eqb op1 Opush && irop_eqb op4 Opop && negb (push_or_pop op2)
          && negb (push_or_pop op3)
          && (negb (operand_eqb a2 a4) && negb (operand_eqb a3 a4)) then
    ([(Omov, a4, a1); (op2, a2, b2); (op3, a3, b3)], index + 4)%nat
  else
    ([(op1, a1, b1)], index + 1)%nat.

Lemma optimize_step_advance ir index :
  (index < snd (optimize_step ir index))%nat.
Proof.
  unfold optimize_step.
  destruct (fetch ir index) as [[op1 a1] b1].
  destruct (fetch ir (index + 1)) as [[op2 a2] b2].
  destruct (fetch ir (index + 2)) as [[op3 a3] b3].
  destruct (fetch ir (index + 3)) as [[op4 a4] b4].
  repeat match goal with
         | |- context [if ?c then _ else _] => destruct c
         end; simpl; lia.
Qed.

(** The generator [optimize], resumed at [index] and read to its end. *)
Equations? optimize_from (ir : list instr) (index : nat) : list instr
  by wf (length ir - index)%nat lt :=
  optimize_from ir index with inspect (index <? length ir)%nat := {
    | exist _ false _ => []
    | exist _ true Hlt =>
        fst (optimize_step ir index)
        ++ optimize_from ir (snd (optimize_step ir index)) }.
Proof.
  apply Nat.ltb_lt in Hlt.
  pose proof (optimize_step_advance ir index). lia.
Qed.

Definition optimize (ir : list instr) : list instr := optimize_from ir 0.


(** *** Facts about one pass, needed to define the optimisation loop *)

Lemma irop_eqb_eq x y : irop_eqb x y = true <-> x = y.
Proof. destruct x, y; simpl; split; (congruence || discriminate). Qed.

Lemma optimize_from_eq ir index :
  optimize_from ir index =
  if (index <? length ir)%nat
  then fst (optimize_step ir index)
       ++ optimize_from ir (snd (optimize_step ir index))
  else [].
Proof.
  rewrite optimize_from_equation_1.
  unfold optimize_from_unfold_clause_1.
  destruct (inspect (index <? length ir)%nat) as [[] H]; rewrite H;
    reflexivity.
Qed.

Lemma fetch_skipn ir index k :
  fetch ir (index + k) = fetch (skipn index ir) k.
Proof. unfold fetch. rewrite nth_error_skipn. reflexivity. Qed.

(** A step at [index] only looks at the suffix that starts there. *)
Lemma optimize_step_window ir index :
  optimize_step ir index =
  (fst (optimize_step (skipn index ir) 0),
   (index + snd (optimize_step (skipn index ir) 0))%nat).
Proof.
  remember (optimize_step (skipn index ir) 0) as s eqn:Es.
  unfold optimize_step in *.
  replace (fetch ir index) with (fetch (skipn index ir) 0)
    by (rewrite <- fetch_skipn; f_equal; lia).
  rewrite !fetch_skipn. simpl Nat.add in Es. subst s.
  destruct (fetch (skipn index ir) 0) as [[op1 a1] b1].
  destruct (fetch (skipn index ir) 1) as [[op2 a2] b2].
  destruct (fetch (skipn index ir) 2) as [[op3 a3] b3].
  destruct (fetch (skipn index ir) 3) as [[op4 a4] b4].
  repeat match goal with
         | |- context [if ?c then _ else _] => destruct c
         end; simpl; reflexivity.
Qed.

(** An instruction that is neither a [mov], a [push] nor a [pop]. *)
Definition not_stack_traffic (i : instr) : bool :=
  let '(op, _, _) := i in
  negb (irop_eqb op Omov || irop_eqb op Opush || irop_eqb op Opop).

Ltac bool_facts :=
  repeat match goal with
    | H : _ && _ = true |- _ => apply andb_prop in H; destruct H
    | H : irop_eqb _ _ = true |- _ => apply irop_eqb_eq in H
    | H : false = true |- _ => discriminate H
    | H : OpNone = _ |- _ => discriminate H
    | H : _ = OpNone |- _ => try discriminate H
    end.

Ltac step_cases :=
  unfold optimize_step, fetch; simpl nth_error; cbv iota beta;
  repeat match goal with
    | |- context [if ?c then _ else _] =>
        let E := fresh "E" in destruct c eqn:E
    end; simpl fst; simpl snd.

(** What a step does to the window [w] it starts at: it stays inside the
    window, it keeps the instructions that are not stack traffic, and it
    either copies one instruction or yields one instruction less than it
    consumes. *)
Lemma optimize_step_shape w :
  w <> [] ->
  (snd (optimize_step w 0) <= length w)%nat /\
  filter not_stack_traffic (fst (optimize_step w 0)) =
    filter not_stack_traffic (firstn (snd (optimize_step w 0)) w) /\
  (fst (optimize_step w 0) = firstn 1 w /\ snd (optimize_step w 0) = 1%nat \/
   S (length (fst (optimize_step w 0))) = snd (optimize_step w 0)).
Proof.
  intros Hw.
  destruct w as [|[[op1 a1] b1] [|[[op2 a2] b2] [|[[op3 a3] b3]
                 [|[[op4 a4] b4] rest]]]]; [congruence| | | |].
  all: step_cases.
  all: bool_facts; subst.
  all: simpl.
  all: try solve [repeat split; try lia; try reflexivity; auto].
  all: try solve [repeat split; try lia; try reflexivity; right; reflexivity].
Qed.

Lemma optimize_from_facts ir n :
  forall index, (length ir - index <= n)%nat ->
  (length (optimize_from ir index) <= length ir - index)%nat /\
  filter not_stack_traffic (optimize_from ir index) =
    filter not_stack_traffic (skipn index ir) /\
  (length (optimize_from ir index) = (length ir - index)%nat ->
   optimize_from ir index = skipn index ir).
Proof.
  induction n as [|n IH]; intros index Hn; rewrite optimize_from_eq;
    destruct (index <? length ir)%nat eqn:Hlt;
    try (apply Nat.ltb_lt in Hlt; lia).
  1, 3: apply Nat.ltb_ge in Hlt; rewrite skipn_all2 by lia; simpl;
    auto with arith.
  apply Nat.ltb_lt in Hlt.
    rewrite optimize_step_window. cbn [fst snd].
    set (w := skipn index ir).
    assert (Lw : length w = (length ir - index)%nat) by apply length_skipn.
    assert (Hw : w <> []) by (intros E; rewrite E in Lw; simpl in Lw; lia).
    destruct (optimize_step_shape w Hw) as (Hj & Hf & Hs).
    pose proof (optimize_step_advance w 0) as Hadv.
    set (ys := fst (optimize_step w 0)) in *.
    set (j := snd (optimize_step w 0)) in *.
    destruct (IH (index + j)%nat ltac:(lia)) as (IHl & IHf & IHe).
    assert (Sk : skipn (index + j) ir = skipn j w).
    { unfold w. rewrite skipn_skipn. f_equal. lia. }
    assert (Ly : (length ys <= j)%nat).
    { destruct Hs as [[E1 E2]|E]; [|lia].
      rewrite E1, E2. rewrite length_firstn. lia. }
    rewrite length_app, filter_app. repeat split.
    + lia.
    + rewrite Hf, IHf, Sk, <- filter_app, firstn_skipn. reflexivity.
    + intros Hlen. destruct Hs as [[E1 E2]|E]; [|lia].
      rewrite IHe by lia. rewrite Sk, E1, E2. apply firstn_skipn.
Qed.

(** One pass never yields more instructions than it reads. *)
Lemma optimize_length ir : (length (optimize ir) <= length ir)%nat.
Proof.
  unfold optimize.
  destruct (optimize_from_facts ir (length ir) 0 ltac:(lia)) as (H & _).
  lia.
Qed.

(** ** The optimisation loop of [compile_native]

    [while True: optimized = list(optimize(ir));
     reduction = len(ir) - len(optimized); ir = optimized;
     if not reduction: break]. *)
Equations? optimize_loop (ir : list instr) : list instr
  by wf (length ir) lt :=
  optimize_loop ir
    with inspect (Z.of_nat (length ir) - Z.of_nat (length (optimize ir)) =? 0) := {
    | exist _ true _ => optimize ir
    | exist _ false Hred => optimize_loop (optimize ir) }.
Proof.
  apply Z.eqb_neq in Hred. pose proof (optimize_length ir). lia.
Qed.

(** ** Reference: the x86-64 instructions the assembler targets

    This part follows the instruction-set manual, not the Python file: the
    64-bit register forms of the nine instructions, their encoding (REX.W
    prefix [48], opcode, ModRM byte with [mod = 11]) and their effect on the
    registers and the stack. *)

Module X86.

Inductive insn : Set :=
| MOV (dst src : reg)          (* REX.W 89 /r     MOV r/m64, r64   *)
| PUSH (r : reg)               (* 50+rd           PUSH r64         *)
| POP (r : reg)                (* 58+rd           POP r64          *)
| MOVABS (dst : reg) (imm : Z) (* REX.W B8+rd io  MOV r64, imm64   *)
| ADD (dst src : reg)          (* REX.W 01 /r     ADD r/m64, r64   *)
| SUB (dst src : reg)          (* REX.W 29 /r     SUB r/m64, r64   *)
| IMUL (dst src : reg)         (* REX.W 0F AF /r  IMUL r64, r/m64  *)
| NEG (r : reg)                (* REX.W F7 /3     NEG r/m64        *)
| RET.                         (* C3              RET              *)

(** The 3-bit register numbers. *)
Definition regnum (r : reg) : Z :=
  match r with
  | rax => 0 | rcx => 1 | rdx => 2 | rbx => 3
  | rsp => 4 | rbp => 5 | rsi => 6 | rdi => 7
  end.

Definition reg_of_num (n : Z) : option reg :=
  match n with
  | 0 => Some rax | 1 => Some rcx | 2 => Some rdx | 3 => Some rbx
  | 4 => Some rsp | 5 => Some rbp | 6 => Some rsi | 7 => Some rdi
  | _ => None
  end.

(** ModRM with [mod = 11]: [11 reg rm]. *)
Definition modrm (reg_field rm_field : Z) : Z :=
  192 + 8 * reg_field + rm_field.

(** The eight bytes of a 64-bit immediate, least significant first. *)
Definition imm64 (n : Z) : list Z :=
  map (fun i => (n / 2 ^ (8 * i)) mod 256) [0; 1; 2; 3; 4; 5; 6; 7].

Definition encode (i : insn) : list Z :=
  match i with
  | MOV dst src => [0x48; 0x89; modrm (regnum src) (regnum dst)]
  | PUSH r => [0x50 + regnum r]
  | POP r => [0x58 + regnum r]
  | MOVABS dst imm => 0x48 :: (0xb8 + regnum dst) :: imm64 imm
  | ADD dst src => [0x48; 0x01; modrm (regnum src) (regnum dst)]
  | SUB dst src => [0x48; 0x29; modrm (regnum src) (regnum dst)]
  | IMUL dst src => [0x48; 0x0f; 0xaf; modrm (regnum dst) (regnum src)]
  | NEG r => [0x48; 0xf7; modrm 3 (regnum r)]
  | RET => [0xc3]
  end.

(** The two register fields of a ModRM byte with [mod = 11]. *)
Definition modrm_fields (m : Z) : option (reg * reg) :=
  if (192 <=? m) && (m <? 256) then
    match reg_of_num ((m - 192) / 8), reg_of_num ((m - 192) mod 8) with
    | Some r, Some rm => Some (r, rm)
    | _, _ => None
    end
  else None.

Definition le_value (bs : list Z) : Z :=
  fold_right (fun b acc => b + 256 * acc) 0 bs.

(** Decoding of the first instruction of a byte string; [None] for
    anything that is not one of the nine forms above. *)
Definition decode (bs : list Z) : option (insn * list Z) :=
  match bs with
  | [] => None
  | b0 :: r0 =>
      if b0 =? 0xc3 then Some (RET, r0)
      else if (0x50 <=? b0) && (b0 <? 0x58) then
        option_map (fun r => (PUSH r, r0)) (reg_of_num (b0 - 0x50))
      else if (0x58 <=? b0) && (b0 <? 0x60) then
        option_map (fun r => (POP r, r0)) (reg_of_num (b0 - 0x58))
      else if b0 =? 0x48 then
        match r0 with
        | [] => None
        | b1 :: r1 =>
            if (0xb8 <=? b1) && (b1 <? 0xc0) then
              match reg_of_num (b1 - 0xb8) with
              | Some r =>
                  if (length r1 <? 8)%nat then None
                  else Some (MOVABS r (le_value (firstn 8 r1)), skipn 8 r1)
              | None => None
              end
            else
              match r1 with
              | [] => None
              | b2 :: r2 =>
                  if b1 =? 0x89 then
                    option_map (fun f => (MOV (snd f) (fst f), r2))
                               (modrm_fields b2)
                  else if b1 =? 0x01 then
                    option_map (fun f => (ADD (snd f) (fst f), r2))
                               (modrm_fields b2)
                  else if b1 =? 0x29 then
                    option_map (fun f => (SUB (snd f) (fst f), r2))
                               (modrm_fields b2)
                  else if b1 =? 0xf7 then
                    match modrm_fields b2 with
                    | Some (ext, rm) =>
                        if regnum ext =? 3 then Some (NEG rm, r2) else None
                    | None => None
                    end
                  else if b1 =? 0x0f then
                    match r2 with
                    | b3 :: r3 =>
                        if b2 =? 0xaf then
                          option_map (fun f => (IMUL (fst f) (snd f), r3))
                                     (modrm_fields b3)
                        else None
                    | [] => None
                    end
                  else None
              end
        end
      else None
  end.

(** 64-bit words: the unsigned representative of a register value and its
    reading as a two's complement number. *)
Definition wrap64 (z : Z) : Z := z mod 2 ^ 64.

Definition signed64 (z : Z) : Z :=
  if wrap64 z <? 2 ^ 63 then wrap64 z else wrap64 z - 2 ^ 64.

Definition regfile : Type := reg -> Z.

Definition set_reg (r : reg) (v : Z) (rf : regfile) : regfile :=
  fun r' => if reg_eqb r r' then wrap64 v else rf r'.

(** The routine's view of the machine: the registers and the words it
    has pushed itself (most recent first).  Below them lies the return
    address, which only [RET] may take. *)
Record state : Type := mk { regs : regfile; stack : list Z }.

(** A write to [rsp] other than the implicit one of [PUSH] and [POP]
    moves the stack somewhere this model does not follow. *)
Definition writes_rsp (i : insn) : bool :=
  match i with
  | MOV d _ | MOVABS d _ | ADD d _ | SUB d _ | IMUL d _ | NEG d | POP d =>
      reg_eqb d rsp
  | PUSH _ | RET => false
  end.

(** The effect of one instruction other than [RET]; [None] where the
    model does not follow the machine. *)
Definition step (i : insn) (st : state) : option state :=
  if writes_rsp i then None else
  let rf := regs st in
  match i with
  | MOV d s => Some (mk (set_reg d (rf s) rf) (stack st))
  | MOVABS d n => Some (mk (set_reg d n rf) (stack st))
  | ADD d s => Some (mk (set_reg d (rf d + rf s) rf) (stack st))
  | SUB d s => Some (mk (set_reg d (rf d - rf s) rf) (stack st))
  | IMUL d s =>
      Some (mk (set_reg d (signed64 (rf d) * signed64 (rf s)) rf) (stack st))
  | NEG d => Some (mk (set_reg d (- rf d) rf) (stack st))
  | PUSH s => Some (mk (set_reg rsp (rf rsp - 8) rf) (rf s :: stack st))
  | POP d =>
      match stack st with
      | v :: rest => Some (mk (set_reg d v (set_reg rsp (rf rsp + 8) rf)) rest)
      | [] => None
      end
  | RET => None
  end.

(** Execution from the first byte of [code] until [RET].  [RET] returns to
    the caller only when the routine has popped all it pushed; the result
    is [rax] read as a signed 64-bit number.  Every instruction is at
    least one byte long, so [fuel] = number of bytes is never exhausted
    before the bytes are. *)
Fixpoint run (fuel : nat) (code : list Z) (st : state) : option Z :=
  match fuel with
  | O => None
  | S fuel' =>
      match decode code with
      | None => None
      | Some (RET, _) =>
          match stack st with
          | [] => Some (signed64 (regs st rax))
          | _ :: _ => None
          end
      | Some (i, rest) =>
          match step i st with
          | Some st' => run fuel' rest st'
          | None => None
          end
      end
  end.

(** The calling convention: integer arguments arrive in [rdi], [rsi],
    [rdx], [rcx] (further ones in registers outside the eight); the other
    registers hold whatever the caller left there. *)
Fixpoint load_args (order : list reg) (args : list Z) (rf : regfile)
  : regfile :=
  match order, args with
  | r :: order', a :: args' => load_args order' args' (set_reg r a rf)
  | _, _ => rf
  end.

Definition call (code : list Z) (caller : regfile) (args : list Z)
  : option Z :=
  run (S (length code)) code
      (mk (load_args [rdi; rsi; rdx; rcx] args caller) []).

End X86.

(** ** Reference: the interpreter

    What CPython does with the ten opcodes [Compiler.compile] knows, on
    unbounded integers.  [dis.opname] for CPython 3.6 to 3.10 is given for
    the opcodes named here; every other entry of the table is a name that
    none of the tests of [decode] and [compile] recognises. *)

Module CPython.

Definition opname (opcode : Z) : String.string :=
  match opcode with
  | 1 => "POP_TOP" | 9 => "NOP"
  | 10 => "UNARY_POSITIVE" | 11 => "UNARY_NEGATIVE" | 12 => "UNARY_NOT"
  | 15 => "UNARY_INVERT"
  | 19 => "BINARY_POWER" | 20 => "BINARY_MULTIPLY" | 22 => "BINARY_MODULO"
  | 23 => "BINARY_ADD" | 24 => "BINARY_SUBTRACT" | 25 => "BINARY_SUBSCR"
  | 26 => "BINARY_FLOOR_DIVIDE" | 27 => "BINARY_TRUE_DIVIDE"
  | 55 => "INPLACE_ADD" | 56 => "INPLACE_SUBTRACT"
  | 57 => "INPLACE_MULTIPLY"
  | 83 => "RETURN_VALUE"
  | 100 => "LOAD_CONST" | 107 => "COMPARE_OP" | 116 => "LOAD_GLOBAL"
  | 124 => "LOAD_FAST" | 125 => "STORE_FAST" | 131 => "CALL_FUNCTION"
  | _ => "<other>"
  end%string.

(** The code object fields that [compile_native] reads. *)
Record codeobj : Set :=
  mk { co_code : list Z; co_consts : list pyconst; co_argcount : nat }.

(** A frame: the fast locals ([None] while unbound) and the value
    stack. *)
Record frame : Type := mkframe { fast : nat -> option Z; stack : list Z }.

Definition store (n : nat) (v : Z) (f : nat -> option Z) : nat -> option Z :=
  fun m => if Nat.eqb n m then Some v else f m.

Inductive outcome : Type :=
| Next (f : frame)
| Return (v : Z)
| Stuck.

Definition binary (op : Z -> Z -> Z) (f : frame) : outcome :=
  match stack f with
  | tos :: tos1 :: rest => Next (mkframe (fast f) (op tos1 tos :: rest))
  | _ => Stuck
  end.

(** One instruction.  [Stuck] stands for everything outside the integer
    subset: an exception, a value that is not an integer, an opcode that
    is not one of the ten. *)
Definition exec (consts : list pyconst) (op : String.string)
           (arg : option Z) (f : frame) : outcome :=
  if String.eqb op "LOAD_FAST" then
    match arg with
    | Some n => match fast f (Z.to_nat n) with
                | Some v => Next (mkframe (fast f) (v :: stack f))
                | None => Stuck
                end
    | None => Stuck
    end
  else if String.eqb op "STORE_FAST" then
    match arg, stack f with
    | Some n, v :: rest => Next (mkframe (store (Z.to_nat n) v (fast f)) rest)
    | _, _ => Stuck
    end
  else if String.eqb op "LOAD_CONST" then
    match arg with
    | Some n => match nth_error consts (Z.to_nat n) with
                | Some (CInt v) => Next (mkframe (fast f) (v :: stack f))
                | _ => Stuck
                end
    | None => Stuck
    end
  else if String.eqb op "BINARY_MULTIPLY" then binary Z.mul f
  else if String.eqb op "BINARY_ADD" || String.eqb op "INPLACE_ADD" then
    binary Z.add f
  else if String.eqb op "BINARY_SUBTRACT" || String.eqb op "INPLACE_SUBTRACT"
  then binary Z.sub f
  else if String.eqb op "UNARY_NEGATIVE" then
    match stack f with
    | v :: rest => Next (mkframe (fast f) (- v :: rest))
    | [] => Stuck
    end
  else if String.eqb op "RETURN_VALUE" then
    match stack f with
    | v :: _ => Return v
    | [] => Stuck
    end
  else Stuck.

(** The evaluation loop over the wordcode of CPython 3.6 and later (two
    bytes an instruction). *)
Fixpoint eval (consts : list pyconst) (code : list Z) (f : frame)
  : option Z :=
  match code with
  | opcode :: oparg :: rest =>
      match exec consts (opname opcode) (Some oparg) f with
      | Next f' => eval consts rest f'
      | Return v => Some v
      | Stuck => None
      end
  | _ => None
  end.

Fixpoint bind_args (n : nat) (args : list Z) (f : nat -> option Z)
  : nat -> option Z :=
  match args with
  | [] => f
  | a :: args' => bind_args (S n) args' (store n a f)
  end.

(** Calling the function object with integer arguments. *)
Definition call (c : codeobj) (args : list Z) : option Z :=
  if Nat.eqb (length args) (co_argcount c)
  then eval (co_consts c) (co_code c)
            (mkframe (bind_args 0 args (fun _ => None)) [])
  else None.

End CPython.

(** ** [compile_native] and [jit] *)

Section Jit.

Variable PRE36 : bool.
Variable opname_table : Z -> String.string.

(** Modelled from the spec: [mj.PAGESIZE] is not among the sources; it is
    the size in bytes of the one page the assembler writes to
    (section 4.5: sized in whole pages). *)
Variable PAGESIZE : nat.

(** [for name, a, b in ir: emit = getattr(assembler, name); emit(a, b)]. *)
Fixpoint assemble (assembler : Assembler.t) (ir : list instr)
  : result Assembler.t :=
  match ir with
  | [] => Ok assembler
  | (name, a, b) :: rest =>
      assembler' <- Assembler.getattr name assembler a b ;;
      assemble assembler' rest
  end.

(** [compile_native], without its printing; the result stands for the
    pair of the foreign function at [assembler.address] and the
    assembler.  The foreign function, as the last lines of
    [compile_native] build it from [co_argcount], is [signature] and
    [entry_call] further down. *)
Definition compile_native (code : CPython.codeobj) : result Assembler.t :=
  ir <- Compiler.compile PRE36 opname_table
          (Compiler.mk (CPython.co_code code) (CPython.co_consts code) 0) ;;
  assemble (Assembler.init PAGESIZE) (optimize_loop ir).

(** The machine's side of a call of the foreign function: the processor
    runs the block from its first byte.  The marshalling done by [ctypes]
    is not modelled here: every argument is taken to arrive as a 64-bit
    word in its register, and [rax] to be read back as a signed 64-bit
    number; [entry_call] further down adds what [ctypes] makes of the
    arguments and of the result. *)
Definition native_call (assembler : Assembler.t) (caller : X86.regfile)
           (args : list Z) : option Z :=
  X86.call (Assembler.block assembler) caller args.

(** The decorated function: a black box from arguments to whatever it
    does, and its code object. *)
Context {R : Type}.
Variable function : list Z -> R.
Variable code : CPython.codeobj.

(** The value of the attribute [frontend.function] once it is set. *)
Inductive callee : Type :=
| Native (assembler : Assembler.t)
| Python.

(** What one call of [frontend] does, in order. *)
Inductive event : Type :=
| EvCompile                  (* [compile_native(function)] is called *)
| EvDiagnostic (e : exn)     (* the "Could not compile" message *)
| EvCallNative (assembler : Assembler.t)
| EvCallPython.

Inductive value : Type :=
| FromNative (r : option Z)
| FromPython (r : R).

(** One invocation: the arguments and the registers as the caller left
    them. *)
Record invocation : Type :=
  mkinv { caller_regs : X86.regfile; args : list Z }.

Definition invoke (fn : callee) (inv : invocation) : event * value :=
  match fn with
  | Native assembler =>
      (EvCallNative assembler,
       FromNative (native_call assembler (caller_regs inv) (args inv)))
  | Python => (EvCallPython, FromPython (function (args inv)))
  end.

(** [frontend]: [attr] is the attribute [frontend.function], [None] while
    [hasattr(frontend, "function")] is false. *)
Definition frontend (attr : option callee) (inv : invocation)
  : option callee * list event * value :=
  let '(fn, compiling) :=
    match attr with
    | Some fn => (fn, [])
    | None =>
        match compile_native code with
        | Ok assembler => (Native assembler, [EvCompile])
        | Raise e => (Python, [EvCompile; EvDiagnostic e])
        end
    end in
  let '(ev, v) := invoke fn inv in
  (Some fn, compiling ++ [ev], v).

(** A single-threaded sequence of invocations of the wrapper. *)
Fixpoint calls (attr : option callee) (invs : list invocation)
  : option callee * list event * list value :=
  match invs with
  | [] => (attr, [], [])
  | inv :: rest =>
      let '(attr1, evs1, v) := frontend attr inv in
      let '(attr2, evs2, vs) := calls attr1 rest in
      (attr2, evs1 ++ evs2, v :: vs)
  end.

Definition is_compile (ev : event) : bool :=
  match ev with EvCompile => true | _ => false end.

(** What the first call stores in [frontend.function], and what it does
    before the call proper. *)
Definition settled : callee :=
  match compile_native code with
  | Ok assembler => Native assembler
  | Raise _ => Python
  end.

Definition compile_events : list event :=
  match compile_native code with
  | Ok _ => [EvCompile]
  | Raise e => [EvCompile; EvDiagnostic e]
  end.

Definition call_event (fn : callee) (inv : invocation) : event :=
  fst (invoke fn inv).

Definition call_value (fn : callee) (inv : invocation) : value :=
  snd (invoke fn inv).

End Jit.

(** ** Concrete routines and IR lists *)

(** Assembling an IR list into a fresh page and calling the result. *)
Definition assembled_call (PAGESIZE : nat) (ir : list instr)
           (caller : X86.regfile) (args : list Z) : result (option Z) :=
  assembler <- assemble (Assembler.init PAGESIZE) ir ;;
  Ok (native_call assembler caller args).

(** [def return_1024(): return 1024],
    [def assign_then_double(a, b): b = a; return b + b] and
    [def negate(x): return -x]. *)
Definition return_1024 : CPython.codeobj :=
  CPython.mk [100; 1; 83; 0] [CNone; CInt 1024] 0.

Definition assign_then_double : CPython.codeobj :=
  CPython.mk [124; 0; 125; 1; 124; 1; 124; 1; 23; 0; 83; 0] [CNone] 2.

Definition negate : CPython.codeobj :=
  CPython.mk [124; 0; 11; 0; 83; 0] [CNone] 1.

Definition native_result (code : CPython.codeobj) (caller : X86.regfile)
           (args : list Z) : result (option Z) :=
  assembler <- compile_native false CPython.opname 4096 code ;;
  Ok (native_call assembler caller args).

(** [def store_then_load(a): t = a; return t]. *)
Definition store_then_load : CPython.codeobj :=
  CPython.mk [124; 0; 125; 1; 124; 1; 83; 0] [CNone] 1.

(** [def modulo(a, b): return a % b]. *)
Definition modulo : CPython.codeobj :=
  CPython.mk [124; 0; 124; 1; 22; 0; 83; 0] [CNone] 2.

(** [def first_of_five(a, b, c, d, e): return a] and
    [def fifth_of_five(a, b, c, d, e): return e]. *)
Definition first_of_five : CPython.codeobj :=
  CPython.mk [124; 0; 83; 0] [CNone] 5.

Definition fifth_of_five : CPython.codeobj :=
  CPython.mk [124; 4; 83; 0] [CNone] 5.

Definition ir_mov_ret : list instr :=
  [(Omov, Reg rax, Reg rdi); (Oret, ONone, ONone)].

(** The list [optimize] is given in its third pass over
    [assign_then_double]. *)
Definition chain_ir : list instr :=
  [(Omov, Reg rsi, Reg rdi); (Omov, Reg rbx, Reg rsi);
   (Omov, Reg rax, Reg rsi); (Oadd, Reg rax, Reg rbx);
   (Oret, ONone, ONone)].

Definition window_ir : list instr :=
  [(Opush, Reg rdi, ONone); (Omov, Reg rax, Reg rsi);
   (Opop, Reg rsi, ONone); (Oret, ONone, ONone)].

(** ** The foreign function built by [compile_native]

    [compile_native] ends with
    [argcount = codeobj.co_argcount;
     if argcount == 0: signature = ctypes.CFUNCTYPE(None)
     else: signature = ctypes.CFUNCTYPE( *[ctypes.c_int64] * argcount);
     signature.restype = ctypes.c_int64;
     return signature(assembler.address), assembler].
    [ctypes.CFUNCTYPE(restype, *argtypes)] takes its first argument as the
    result type: the unpacked list of [argcount] types declares the result
    and [argcount - 1] arguments.  The assignment to [signature.restype]
    sets an attribute of the prototype class which a call does not read;
    the result type stays the one given to [CFUNCTYPE]. *)

(** The one ctypes type the code names. *)
Inductive ctype : Set := c_int64.

(** A function prototype: the result type ([None] for no result) and the
    declared argument types. *)
Record prototype : Set :=
  CFUNCTYPE { restype : option ctype; argtypes : list ctype }.

Definition signature (argcount : nat) : prototype :=
  match argcount with
  | O => CFUNCTYPE None []
  | S n => CFUNCTYPE (Some c_int64) (repeat c_int64 n)
  end.

(** An integer argument with the declared type [c_int64]: its low 64 bits,
    without overflow check. *)
Definition as_c_int64 (v : Z) : Z := X86.wrap64 v.

(** An integer argument beyond the declared ones.  ctypes passes a Python
    int without declared type as a C [int]: the value has to fit an
    [unsigned long] or a [long] (the call raises [ctypes.ArgumentError]
    otherwise), its low 32 bits are kept, and they arrive sign-extended
    in the 64-bit register. *)
Definition as_c_int (v : Z) : option Z :=
  if (- 2 ^ 63 <=? v) && (v <? 2 ^ 64) then
    Some (if v mod 2 ^ 32 <? 2 ^ 31 then v mod 2 ^ 32
          else v mod 2 ^ 32 - 2 ^ 32)
  else None.

(** What a call of the foreign function comes to. *)
Inductive returned : Set :=
| Returned (v : Z)      (* the result type is [c_int64]: rax, signed *)
| ReturnedNone          (* the result type is [None] *)
| CallTypeError         (* fewer arguments than declared types *)
| CallArgumentError     (* an argument that cannot be converted *)
| Lost.                 (* the routine leaves the model of the processor *)

(** The words the arguments arrive as.  A prototype made by [CFUNCTYPE]
    follows the C calling convention, for which ctypes demands at least as
    many arguments as declared types and converts the further ones by
    default. *)
Fixpoint marshal (argtypes : list ctype) (args : list Z)
  : returned + list Z :=
  match argtypes, args with
  | _ :: _, [] => inl CallTypeError
  | c_int64 :: argtypes', a :: args' =>
      match marshal argtypes' args' with
      | inr words => inr (as_c_int64 a :: words)
      | inl e => inl e
      end
  | [], [] => inr []
  | [], a :: args' =>
      match as_c_int a with
      | Some w =>
          match marshal [] args' with
          | inr words => inr (w :: words)
          | inl e => inl e
          end
      | None => inl CallArgumentError
      end
  end.

(** Calling [signature(assembler.address)] with integer arguments: the
    arguments are converted, the processor runs the block
    ([native_call]), and the result is read as the result type says. *)
Definition entry_call (argcount : nat) (assembler : Assembler.t)
           (caller : X86.regfile) (args : list Z) : returned :=
  match marshal (argtypes (signature argcount)) args with
  | inl e => e
  | inr words =>
      match native_call assembler caller words,
            restype (signature argcount) with
      | None, _ => Lost
      | Some _, None => ReturnedNone
      | Some v, Some c_int64 => Returned v
      end
  end.

(** ** Auxiliary notions: the assembler, byte by byte *)

(** The bytes the method named by an IR instruction passes to [emit]. *)
Definition encoding (i : instr) : result (list Z) :=
  let '(name, a, b) := i in
  match name with
  | Oret => Ok [0xc3]
  | Opush => r <- Assembler.registers a ONone ;; Ok [Z.lor 0x50 r]
  | Opop => r <- Assembler.registers a ONone ;; Ok [Z.lor 0x58 r]
  | Oimul => r <- Assembler.registers a b ;;
             Ok [0x48; 0x0f; 0xaf; Z.lor 0xc0 r]
  | Oadd => r <- Assembler.registers b a ;; Ok [0x48; 0x01; Z.lor 0xc0 r]
  | Osub => r <- Assembler.registers b a ;; Ok [0x48; 0x29; Z.lor 0xc0 r]
  | Omov => r <- Assembler.registers b a ;; Ok [0x48; 0x89; Z.lor 0xc0 r]
  | Oimmediate =>
      r <- Assembler.registers a ONone ;;
      match b with
      | Imm n => Ok (0x48 :: Z.lor 0xb8 r :: Assembler.little_endian n)
      | Reg _ | ONone => Raise TypeError
      end
  | Oneg => Raise AttributeError
  | OpNone => Raise TypeError
  end.

(** The bytes of a whole IR list. *)
Fixpoint code_of (ir : list instr) : result (list Z) :=
  match ir with
  | [] => Ok []
  | i :: rest => bs <- encoding i ;; cs <- code_of rest ;; Ok (bs ++ cs)
  end.


(** [appends self m bs]: the emitter call [m], made on [self], succeeds and
    leaves an assembler whose [raw] is that of [self] followed by [bs]. *)
Definition appends (self : Assembler.t) (m : result Assembler.t)
           (bs : list Z) : Prop :=
  exists self', m = Ok self' /\
    Assembler.raw self' = Assembler.raw self ++ bs /\
    Assembler.index self' = (Assembler.index self + length bs)%nat.

(** Equality test on byte lists. *)
Definition bytes_eqb (l1 l2 : list Z) : bool :=
  if list_eq_dec Z.eq_dec l1 l2 then true else false.

(** The instruction the processor reads where the emitter for the IR
    instruction [i] wrote its bytes. *)
Definition insn_of (i : instr) : option X86.insn :=
  match encoding i with
  | Ok bs => option_map fst (X86.decode bs)
  | Raise _ => None
  end.

Fixpoint insns_of (ir : list instr) : option (list X86.insn) :=
  match ir with
  | [] => Some []
  | i :: rest =>
      match insn_of i, insns_of rest with
      | Some x, Some xs => Some (x :: xs)
      | _, _ => None
      end
  end.

(** Execution of a list of instructions, one after the other, with the
    steps of [X86.step] and the return of [X86.run]. *)
Fixpoint exec (prog : list X86.insn) (st : X86.state) : option Z :=
  match prog with
  | [] => None
  | X86.RET :: _ =>
      match X86.stack st with
      | [] => Some (X86.signed64 (X86.regs st rax))
      | _ :: _ => None
      end
  | i :: rest =>
      match X86.step i st with
      | Some st' => exec rest st'
      | None => None
      end
  end.

(** A register file that holds 64-bit words. *)
Definition words (rf : X86.regfile) : Prop :=
  forall r, 0 <= rf r < 2 ^ 64.

(** Two states that hold the same words. *)
Definition same_state (s t : X86.state) : Prop :=
  (forall r, X86.regs s r = X86.regs t r) /\ X86.stack s = X86.stack t.

(** Execution of the instructions that come before a point of interest:
    either the routine is still running there, or it has already returned
    or left the model. *)
Inductive progress : Type :=
| Running (st : X86.state)
| Finished (r : option Z).

Fixpoint exec_prefix (prog : list X86.insn) (st : X86.state) : progress :=
  match prog with
  | [] => Running st
  | X86.RET :: _ =>
      match X86.stack st with
      | [] => Finished (Some (X86.signed64 (X86.regs st rax)))
      | _ :: _ => Finished None
      end
  | i :: rest =>
      match X86.step i st with
      | Some st' => exec_prefix rest st'
      | None => Finished None
      end
  end.

(** The in-between instruction of a push/pop window that neither writes nor
    reads [y] and does not read the stack pointer. *)
Definition window_safe (i : instr) (y : reg) : bool :=
  match i with
  | (Omov, Reg d, Reg s) | (Oadd, Reg d, Reg s)
  | (Osub, Reg d, Reg s) | (Oimul, Reg d, Reg s) =>
      negb (reg_eqb d y) && negb (reg_eqb s y) && negb (reg_eqb s rsp)
  | (Oimmediate, Reg d, Imm _) => negb (reg_eqb d y)
  | _ => false
  end.

(** The rewritten window [w2] returns what the window [w1] returns, from
    any state that holds words and whatever instructions follow. *)
Definition window_refines (w1 w2 : list instr) : Prop :=
  forall xs1 xs2, insns_of w1 = Some xs1 -> insns_of w2 = Some xs2 ->
  forall st q v, words (X86.regs st) ->
    exec (xs1 ++ q) st = Some v -> exec (xs2 ++ q) st = Some v.

(** The machine instruction [xi] neither writes nor reads [y] and does not
    read the stack pointer: what [window_safe] says, on the instruction the
    processor reads. *)
Definition leaves (y : reg) (xi : X86.insn) : bool :=
  match xi with
  | X86.MOV d s | X86.ADD d s | X86.SUB d s | X86.IMUL d s =>
      negb (reg_eqb d y) && negb (reg_eqb s y) && negb (reg_eqb s rsp)
  | X86.MOVABS d _ => negb (reg_eqb d y)
  | _ => false
  end.

(** [shifted w y A B]: the state [A] of the routine that has pushed [w] and
    is to pop it into [y], against the state [B] of the routine that has
    moved [w] into [y] already. *)
Definition shifted (w : Z) (y : reg) (A B : X86.state) : Prop :=
  X86.stack A = w :: X86.stack B /\
  (forall r, r <> y -> r <> rsp -> X86.regs A r = X86.regs B r) /\
  X86.regs B y = X86.wrap64 w /\
  X86.regs B rsp = X86.wrap64 (X86.regs A rsp + 8).

(** The bytes the compiler has not read yet. *)
Definition rest_of (self : Compiler.t) : list Z :=
  skipn (Compiler.index self) (Compiler.bytecode self).

(** One instruction read off the front of a byte list: its name, its
    argument and the number of bytes it takes.  Before CPython 3.6 an
    instruction is one byte, or three with a 16-bit little-endian argument;
    from 3.6 on it is always two bytes. *)
Definition decode_bytes (PRE36 : bool) (opname_table : Z -> String.string)
           (rest : list Z) : result (String.string * option Z * nat) :=
  match rest with
  | [] => Raise IndexError
  | opcode :: r1 =>
      let opname := opname_table opcode in
      if Compiler.startswith_noarg opname then
        if PRE36 then Ok (opname, None, 1%nat)
        else match r1 with
             | [] => Raise IndexError
             | _ :: _ => Ok (opname, None, 2%nat)
             end
      else
        match r1 with
        | [] => Raise IndexError
        | lo :: r2 =>
            if PRE36 then
              match r2 with
              | [] => Raise IndexError
              | hi :: _ => Ok (opname, Some (Z.lor lo (Z.shiftl hi 8)), 3%nat)
              end
            else Ok (opname, Some lo, 2%nat)
        end
  end.

(** [uses_reg r i]: the register [r] is an operand of [i]. *)
Definition uses_reg (r : reg) (i : instr) : bool :=
  let '(_, a, b) := i in
  operand_eqb a (Reg r) || operand_eqb b (Reg r).

(** The shapes of the instructions [Compiler.compile] yields. *)
Definition built (i : instr) : bool :=
  match i with
  | (Opush, Reg r, ONone) =>
      existsb (reg_eqb r) [rax; rdi; rsi; rdx; rcx]
  | (Opop, Reg r, ONone) => existsb (reg_eqb r) [rax; rbx]
  | (Omov, Reg r, Reg rax) => existsb (reg_eqb r) [rdi; rsi; rdx; rcx]
  | (Oimmediate, Reg rax, Imm _) | (Oimmediate, Reg rax, ONone) => true
  | (Oimul, Reg rax, Reg rbx) | (Oadd, Reg rax, Reg rbx)
  | (Osub, Reg rax, Reg rbx) => true
  | (Oneg, Reg rax, ONone) => true
  | (Oret, ONone, ONone) => true
  | _ => false
  end.

(** ** Auxiliary notions: the builder against the interpreter *)

(** The interpreter's loop of [CPython.eval], on bytecode that returns with
    exactly the returned value on the value stack, as the bytecode CPython
    generates does. *)
Fixpoint eval_balanced (consts : list pyconst) (code : list Z)
         (f : CPython.frame) : option Z :=
  match code with
  | opcode :: oparg :: rest =>
      match CPython.exec consts (CPython.opname opcode) (Some oparg) f with
      | CPython.Next f' => eval_balanced consts rest f'
      | CPython.Return v =>
          match CPython.stack f with
          | [_] => Some v
          | _ => None
          end
      | CPython.Stuck => None
      end
  | _ => None
  end.

Definition call_balanced (c : CPython.codeobj) (args : list Z) : option Z :=
  if Nat.eqb (length args) (CPython.co_argcount c)
  then eval_balanced (CPython.co_consts c) (CPython.co_code c)
         (CPython.mkframe (CPython.bind_args 0 args (fun _ => None)) [])
  else None.

(** The register that holds the local slot [n]. *)
Definition var_reg (n : nat) : option reg :=
  nth_error [rdi; rsi; rdx; rcx] n.

(** The machine state represents the interpreter's frame: every bound
    local with a register is in it, and the machine stack holds the value
    stack, all modulo 2^64. *)
Definition represents (st : X86.state) (f : CPython.frame) : Prop :=
  (forall n r x, var_reg n = Some r -> CPython.fast f n = Some x ->
                 X86.wrap64 (X86.regs st r) = X86.wrap64 x) /\
  Forall2 (fun w x => X86.wrap64 w = X86.wrap64 x)
          (X86.stack st) (CPython.stack f).

(** The integer constants of a table are between 0 and 1023. *)
Definition small_constants (consts : list pyconst) : Prop :=
  forall n, In (CInt n) consts -> 0 <= n < 1024.

(** [def scaled_difference(a, b): t = a - b; return t * 3]. *)
Definition scaled_difference : CPython.codeobj :=
  CPython.mk [124; 0; 124; 1; 24; 0; 125; 2; 124; 2; 100; 1; 20; 0; 83; 0]
             [CNone; CInt 3] 2.

(** The IR the builder yields for it. *)
Definition scaled_difference_ir : list instr :=
  [(Opush, Reg rdi, ONone); (Opush, Reg rsi, ONone);
   (Opop, Reg rbx, ONone); (Opop, Reg rax, ONone);
   (Osub, Reg rax, Reg rbx); (Opush, Reg rax, ONone);
   (Opop, Reg rax, ONone); (Omov, Reg rdx, Reg rax);
   (Opush, Reg rdx, ONone);
   (Oimmediate, Reg rax, Imm 3); (Opush, Reg rax, ONone);
   (Opop, Reg rax, ONone); (Opop, Reg rbx, ONone);
   (Oimul, Reg rax, Reg rbx); (Opush, Reg rax, ONone);
   (Opop, Reg rax, ONone); (Oret, ONone, ONone)].

(** [def return_none(): return None]. *)
Definition return_none : CPython.codeobj :=
  CPython.mk [100; 0; 83; 0] [CNone] 0.

(** ** Auxiliary notions: rewrites that keep the result *)

(** [step_safe w]: what [optimize] does at the head of [w] is to copy the
    instruction, to drop a self-move, to collapse a push/pop pair, or to
    collapse a window whose in-between instructions pass [window_safe].
    The tests are those of [optimize_step]; the move-chain rule is not
    among the safe ones. *)
Definition step_safe (w : list instr) : bool :=
  let '(op1, a1, b1) := fetch w 0 in
  let '(op2, a2, b2) := fetch w 1 in
  let '(op3, a3, b3) := fetch w 2 in
  let '(op4, a4, b4) := fetch w 3 in
  if irop_eqb op1 Omov && operand_eqb a1 b1 then true
  else if irop_eqb op1 op2 && irop_eqb op2 Omov && operand_eqb a1 b2 then
    false
  else if irop_eqb op1 Opush && irop_eqb op2 Opop then true
  else if irop_eqb op1 Opush && irop_eqb op3 Opop && negb (push_or_pop op2)
          && negb (operand_eqb a2 a3) then
    match a3 with
    | Reg y => window_safe (op2, a2, b2) y
    | _ => false
    end
  else if irop_eqb op1 Opush && irop_eqb op4 Opop && negb (push_or_pop op2)
          && negb (push_or_pop op3)
          && (negb (operand_eqb a2 a4) && negb (operand_eqb a3 a4)) then
    match a4 with
    | Reg y => window_safe (op2, a2, b2) y && window_safe (op3, a3, b3) y
    | _ => false
    end
  else true.

(** Every step of the pass from [index] on is safe. *)
Fixpoint pass_safe (fuel : nat) (ir : list instr) (index : nat) : bool :=
  match fuel with
  | O => true
  | S fuel' =>
      if (index <? length ir)%nat then
        step_safe (skipn index ir)
        && pass_safe fuel' ir (snd (optimize_step ir index))
      else true
  end.

(** Every step of every pass of the loop of [compile_native] is safe. *)
Fixpoint loop_safe (fuel : nat) (ir : list instr) : bool :=
  match fuel with
  | O => false
  | S fuel' =>
      pass_safe (length ir) ir 0
      && (if Z.of_nat (length ir) - Z.of_nat (length (optimize ir)) =? 0
          then true
          else loop_safe fuel' (optimize ir))
  end.

Definition rewrites_safe (ir : list instr) : bool :=
  loop_safe (S (length ir)) ir.

(** [def foo(a, b): return a*a - b*b], the example of the docstring of
    [jit]. *)
Definition foo : CPython.codeobj :=
  CPython.mk [124; 0; 124; 0; 20; 0; 124; 1; 124; 1; 20; 0; 24; 0; 83; 0]
             [CNone] 2.

(** The IR the builder yields for it. *)
Definition foo_ir : list instr :=
  [(Opush, Reg rdi, ONone); (Opush, Reg rdi, ONone);
   (Opop, Reg rax, ONone); (Opop, Reg rbx, ONone);
   (Oimul, Reg rax, Reg rbx); (Opush, Reg rax, ONone);
   (Opush, Reg rsi, ONone); (Opush, Reg rsi, ONone);
   (Opop, Reg rax, ONone); (Opop, Reg rbx, ONone);
   (Oimul, Reg rax, Reg rbx); (Opush, Reg rax, ONone);
   (Opop, Reg rbx, ONone); (Opop, Reg rax, ONone);
   (Osub, Reg rax, Reg rbx); (Opush, Reg rax, ONone);
   (Opop, Reg rax, ONone); (Oret, ONone, ONone)].

(** * Properties *)

(** ** The peephole pass *)

Lemma optimize_same_length ir :
  length (optimize ir) = length ir -> optimize ir = ir.
Proof.
  unfold optimize. intros H.
  destruct (optimize_from_facts ir (length ir) 0 ltac:(lia)) as (_ & _ & E).
  rewrite Nat.sub_0_r in E. apply E. exact H.
Qed.

Lemma optimize_loop_eq ir :
  optimize_loop ir =
  if Z.of_nat (length ir) - Z.of_nat (length (optimize ir)) =? 0
  then optimize ir
  else optimize_loop (optimize ir).
Proof.
  rewrite optimize_loop_equation_1.
  unfold optimize_loop_unfold_clause_1.
  destruct (inspect (_ =? 0)) as [[] H]; rewrite H; reflexivity.
Qed.

Lemma optimize_loop_fixed ir :
  optimize (optimize_loop ir) = optimize_loop ir.
Proof.
  remember (length ir) as n eqn:En.
  revert ir En. induction n as [n IH] using lt_wf_ind. intros ir En.
  rewrite optimize_loop_eq.
  destruct (_ =? 0) eqn:Hred.
  - apply Z.eqb_eq in Hred.
    assert (E : optimize ir = ir) by (apply optimize_same_length; lia).
    rewrite E. exact E.
  - apply Z.eqb_neq in Hred. pose proof (optimize_length ir).
    apply (IH (length (optimize ir))); [lia | reflexivity].
Qed.

(** C5. One pass of [optimize] yields a list no longer than its input; a
    pass that yields a list of the same length yields the input itself; and
    the list the loop of [compile_native] stops with is left unchanged by a
    further pass. *)
Theorem C5_optimize_fixed_point (ir : list instr) :
  (length (optimize ir) <= length ir)%nat /\
  (length (optimize ir) = length ir -> optimize ir = ir) /\
  optimize (optimize_loop ir) = optimize_loop ir.
Proof.
  split; [apply optimize_length|].
  split; [apply optimize_same_length|apply optimize_loop_fixed].
Qed.

Lemma C5_optimize_fixed_point_witness :
  length (optimize ir_mov_ret) = length ir_mov_ret /\
  optimize ir_mov_ret = ir_mov_ret.
Proof.
  split; [reflexivity|].
  apply (proj1 (proj2 (C5_optimize_fixed_point ir_mov_ret))). reflexivity.
Defined.

(** C10. A pass keeps every instruction that is not a [mov], a [push] or a
    [pop], operands included and in the same order: the instructions of
    that kind read off the output are those read off the input. *)
Theorem C10_optimize_keeps_other_ops (ir : list instr) :
  filter not_stack_traffic (optimize ir) = filter not_stack_traffic ir.
Proof.
  unfold optimize.
  destruct (optimize_from_facts ir (length ir) 0 ltac:(lia)) as (_ & E & _).
  exact E.
Qed.

(** ** The IR builder *)

Section CompilerFacts.

Variable PRE36 : bool.
Variable opname_table : Z -> String.string.

Abbreviation decode := (Compiler.decode PRE36 opname_table).
Abbreviation compile := (Compiler.compile PRE36 opname_table).
Abbreviation at_instruction' := (at_instruction PRE36 opname_table).

Lemma compile_eq self :
  compile self =
  if (Compiler.index self <? length (Compiler.bytecode self))%nat then
    match decode self with
    | Raise e => Raise e
    | Ok (op, arg, self') =>
        match Compiler.template self' op arg with
        | Raise e => Raise e
        | Ok ir =>
            match compile self' with
            | Raise e => Raise e
            | Ok rest => Ok (ir ++ rest)
            end
        end
    end
  else Ok [].
Proof.
  funelim (compile self); clear Heqcall;
    repeat match goal with
      | H : compile _ = (if _ then _ else _) |- _ => clear H
      end;
    repeat match goal with
      | H : (_ <? _)%nat = _ |- _ => rewrite H
      | H : decode _ = _ |- _ => rewrite H
      | H : Compiler.template _ _ _ = _ |- _ => rewrite H
      | H : compile _ = _ |- _ => rewrite H
      end; reflexivity.
Qed.

Lemma template_unsupported self op arg :
  supported op = false ->
  Compiler.template self op arg = Raise (NotImplementedError op).
Proof.
  unfold supported, Compiler.template, Compiler.op_in. simpl.
  intros H.
  repeat (apply orb_false_elim in H; destruct H as [?E H]).
  repeat match goal with
    | E : String.eqb _ _ = false |- _ => rewrite E; clear E
    end.
  reflexivity.
Qed.

Lemma decode_opname self op arg self' :
  decode self = Ok (op, arg, self') ->
  exists opcode, opcode_at self = Some opcode /\ op = opname_table opcode.
Proof.
  unfold Compiler.decode, Compiler.fetch at 1, getitem, opcode_at.
  destruct (nth_error _ _) as [opcode|]; simpl; [|discriminate].
  intros H. exists opcode. split; [reflexivity|].
  destruct (Compiler.startswith_noarg _), PRE36; simpl in H;
    repeat match type of H with
      | context [Compiler.fetch ?s] => destruct (Compiler.fetch s) as [[? ?]|]; simpl in H
      end; congruence.
Qed.

Lemma opcode_at_lt self opcode :
  opcode_at self = Some opcode ->
  (Compiler.index self <? length (Compiler.bytecode self))%nat = true.
Proof.
  unfold opcode_at. intros H. apply Nat.ltb_lt.
  apply nth_error_Some. congruence.
Qed.

(** If the decoder arrives at an instruction on which [decode] or the
    branch of [compile] raises, [compile] raises. *)
Lemma compile_raises self self' :
  at_instruction' self self' ->
  (Compiler.index self' < length (Compiler.bytecode self'))%nat ->
  (forall op arg self2,
      decode self' = Ok (op, arg, self2) ->
      exists e, Compiler.template self2 op arg = Raise e) ->
  exists e, compile self = Raise e.
Proof.
  intros Hat. induction Hat as [self|self op arg self1 self' Hd _ IH];
    intros Hlt Hbad.
  - rewrite compile_eq. apply Nat.ltb_lt in Hlt. rewrite Hlt.
    destruct (decode self) as [[[op arg] self2]|e] eqn:Hd; [|eauto].
    destruct (Hbad _ _ _ eq_refl) as [e He]. rewrite He. eauto.
  - destruct (IH Hlt Hbad) as [e He].
    rewrite compile_eq.
    destruct (decode_opname _ _ _ _ Hd) as (opcode & Ho & _).
    rewrite (opcode_at_lt _ _ Ho), Hd.
    destruct (Compiler.template self1 op arg); [|eauto].
    rewrite He. eauto.
Qed.

End CompilerFacts.

(** ** The decorator *)

Section JitFacts.

Variable PRE36 : bool.
Variable opname_table : Z -> String.string.
Variable PAGESIZE : nat.
Context {R : Type}.
Variable function : list Z -> R.
Variable code : CPython.codeobj.

Abbreviation compile_native' := (compile_native PRE36 opname_table PAGESIZE).
Abbreviation frontend' :=
  (frontend PRE36 opname_table PAGESIZE function code).
Abbreviation calls' := (calls PRE36 opname_table PAGESIZE function code).
Abbreviation settled' := (settled PRE36 opname_table PAGESIZE code).
Abbreviation compile_events' :=
  (compile_events PRE36 opname_table PAGESIZE code).
Abbreviation call_event' := (call_event function).
Abbreviation call_value' := (call_value function).

Lemma frontend_unset inv :
  frontend' None inv =
  (Some settled', compile_events' ++ [call_event' settled' inv],
   call_value' settled' inv).
Proof.
  unfold frontend, settled', compile_events', call_event', call_value'.
  destruct (compile_native' code); reflexivity.
Qed.

Lemma frontend_set fn inv :
  frontend' (Some fn) inv =
  (Some fn, [call_event' fn inv], call_value' fn inv).
Proof.
  unfold frontend, call_event', call_value'.
  destruct fn; reflexivity.
Qed.

Lemma calls_set fn invs :
  calls' (Some fn) invs =
  (Some fn, map (call_event' fn) invs, map (call_value' fn) invs).
Proof.
  induction invs as [|inv rest IH]; simpl; [reflexivity|].
  rewrite frontend_set, IH. reflexivity.
Qed.

Lemma calls_unset inv rest :
  calls' None (inv :: rest) =
  (Some settled',
   compile_events' ++ map (call_event' settled') (inv :: rest),
   map (call_value' settled') (inv :: rest)).
Proof.
  simpl. rewrite frontend_unset, calls_set.
  rewrite <- app_assoc. reflexivity.
Qed.


Lemma call_event_is_call fn invs :
  filter (fun ev => negb (is_compile ev)) (map (call_event' fn) invs) =
  map (call_event' fn) invs.
Proof.
  induction invs as [|inv rest IH]; simpl; [reflexivity|].
  rewrite IH. destruct fn; reflexivity.
Qed.


Abbreviation start :=
  (Compiler.mk (CPython.co_code code) (CPython.co_consts code) 0).

Lemma compile_native_raises e :
  Compiler.compile PRE36 opname_table start = Raise e ->
  compile_native' code = Raise e.
Proof. unfold compile_native. intros H. rewrite H. reflexivity. Qed.

Lemma calls_fallback e inv rest :
  compile_native' code = Raise e ->
  calls' None (inv :: rest) =
  (Some Python,
   [EvCompile; EvDiagnostic e] ++ map (fun _ => EvCallPython) (inv :: rest),
   map (fun i => FromPython (function (args i))) (inv :: rest)).
Proof.
  intros H. rewrite calls_unset.
  unfold settled', compile_events', call_event', call_value'. rewrite H.
  reflexivity.
Qed.

(** C7. If, reading the bytecode instruction after instruction, the
    decoder arrives at an opcode whose name is not one of the ten
    [Compiler.compile] knows, then [Compiler.compile] raises, so that
    [compile_native] raises before it has created an assembler; the first
    call of the wrapper stores the Python function, and that call and all
    later ones return what the Python function returns. *)
Theorem C7_unsupported_opcode_falls_back
  (self' : Compiler.t) (opcode : Z) :
  at_instruction PRE36 opname_table start self' ->
  opcode_at self' = Some opcode ->
  supported (opname_table opcode) = false ->
  exists e,
    Compiler.compile PRE36 opname_table start = Raise e /\
    compile_native' code = Raise e /\
    forall inv rest,
      calls' None (inv :: rest) =
      (Some Python,
       [EvCompile; EvDiagnostic e]
         ++ map (fun _ => EvCallPython) (inv :: rest),
       map (fun i => FromPython (function (args i))) (inv :: rest)).
Proof.
  intros Hat Hop Hun.
  destruct (compile_raises PRE36 opname_table start self' Hat) as [e He].
  - apply Nat.ltb_lt. eapply opcode_at_lt. exact Hop.
  - intros op arg self2 Hd.
    destruct (decode_opname _ _ _ _ _ _ Hd) as (opcode' & Ho & ->).
    assert (opcode' = opcode) by congruence. subst opcode'.
    rewrite template_unsupported by assumption. eauto.
  - exists e. split; [exact He|].
    pose proof (compile_native_raises e He) as Hn.
    split; [exact Hn|]. intros inv rest. apply calls_fallback, Hn.
Qed.

(** C9, as the code has it.  Nothing looks at the argument count; what
    fails is the use of a local slot numbered 4 or more.  If the decoder
    arrives at a [LOAD_FAST] or [STORE_FAST] whose slot is 4 or more,
    [Compiler.compile] raises, [compile_native] raises, and the wrapper
    falls back to the Python function for good. *)
Theorem C9_slot_beyond_registers_falls_back
  (self' self2 : Compiler.t) (op : String.string) (n : Z) :
  at_instruction PRE36 opname_table start self' ->
  Compiler.decode PRE36 opname_table self' = Ok (op, Some n, self2) ->
  op = "LOAD_FAST"%string \/ op = "STORE_FAST"%string ->
  4 <= n ->
  exists e,
    compile_native' code = Raise e /\
    forall inv rest,
      calls' None (inv :: rest) =
      (Some Python,
       [EvCompile; EvDiagnostic e]
         ++ map (fun _ => EvCallPython) (inv :: rest),
       map (fun i => FromPython (function (args i))) (inv :: rest)).
Proof.
  intros Hat Hd Hop Hn.
  destruct (compile_raises PRE36 opname_table start self' Hat) as [e He].
  - destruct (decode_opname _ _ _ _ _ _ Hd) as (opcode & Ho & _).
    apply Nat.ltb_lt. eapply opcode_at_lt. exact Ho.
  - intros op' arg' self3 Hd'. rewrite Hd in Hd'.
    inversion Hd'; subst op' arg' self3.
    exists IndexError.
    assert (V : Compiler.variable (Some n) = Raise IndexError).
    { unfold Compiler.variable, getitem.
      destruct (nth_error _ _) eqn:E; [|reflexivity].
      assert (L : (Z.to_nat n < 4)%nat)
        by (apply (nth_error_Some [rdi; rsi; rdx; rcx]); congruence).
      lia. }
    unfold Compiler.template.
    destruct Hop as [-> | ->];
      repeat match goal with
        | |- context [String.eqb ?a ?b] =>
            let v := eval vm_compute in (String.eqb a b) in
            change (String.eqb a b) with v; cbv iota
        end; rewrite V; reflexivity.
  - exists e. pose proof (compile_native_raises e He) as Hc.
    split; [exact Hc|]. intros inv rest. apply calls_fallback, Hc.
Qed.

End JitFacts.

(** ** Evaluations *)

Lemma signed64_wrap a :
  - 2 ^ 63 <= a < 2 ^ 63 -> X86.signed64 (X86.wrap64 a) = a.
Proof.
  intros H. unfold X86.signed64, X86.wrap64.
  rewrite Z.mod_mod by lia.
  destruct (a mod 2 ^ 64 <? 2 ^ 63) eqn:E;
    [apply Z.ltb_lt in E | apply Z.ltb_ge in E];
    change (2 ^ 64) with 18446744073709551616 in *;
    change (2 ^ 63) with 9223372036854775808 in *;
    Z.div_mod_to_equations; lia.
Qed.

Lemma wrap64_idem a : X86.wrap64 (X86.wrap64 a) = X86.wrap64 a.
Proof. unfold X86.wrap64. apply Z.mod_mod. lia. Qed.

Lemma run_S fuel code st :
  X86.run (S fuel) code st =
  match X86.decode code with
  | None => None
  | Some (X86.RET, _) =>
      match X86.stack st with
      | [] => Some (X86.signed64 (X86.regs st rax))
      | _ :: _ => None
      end
  | Some (i, rest) =>
      match X86.step i st with
      | Some st' => X86.run fuel rest st'
      | None => None
      end
  end.
Proof. reflexivity. Qed.

(** One instruction of a concrete block on a symbolic state. *)
Ltac x86_step :=
  rewrite run_S;
  match goal with
  | |- context [X86.decode ?c] =>
      let v := eval vm_compute in (X86.decode c) in
      change (X86.decode c) with v
  end;
  cbv beta iota;
  cbn [X86.step X86.writes_rsp reg_eqb X86.regs X86.stack X86.set_reg
       X86.load_args].

Ltac x86_fuel :=
  match goal with
  | |- context [X86.run (S (length ?c))] =>
      let n := eval vm_compute in (length c) in
      change (length c) with n
  end.

(** The block of [store_then_load]: the four bytes of [mov rax, rdi; ret],
    which return the word that arrives in [rdi], read as a signed 64-bit
    number, whatever the other registers hold. *)
Lemma store_then_load_block (caller : X86.regfile) (w : Z) :
  match compile_native false CPython.opname 4096 store_then_load with
  | Ok assembler =>
      Assembler.raw assembler = [0x48; 0x89; 0xf8; 0xc3] /\
      native_call assembler caller [w] = Some (X86.signed64 w)
  | Raise _ => False
  end.
Proof.
  destruct (compile_native _ _ _ _) as [assembler|e] eqn:E;
    vm_compute in E; [|discriminate].
  injection E as <-.
  split; [reflexivity|].
  unfold native_call, X86.call. cbn [Assembler.block].
  x86_fuel. x86_step. x86_step.
  unfold X86.signed64. rewrite !wrap64_idem. reflexivity.
Qed.

(** C6, where the code departs from it.  For [store_then_load] the builder
    yields six instructions and the loop of [compile_native] leaves a
    single register-to-register move followed by the return, as the claim
    says.  But the foreign function [compile_native] returns declares no
    argument type for a routine of one argument, so the argument travels
    as a C [int]: called with 2^32 + 4 it returns 4, and called with -2^63
    it returns 0, where the interpreted routine returns its argument. *)
Theorem C6_store_then_load_truncates (caller : X86.regfile) :
  match
    Compiler.compile false CPython.opname
      (Compiler.mk (CPython.co_code store_then_load)
                   (CPython.co_consts store_then_load) 0)
  with
  | Ok ir =>
      length ir = 6%nat /\
      optimize_loop ir = [(Omov, Reg rax, Reg rdi); (Oret, ONone, ONone)]
  | Raise _ => False
  end /\
  signature (CPython.co_argcount store_then_load)
    = CFUNCTYPE (Some c_int64) [] /\
  match compile_native false CPython.opname 4096 store_then_load with
  | Ok assembler =>
      Assembler.raw assembler = [0x48; 0x89; 0xf8; 0xc3] /\
      (CPython.call store_then_load [2 ^ 32 + 4] = Some (2 ^ 32 + 4) /\
       entry_call (CPython.co_argcount store_then_load) assembler caller
                  [2 ^ 32 + 4] = Returned 4) /\
      (CPython.call store_then_load [- 2 ^ 63] = Some (- 2 ^ 63) /\
       entry_call (CPython.co_argcount store_then_load) assembler caller
                  [- 2 ^ 63] = Returned 0)
  | Raise _ => False
  end.
Proof.
  split; [vm_compute; split; reflexivity|].
  split; [reflexivity|].
  pose proof (store_then_load_block caller 4) as H4.
  pose proof (store_then_load_block caller 0) as H0.
  destruct (compile_native _ _ _ _) as [assembler|e]; [|exact H4].
  destruct H4 as [Hraw H4]. destruct H0 as [_ H0].
  split; [exact Hraw|].
  split; (split; [reflexivity|]).
  - unfold entry_call.
    change (marshal (argtypes (signature (CPython.co_argcount store_then_load)))
                    [2 ^ 32 + 4])
      with (@inr returned (list Z) [4]).
    cbv beta iota. rewrite H4. reflexivity.
  - unfold entry_call.
    change (marshal (argtypes (signature (CPython.co_argcount store_then_load)))
                    [- 2 ^ 63])
      with (@inr returned (list Z) [0]).
    cbv beta iota. rewrite H0. reflexivity.
Qed.

Lemma C7_unsupported_opcode_falls_back_witness :
  exists e,
    Compiler.compile false CPython.opname
      (Compiler.mk (CPython.co_code modulo) (CPython.co_consts modulo) 0)
      = Raise e /\
    compile_native false CPython.opname 4096 modulo = Raise e /\
    forall inv rest,
      calls false CPython.opname 4096 (CPython.call modulo) modulo None
            (inv :: rest) =
      (Some Python,
       [EvCompile; EvDiagnostic e] ++ map (fun _ => EvCallPython) (inv :: rest),
       map (fun i => FromPython (CPython.call modulo (args i))) (inv :: rest)).
Proof.
  apply (C7_unsupported_opcode_falls_back false CPython.opname 4096
           (CPython.call modulo) modulo
           (Compiler.mk (CPython.co_code modulo) (CPython.co_consts modulo) 4)
           22).
  - eapply at_next; [reflexivity|].
    eapply at_next; [reflexivity|]. apply at_start.
  - reflexivity.
  - reflexivity.
Defined.

(** C9 as stated does not hold: a routine with five arguments that reads
    only the first one is compiled. *)
Lemma C9_five_arguments_compile :
  ~ (forall code : CPython.codeobj,
        (4 < CPython.co_argcount code)%nat ->
        exists e, compile_native false CPython.opname 4096 code = Raise e).
Proof.
  intros H. destruct (H first_of_five) as [e He]; [simpl; lia|].
  vm_compute in He. discriminate He.
Qed.

Lemma C9_slot_beyond_registers_falls_back_witness :
  exists e,
    compile_native false CPython.opname 4096 fifth_of_five = Raise e /\
    forall inv rest,
      calls false CPython.opname 4096 (CPython.call fifth_of_five)
            fifth_of_five None (inv :: rest) =
      (Some Python,
       [EvCompile; EvDiagnostic e] ++ map (fun _ => EvCallPython) (inv :: rest),
       map (fun i => FromPython (CPython.call fifth_of_five (args i)))
           (inv :: rest)).
Proof.
  apply (C9_slot_beyond_registers_falls_back false CPython.opname 4096
           (CPython.call fifth_of_five) fifth_of_five
           (Compiler.mk (CPython.co_code fifth_of_five)
                        (CPython.co_consts fifth_of_five) 0)
           (Compiler.mk (CPython.co_code fifth_of_five)
                        (CPython.co_consts fifth_of_five) 2)
           "LOAD_FAST"%string 4).
  - apply at_start.
  - reflexivity.
  - left. reflexivity.
  - lia.
Defined.

(** C1, where the code departs from it.  Three routines made of supported
    opcodes only, with at most two arguments: the native entry of the first
    returns 0 where the interpreter returns 1024; the native entry of the
    second returns 6 on (1, 5) where the interpreter returns 2; the third
    has no native entry, its compilation raises. *)
Theorem C1_native_differs_from_interpreter (caller : X86.regfile) :
  (CPython.call return_1024 [] = Some 1024 /\
   native_result return_1024 caller [] = Ok (Some 0)) /\
  (CPython.call assign_then_double [1; 5] = Some 2 /\
   native_result assign_then_double caller [1; 5] = Ok (Some 6)) /\
  (CPython.call negate [5] = Some (-5) /\
   native_result negate caller [5] = Raise AttributeError).
Proof.
  repeat split; vm_compute; reflexivity.
Qed.

(** C2, where the code departs from it.  For the constant 1024 the
    immediate-load emitter writes eight zero bytes where the instruction
    set has [00 04 00 00 00 00 00 00]; for -1 it writes [ff 03 00 ...]
    where the instruction set has eight [ff]; the negation emitter raises
    whatever its operands. *)
Theorem C2_immediate_and_neg_emitters :
  (Assembler.little_endian 1024 = [0; 0; 0; 0; 0; 0; 0; 0] /\
   X86.encode (X86.MOVABS rax 1024) = [0x48; 0xb8; 0; 4; 0; 0; 0; 0; 0; 0] /\
   exists assembler,
     Assembler.immediate (Assembler.init 4096) (Reg rax) (Imm 1024)
       = Ok assembler /\
     Assembler.raw assembler = [0x48; 0xb8; 0; 0; 0; 0; 0; 0; 0; 0]) /\
  (Assembler.little_endian (-1) = [255; 3; 0; 0; 0; 0; 0; 0] /\
   X86.imm64 (-1) = [255; 255; 255; 255; 255; 255; 255; 255]) /\
  (forall self a b, Assembler.neg self a b = Raise AttributeError) /\
  X86.encode (X86.NEG rax) = [0x48; 0xf7; 0xd8].
Proof.
  repeat split; try reflexivity.
  eexists. split; vm_compute; reflexivity.
Qed.

(** C3, where the code departs from it.  [chain_ir] is what two passes make
    of the IR of [assign_then_double]; the third pass rewrites its first
    two moves into one, which leaves [rsi] unwritten while the next
    instruction reads it: assembled, the list before the pass returns 2 on
    (1, 5), the list after the pass returns 6. *)
Theorem C3_move_chain_changes_result (caller : X86.regfile) :
  Compiler.compile false CPython.opname
    (Compiler.mk (CPython.co_code assign_then_double)
                 (CPython.co_consts assign_then_double) 0)
  = Ok [(Opush, Reg rdi, ONone); (Opop, Reg rax, ONone);
        (Omov, Reg rsi, Reg rax); (Opush, Reg rsi, ONone);
        (Opush, Reg rsi, ONone); (Opop, Reg rax, ONone);
        (Opop, Reg rbx, ONone); (Oadd, Reg rax, Reg rbx);
        (Opush, Reg rax, ONone); (Opop, Reg rax, ONone);
        (Oret, ONone, ONone)] /\
  optimize (optimize
    [(Opush, Reg rdi, ONone); (Opop, Reg rax, ONone);
     (Omov, Reg rsi, Reg rax); (Opush, Reg rsi, ONone);
     (Opush, Reg rsi, ONone); (Opop, Reg rax, ONone);
     (Opop, Reg rbx, ONone); (Oadd, Reg rax, Reg rbx);
     (Opush, Reg rax, ONone); (Opop, Reg rax, ONone);
     (Oret, ONone, ONone)]) = chain_ir /\
  optimize chain_ir =
    [(Omov, Reg rbx, Reg rdi); (Omov, Reg rax, Reg rsi);
     (Oadd, Reg rax, Reg rbx); (Oret, ONone, ONone)] /\
  assembled_call 4096 chain_ir caller [1; 5] = Ok (Some 2) /\
  assembled_call 4096 (optimize chain_ir) caller [1; 5] = Ok (Some 6).
Proof.
  repeat split; vm_compute; reflexivity.
Qed.

(** C4 as stated does not hold: the in-between instruction may read the
    register that is popped.  In [window_ir] the instruction between
    [push rdi] and [pop rsi] is a move whose destination, [rax], differs
    from [rsi], but which reads [rsi].  The pass rewrites the window;
    assembled, the list before the pass returns 2 on (1, 2), the list after
    the pass returns 1. *)
Lemma C4_window_changes_result :
  optimize window_ir =
    [(Omov, Reg rsi, Reg rdi); (Omov, Reg rax, Reg rsi);
     (Oret, ONone, ONone)] /\
  ~ (forall (pre post : list instr) (X b1 Y b3 : operand) (op : irop)
            (a2 b2 : operand) (caller : X86.regfile) (args : list Z) (v : Z),
        push_or_pop op = false -> a2 <> Y ->
        assembled_call 4096
          (pre ++ (Opush, X, b1) :: (op, a2, b2) :: (Opop, Y, b3) :: post)
          caller args = Ok (Some v) ->
        assembled_call 4096
          (pre ++ (Omov, Y, X) :: (op, a2, b2) :: post)
          caller args = Ok (Some v)).
Proof.
  split; [reflexivity|]. intros H.
  specialize (H [] [(Oret, ONone, ONone)] (Reg rdi) ONone (Reg rsi) ONone
                Omov (Reg rax) (Reg rsi) (fun _ => 0) [1; 2] 2).
  assert (E : assembled_call 4096
                ([] ++ [(Omov, Reg rsi, Reg rdi); (Omov, Reg rax, Reg rsi);
                        (Oret, ONone, ONone)]) (fun _ => 0) [1; 2]
              = Ok (Some 2)).
  { apply H; [reflexivity|discriminate|vm_compute; reflexivity]. }
  vm_compute in E. discriminate E.
Qed.

(** * Further properties *)

(** ** The assembler, byte by byte *)

Lemma getattr_encoding name a b self :
  Assembler.getattr name self a b =
  (bs <- encoding (name, a, b) ;; Assembler.emit self bs).
Proof.
  destruct name; simpl; unfold Assembler.ret, Assembler.push, Assembler.pop,
    Assembler.imul, Assembler.add, Assembler.sub, Assembler.mov,
    Assembler.neg, Assembler.immediate; try reflexivity;
    match goal with
    | |- context [Assembler.registers ?x ?y] =>
        destruct (Assembler.registers x y); simpl; try reflexivity
    end.
  destruct b; reflexivity.
Qed.

Lemma list_set_length {A} (l : list A) i v :
  length (list_set l i v) = length l.
Proof.
  revert i; induction l as [|h t IH]; intros [|i]; simpl; auto.
Qed.

Lemma list_set_split {A} (l : list A) i v :
  (i < length l)%nat ->
  list_set l i v = firstn i l ++ v :: skipn (S i) l.
Proof.
  revert i; induction l as [|h t IH]; intros [|i] H; simpl in *; try lia.
  - reflexivity.
  - rewrite IH by lia. reflexivity.
Qed.

(** What a successful [emit] leaves: the bytes written at the cursor, the
    rest of the block untouched, the cursor moved past them. *)
Lemma emit_spec bs : forall self self',
  Assembler.emit self bs = Ok self' ->
  (Assembler.index self <= length (Assembler.block self))%nat ->
  Assembler.block self' =
    firstn (Assembler.index self) (Assembler.block self) ++ bs
    ++ skipn (Assembler.index self + length bs) (Assembler.block self) /\
  Assembler.index self' = (Assembler.index self + length bs)%nat /\
  (Assembler.index self' <= length (Assembler.block self'))%nat /\
  length (Assembler.block self') = length (Assembler.block self).
Proof.
  induction bs as [|b bs IH]; intros self self' H Hi; simpl in H.
  - inversion H; subst self'. rewrite Nat.add_0_r. simpl.
    rewrite firstn_skipn. repeat split; auto.
  - destruct (Assembler.index self <? length (Assembler.block self))%nat
      eqn:Hlt; [|discriminate].
    apply Nat.ltb_lt in Hlt.
    apply IH in H;
      [|cbn [Assembler.block Assembler.index]; rewrite list_set_length; lia].
    cbn [Assembler.block Assembler.index] in H.
    destruct H as (Hb & Hx & Hle & Hlen).
    rewrite list_set_length in *.
    repeat split; cbn [length]; try lia.
    rewrite Hb, list_set_split by lia.
    set (blk := Assembler.block self) in *.
    set (i := Assembler.index self) in *.
    replace (firstn (S i) (firstn i blk ++ b :: skipn (S i) blk))
      with (firstn i blk ++ [b]).
    2:{ rewrite firstn_app, firstn_firstn, length_firstn.
        replace (Nat.min (S i) i) with i by lia.
        replace (S i - Nat.min i (length blk))%nat with 1%nat by lia.
        reflexivity. }
    replace (skipn (S i + length bs) (firstn i blk ++ b :: skipn (S i) blk))
      with (skipn (i + S (length bs)) blk).
    2:{ rewrite skipn_app, length_firstn.
        replace (Nat.min i (length blk)) with i by lia.
        rewrite (skipn_all2 (firstn i blk)) by (rewrite length_firstn; lia).
        replace (S i + length bs - i)%nat with (S (length bs)) by lia.
        rewrite app_nil_l. change (skipn (S (length bs)) (b :: skipn (S i) blk))
          with (skipn (length bs) (skipn (S i) blk)).
        rewrite skipn_skipn. f_equal. lia. }
    rewrite <- app_assoc. reflexivity.
Qed.

Lemma emit_fits bs : forall self,
  (Assembler.index self + length bs <= length (Assembler.block self))%nat ->
  exists self', Assembler.emit self bs = Ok self'.
Proof.
  induction bs as [|b bs IH]; intros self H; simpl in *; [eauto|].
  destruct (Assembler.index self <? length (Assembler.block self))%nat
    eqn:Hlt; [|apply Nat.ltb_ge in Hlt; lia].
  apply IH. simpl. rewrite list_set_length. lia.
Qed.

Lemma bind_ok {A B} (m : result A) (k : A -> result B) b :
  bind m k = Ok b -> exists a, m = Ok a /\ k a = Ok b.
Proof. destruct m; simpl; [eauto|discriminate]. Qed.

(** What a successful [assemble] leaves. *)
Lemma assemble_spec ir : forall self self',
  assemble self ir = Ok self' ->
  (Assembler.index self <= length (Assembler.block self))%nat ->
  exists bs,
    code_of ir = Ok bs /\
    Assembler.block self' =
      firstn (Assembler.index self) (Assembler.block self) ++ bs
      ++ skipn (Assembler.index self + length bs) (Assembler.block self) /\
    Assembler.index self' = (Assembler.index self + length bs)%nat /\
    length (Assembler.block self') = length (Assembler.block self).
Proof.
  induction ir as [|[[name a] b] rest IH]; intros self self' H Hi.
  - simpl in H. inversion H; subst self'. exists []. simpl.
    rewrite Nat.add_0_r, firstn_skipn. auto.
  - cbn [assemble] in H. apply bind_ok in H. destruct H as (self1 & H1 & H2).
    rewrite getattr_encoding in H1. apply bind_ok in H1.
    destruct H1 as (bs & He & Hem).
    apply emit_spec in Hem; [|exact Hi].
    destruct Hem as (Hb1 & Hx1 & Hle1 & Hlen1).
    apply IH in H2; [|exact Hle1].
    destruct H2 as (cs & Hc & Hb2 & Hx2 & Hlen2).
    exists (bs ++ cs). cbn [code_of]. rewrite He, Hc. simpl.
    split; [reflexivity|]. rewrite length_app.
    repeat split; try lia.
    rewrite Hb2, Hx1, Hb1.
    set (blk := Assembler.block self) in *.
    set (i := Assembler.index self) in *.
    assert (Li : length (firstn i blk) = i) by (rewrite length_firstn; lia).
    assert (Hfit : (i + length bs <= length blk)%nat) by lia.
    rewrite firstn_app, Li.
    rewrite (firstn_all2 (firstn i blk)) by lia.
    replace (i + length bs - i)%nat with (length bs) by lia.
    rewrite firstn_app, firstn_all, Nat.sub_diag, firstn_O, app_nil_r.
    rewrite skipn_app, Li.
    rewrite (skipn_all2 (firstn i blk)) by lia.
    replace (i + length bs + length cs - i)%nat
      with (length bs + length cs)%nat by lia.
    rewrite skipn_app.
    rewrite (skipn_all2 bs) by lia.
    replace (length bs + length cs - length bs)%nat with (length cs) by lia.
    rewrite skipn_skipn.
    replace (length cs + (i + length bs))%nat
      with (i + (length bs + length cs))%nat by lia.
    simpl. rewrite <- !app_assoc. reflexivity.
Qed.

Lemma emit_overflow bs : forall self,
  (Assembler.index self <= length (Assembler.block self))%nat ->
  (length (Assembler.block self) < Assembler.index self + length bs)%nat ->
  Assembler.emit self bs = Raise IndexError.
Proof.
  induction bs as [|b bs IH]; intros self Hi H; cbn [length] in H.
  - lia.
  - cbn [Assembler.emit].
    destruct (Assembler.index self <? length (Assembler.block self))%nat
      eqn:Hlt; [|reflexivity].
    apply Nat.ltb_lt in Hlt.
    apply IH; cbn [Assembler.block Assembler.index];
      rewrite list_set_length; lia.
Qed.

Lemma emit_appends self bs :
  (Assembler.index self + length bs <= length (Assembler.block self))%nat ->
  exists self',
    Assembler.emit self bs = Ok self' /\
    Assembler.raw self' = Assembler.raw self ++ bs /\
    Assembler.index self' = (Assembler.index self + length bs)%nat /\
    skipn (Assembler.index self') (Assembler.block self') =
      skipn (Assembler.index self') (Assembler.block self) /\
    length (Assembler.block self') = length (Assembler.block self).
Proof.
  intros H. destruct (emit_fits bs self H) as [self' He].
  exists self'. split; [exact He|].
  apply emit_spec in He; [|lia].
  destruct He as (Hb & Hx & _ & Hlen).
  set (blk := Assembler.block self) in *.
  set (i := Assembler.index self) in *.
  assert (Li : length (firstn i blk) = i) by (rewrite length_firstn; lia).
  unfold Assembler.raw. fold blk i. rewrite Hx, Hb.
  repeat split; try assumption.
  - rewrite app_assoc, firstn_app, length_app, Li, Nat.sub_diag, firstn_O,
      app_nil_r.
    apply firstn_all2. rewrite length_app, Li. lia.
  - rewrite app_assoc, skipn_app, length_app, Li, Nat.sub_diag.
    rewrite skipn_all2 by (rewrite length_app, Li; lia).
    reflexivity.
  - rewrite <- Hb. exact Hlen.
Qed.

(** X1. [emit] either writes all its bytes or raises.  On an assembler
    whose cursor is inside its block, and for bytes (values from 0 to 255,
    the only ones the block can hold): with room for them it appends them
    to [raw], moves the cursor past them and leaves the bytes beyond the
    cursor and the size of the block as they were; without room it raises
    [IndexError]. *)
Theorem emit_appends_or_overflows (self : Assembler.t) (bs : list Z) :
  Forall (fun b => 0 <= b < 256) bs ->
  (Assembler.index self <= length (Assembler.block self))%nat ->
  if (Assembler.index self + length bs <=? length (Assembler.block self))%nat
  then
    exists self',
      Assembler.emit self bs = Ok self' /\
      Assembler.raw self' = Assembler.raw self ++ bs /\
      Assembler.index self' = (Assembler.index self + length bs)%nat /\
      skipn (Assembler.index self') (Assembler.block self') =
        skipn (Assembler.index self') (Assembler.block self) /\
      length (Assembler.block self') = length (Assembler.block self)
  else Assembler.emit self bs = Raise IndexError.
Proof.
  intros _ Hi. destruct (_ <=? _)%nat eqn:E.
  - apply Nat.leb_le in E. apply emit_appends. exact E.
  - apply Nat.leb_gt in E. apply emit_overflow; assumption.
Qed.

Lemma emit_appends_or_overflows_witness :
  Assembler.emit (Assembler.mk [0; 0; 0] 2 3) [0x50; 0x58] = Raise IndexError.
Proof.
  apply (emit_appends_or_overflows (Assembler.mk [0; 0; 0] 2 3) [0x50; 0x58]).
  - repeat constructor; lia.
  - simpl. lia.
Defined.

Lemma getattr_appends name a b self bs :
  encoding (name, a, b) = Ok bs ->
  (Assembler.index self + length bs <= length (Assembler.block self))%nat ->
  appends self (Assembler.getattr name self a b) bs.
Proof.
  intros He Hfit. rewrite getattr_encoding, He. simpl.
  destruct (emit_appends self bs Hfit) as (self' & H1 & H2 & H3 & _).
  exists self'. auto.
Qed.

Lemma encoding_reference (a b : reg) :
  encoding (Omov, Reg a, Reg b) = Ok (X86.encode (X86.MOV a b)) /\
  encoding (Oadd, Reg a, Reg b) = Ok (X86.encode (X86.ADD a b)) /\
  encoding (Osub, Reg a, Reg b) = Ok (X86.encode (X86.SUB a b)) /\
  encoding (Oimul, Reg a, Reg b) = Ok (X86.encode (X86.IMUL a b)) /\
  encoding (Opush, Reg a, ONone) = Ok (X86.encode (X86.PUSH a)) /\
  encoding (Opop, Reg a, ONone) = Ok (X86.encode (X86.POP a)) /\
  encoding (Oret, ONone, ONone) = Ok (X86.encode X86.RET).
Proof. destruct a, b; repeat split; reflexivity. Qed.

(** X2. On an assembler with four free bytes, the emitters for the
    register-to-register move, add, subtract, signed multiply, push, pop and
    return append exactly the bytes the instruction set defines for the
    64-bit register form, for every choice of registers. *)
Theorem emitters_match_reference (self : Assembler.t) (a b : reg) :
  (Assembler.index self + 4 <= length (Assembler.block self))%nat ->
  appends self (Assembler.mov self (Reg a) (Reg b))
          (X86.encode (X86.MOV a b)) /\
  appends self (Assembler.add self (Reg a) (Reg b))
          (X86.encode (X86.ADD a b)) /\
  appends self (Assembler.sub self (Reg a) (Reg b))
          (X86.encode (X86.SUB a b)) /\
  appends self (Assembler.imul self (Reg a) (Reg b))
          (X86.encode (X86.IMUL a b)) /\
  appends self (Assembler.push self (Reg a) ONone)
          (X86.encode (X86.PUSH a)) /\
  appends self (Assembler.pop self (Reg a) ONone)
          (X86.encode (X86.POP a)) /\
  appends self (Assembler.ret self ONone ONone) (X86.encode X86.RET).
Proof.
  intros Hroom.
  destruct (encoding_reference a b) as (E1 & E2 & E3 & E4 & E5 & E6 & E7).
  repeat split.
  - apply (getattr_appends Omov); [exact E1|simpl; lia].
  - apply (getattr_appends Oadd); [exact E2|simpl; lia].
  - apply (getattr_appends Osub); [exact E3|simpl; lia].
  - apply (getattr_appends Oimul); [exact E4|simpl; lia].
  - apply (getattr_appends Opush); [exact E5|simpl; lia].
  - apply (getattr_appends Opop); [exact E6|simpl; lia].
  - apply (getattr_appends Oret); [exact E7|simpl; lia].
Qed.

Lemma emitters_match_reference_witness :
  appends (Assembler.init 4096)
          (Assembler.mov (Assembler.init 4096) (Reg rax) (Reg rdi))
          [0x48; 0x89; 0xf8].
Proof.
  apply (emitters_match_reference (Assembler.init 4096) rax rdi).
  simpl. lia.
Defined.

(** ** [little_endian] *)

Lemma land_shiftr_zero n m s :
  0 <= s -> 0 < m < 2 ^ s -> Z.shiftr (Z.land n m) s = 0.
Proof.
  intros Hs Hm. apply Z.bits_inj'. intros j Hj.
  assert (L : Z.log2 m < s) by (apply Z.log2_lt_pow2; lia).
  rewrite Z.shiftr_spec, Z.land_spec, Z.bits_0 by lia.
  rewrite (Z.bits_above_log2 m) by lia.
  apply andb_false_r.
Qed.

(** The bytes [little_endian] really computes: the low byte, bits 8 and 9,
    and six zeros. *)
Lemma little_endian_bytes n :
  Assembler.little_endian n =
  [Z.land n 255; Z.shiftr (Z.land n 1020) 8; 0; 0; 0; 0; 0; 0] /\
  0 <= Z.shiftr (Z.land n 1020) 8 <= 3.
Proof.
  split.
  - unfold Assembler.little_endian. cbn [map].
    change (Z.shiftl 255 (0 * 2)) with 255.
    change (Z.shiftl 255 (1 * 2)) with 1020.
    change (0 * 8) with 0. change (1 * 8) with 8.
    rewrite Z.shiftr_0_r.
    rewrite (land_shiftr_zero n (Z.shiftl 255 (2 * 2)) (2 * 8)),
      (land_shiftr_zero n (Z.shiftl 255 (3 * 2)) (3 * 8)),
      (land_shiftr_zero n (Z.shiftl 255 (4 * 2)) (4 * 8)),
      (land_shiftr_zero n (Z.shiftl 255 (5 * 2)) (5 * 8)),
      (land_shiftr_zero n (Z.shiftl 255 (6 * 2)) (6 * 8)),
      (land_shiftr_zero n (Z.shiftl 255 (7 * 2)) (7 * 8))
      by (vm_compute; intuition congruence).
    reflexivity.
  - assert (H0 : 0 <= Z.land n 1020) by (apply Z.land_nonneg; lia).
    assert (H1 : Z.shiftr (Z.land n 1020) 10 = 0)
      by (apply land_shiftr_zero; vm_compute; intuition congruence).
    rewrite Z.shiftr_div_pow2 in * by lia.
    change (2 ^ 10) with 1024 in H1. change (2 ^ 8) with 256.
    Z.div_mod_to_equations. lia.
Qed.

Lemma imm64_value n : X86.le_value (X86.imm64 n) = n mod 2 ^ 64.
Proof.
  unfold X86.imm64, X86.le_value. cbn [map fold_right].
  change (8 * 0) with 0. change (8 * 1) with 8. change (8 * 2) with 16.
  change (8 * 3) with 24. change (8 * 4) with 32. change (8 * 5) with 40.
  change (8 * 6) with 48. change (8 * 7) with 56.
  change (2 ^ 0) with 1. change (2 ^ 8) with 256.
  change (2 ^ 16) with 65536. change (2 ^ 24) with 16777216.
  change (2 ^ 32) with 4294967296. change (2 ^ 40) with 1099511627776.
  change (2 ^ 48) with 281474976710656.
  change (2 ^ 56) with 72057594037927936.
  change (2 ^ 64) with 18446744073709551616.
  Z.div_mod_to_equations. lia.
Qed.

Lemma little_endian_small_table :
  forallb (fun k => bytes_eqb (Assembler.little_endian (Z.of_nat k))
                              (X86.imm64 (Z.of_nat k)))
          (seq 0 1024) = true.
Proof. vm_compute. reflexivity. Qed.

Lemma little_endian_small n :
  0 <= n < 1024 -> Assembler.little_endian n = X86.imm64 n.
Proof.
  intros H.
  pose proof (proj1 (forallb_forall _ _) little_endian_small_table
                (Z.to_nat n)) as T.
  cbv beta in T. rewrite Z2Nat.id in T by lia.
  unfold bytes_eqb in T.
  destruct (list_eq_dec Z.eq_dec _ _) as [E|]; [exact E|].
  assert (false = true); [|discriminate].
  apply T. apply in_seq. lia.
Qed.

(** X3. For a signed 64-bit constant, [little_endian] returns the eight
    little-endian bytes of the constant exactly when the constant lies
    between 0 and 1023. *)
Theorem little_endian_correct_iff (n : Z) :
  - 2 ^ 63 <= n < 2 ^ 63 ->
  (Assembler.little_endian n = X86.imm64 n <-> 0 <= n < 1024).
Proof.
  intros Hn. split; [|apply little_endian_small].
  intros E.
  pose proof (imm64_value n) as V. rewrite <- E in V.
  destruct (little_endian_bytes n) as (B & Hb1). rewrite B in V.
  assert (H0 : 0 <= Z.land n 255 < 256).
  { change 255 with (Z.ones 8). rewrite Z.land_ones by lia.
    apply Z.mod_pos_bound. reflexivity. }
  unfold X86.le_value in V. cbn [fold_right] in V.
  change (2 ^ 64) with 18446744073709551616 in V.
  change (2 ^ 63) with 9223372036854775808 in Hn.
  Z.div_mod_to_equations. lia.
Qed.

Lemma little_endian_correct_iff_witness :
  Assembler.little_endian 1023 = X86.imm64 1023 <-> 0 <= 1023 < 1024.
Proof.
  apply (little_endian_correct_iff 1023). lia.
Defined.

Lemma little_endian_value n :
  X86.le_value (Assembler.little_endian n) = n mod 1024.
Proof.
  destruct (little_endian_bytes n) as (B & _). rewrite B.
  unfold X86.le_value. cbn [fold_right].
  rewrite Z.shiftr_land. change (Z.shiftr 1020 8) with (Z.ones 2).
  change 255 with (Z.ones 8).
  rewrite !Z.land_ones, Z.shiftr_div_pow2 by lia.
  change (2 ^ 8) with 256. change (2 ^ 2) with 4.
  Z.div_mod_to_equations. lia.
Qed.

(** ** The assembling loop of [compile_native] *)

Lemma skipn_repeat_zero (x : Z) k n :
  skipn k (repeat x n) = repeat x (n - k).
Proof.
  revert k; induction n as [|n IH]; intros [|k]; simpl; auto.
Qed.

Lemma assemble_overflow ir : forall self bs,
  code_of ir = Ok bs ->
  (Assembler.index self <= length (Assembler.block self))%nat ->
  (length (Assembler.block self) < Assembler.index self + length bs)%nat ->
  assemble self ir = Raise IndexError.
Proof.
  induction ir as [|[[name a] b] rest IH]; intros self bs Hc Hi Hov.
  - simpl in Hc. inversion Hc; subst bs. simpl in Hov. lia.
  - cbn [code_of] in Hc. apply bind_ok in Hc. destruct Hc as (b1 & He & Hc).
    apply bind_ok in Hc. destruct Hc as (cs & Hc & Hbs).
    inversion Hbs; subst bs; clear Hbs. rewrite length_app in Hov.
    cbn [assemble]. rewrite getattr_encoding, He. cbn [bind].
    destruct (Nat.le_gt_cases (Assembler.index self + length b1)
                (length (Assembler.block self))) as [Hfit|Hno].
    + destruct (emit_appends self b1 Hfit) as (self1 & H1 & _ & Hx & _ & Hl).
      rewrite H1. cbn [bind]. apply (IH self1 cs Hc); lia.
    + rewrite emit_overflow by lia. reflexivity.
Qed.

Lemma assemble_fits ir : forall self bs,
  code_of ir = Ok bs ->
  (Assembler.index self + length bs <= length (Assembler.block self))%nat ->
  exists self',
    assemble self ir = Ok self' /\
    Assembler.raw self' = Assembler.raw self ++ bs /\
    Assembler.index self' = (Assembler.index self + length bs)%nat /\
    skipn (Assembler.index self') (Assembler.block self') =
      skipn (Assembler.index self') (Assembler.block self).
Proof.
  induction ir as [|[[name a] b] rest IH]; intros self bs Hc Hfit.
  - simpl in Hc. inversion Hc; subst bs. exists self. simpl.
    rewrite app_nil_r, Nat.add_0_r. auto.
  - cbn [code_of] in Hc. apply bind_ok in Hc. destruct Hc as (b1 & He & Hc).
    apply bind_ok in Hc. destruct Hc as (cs & Hc & Hbs).
    inversion Hbs; subst bs; clear Hbs. rewrite length_app in Hfit.
    cbn [assemble]. rewrite getattr_encoding, He. cbn [bind].
    destruct (emit_appends self b1 ltac:(lia))
      as (self1 & H1 & Hr1 & Hx1 & Hs1 & Hl1).
    rewrite H1. cbn [bind].
    destruct (IH self1 cs Hc ltac:(lia)) as (self' & H2 & Hr2 & Hx2 & Hs2).
    exists self'. rewrite length_app. repeat split.
    + exact H2.
    + rewrite Hr2, Hr1, app_assoc. reflexivity.
    + lia.
    + rewrite Hs2.
      replace (Assembler.index self')
        with (length cs + Assembler.index self1)%nat by lia.
      rewrite <- !skipn_skipn, Hs1. reflexivity.
Qed.

Lemma code_of_raises ir e : forall self,
  code_of ir = Raise e -> exists e', assemble self ir = Raise e'.
Proof.
  induction ir as [|[[name a] b] rest IH]; intros self Hc.
  - discriminate.
  - cbn [code_of] in Hc. cbn [assemble]. rewrite getattr_encoding.
    destruct (encoding (name, a, b)) as [b1|e1]; cbn [bind] in *; [|eauto].
    destruct (Assembler.emit self b1) as [self1|e1]; cbn [bind]; [|eauto].
    destruct (code_of rest) as [cs|e2] eqn:Hr; cbn [bind] in Hc;
      [discriminate|].
    apply (IH self1 Hc).
Qed.

Lemma assemble_fresh_page_aux PAGESIZE ir assembler :
  assemble (Assembler.init PAGESIZE) ir = Ok assembler ->
  exists bs,
    code_of ir = Ok bs /\
    Assembler.block assembler = bs ++ repeat 0 (PAGESIZE - length bs).
Proof.
  intros Ha. apply assemble_spec in Ha; [|simpl; lia].
  destruct Ha as (bs & Hc & Hb & _). exists bs. split; [exact Hc|].
  rewrite Hb. simpl. unfold Assembler.create_block.
  rewrite skipn_repeat_zero. reflexivity.
Qed.

(** X4. The assembling loop on a fresh page of [PAGESIZE] bytes.  If every
    instruction of the list has an encoding, the loop succeeds exactly when
    the concatenated encodings fit the page: then [raw] is their
    concatenation and the rest of the page is still zero; otherwise it
    raises [IndexError].  If some instruction has no encoding the loop
    raises. *)
Theorem assemble_fresh_page (PAGESIZE : nat) (ir : list instr) :
  match code_of ir with
  | Ok bs =>
      if (length bs <=? PAGESIZE)%nat then
        exists assembler,
          assemble (Assembler.init PAGESIZE) ir = Ok assembler /\
          Assembler.raw assembler = bs /\
          Assembler.block assembler = bs ++ repeat 0 (PAGESIZE - length bs)
      else assemble (Assembler.init PAGESIZE) ir = Raise IndexError
  | Raise _ => exists e, assemble (Assembler.init PAGESIZE) ir = Raise e
  end.
Proof.
  destruct (code_of ir) as [bs|e] eqn:Hc.
  - assert (Li : length (Assembler.block (Assembler.init PAGESIZE)) = PAGESIZE)
      by apply repeat_length.
    destruct (length bs <=? PAGESIZE)%nat eqn:Hfit.
    + apply Nat.leb_le in Hfit.
      destruct (assemble_fits ir (Assembler.init PAGESIZE) bs Hc)
        as (asm & Ha & Hr & Hx & Hs); [rewrite Li; simpl; lia|].
      exists asm. split; [exact Ha|]. split; [exact Hr|].
      rewrite <- (firstn_skipn (Assembler.index asm) (Assembler.block asm)).
      fold (Assembler.raw asm). rewrite Hr, Hs, Hx. simpl.
      unfold Assembler.create_block. rewrite skipn_repeat_zero.
      reflexivity.
    + apply Nat.leb_gt in Hfit.
      apply (assemble_overflow ir _ bs Hc); rewrite Li; simpl; lia.
  - apply (code_of_raises ir e). exact Hc.
Qed.

(** ** From the bytes back to instructions *)

Lemma little_endian_mod n :
  Assembler.little_endian n = X86.imm64 (n mod 1024).
Proof.
  rewrite <- little_endian_small by (apply Z.mod_pos_bound; reflexivity).
  destruct (little_endian_bytes n) as (B1 & _).
  destruct (little_endian_bytes (n mod 1024)) as (B2 & _).
  rewrite B1, B2. f_equal; [|f_equal].
  - change 255 with (Z.ones 8). rewrite !Z.land_ones by lia.
    change (2 ^ 8) with 256. Z.div_mod_to_equations. lia.
  - rewrite !Z.shiftr_land. change (Z.shiftr 1020 8) with (Z.ones 2).
    rewrite !Z.land_ones, !Z.shiftr_div_pow2 by lia.
    change (2 ^ 8) with 256. change (2 ^ 2) with 4.
    Z.div_mod_to_equations. lia.
Qed.

(** Every encoding an emitter produces is read back by the processor as one
    instruction, whatever follows it. *)
Lemma decode_encoding i bs :
  encoding i = Ok bs ->
  exists x, forall rest, X86.decode (bs ++ rest) = Some (x, rest).
Proof.
  destruct i as [[name a] b].
  destruct name; unfold encoding, Assembler.registers, Assembler.order_index;
    destruct a as [[]|?|]; cbn [bind]; try discriminate;
    destruct b as [[]|?|]; cbn [bind]; try discriminate;
    intros H; inversion H; subst bs; clear H;
    try (eexists; intros rest; reflexivity).
  all: destruct (little_endian_bytes n) as (B & _); rewrite B;
    eexists; intros rest; cbv - [Z.land Z.shiftr X86.le_value];
    reflexivity.
Qed.

Lemma insn_of_decode i bs :
  encoding i = Ok bs ->
  exists x, insn_of i = Some x /\
            bs <> [] /\
            forall rest, X86.decode (bs ++ rest) = Some (x, rest).
Proof.
  intros He. destruct (decode_encoding i bs He) as [x Hx].
  exists x. split; [|split; [|exact Hx]].
  - unfold insn_of. rewrite He. specialize (Hx []).
    rewrite app_nil_r in Hx. rewrite Hx. reflexivity.
  - intros ->. specialize (Hx []). discriminate Hx.
Qed.

Lemma run_unfold fuel code st :
  X86.run (S fuel) code st =
  match X86.decode code with
  | None => None
  | Some (X86.RET, _) =>
      match X86.stack st with
      | [] => Some (X86.signed64 (X86.regs st rax))
      | _ :: _ => None
      end
  | Some (i, rest) =>
      match X86.step i st with
      | Some st' => X86.run fuel rest st'
      | None => None
      end
  end.
Proof. reflexivity. Qed.

(** Running the bytes of an IR list is executing its instructions, when the
    bytes that follow are not an instruction and the fuel covers the
    list. *)
Lemma run_code_of ir : forall bs,
  code_of ir = Ok bs ->
  exists xs,
    insns_of ir = Some xs /\
    (length xs <= length bs)%nat /\
    forall tail fuel st,
      X86.decode tail = None ->
      (length xs < fuel)%nat ->
      X86.run fuel (bs ++ tail) st = exec xs st.
Proof.
  induction ir as [|i rest IH]; intros bs Hc.
  - simpl in Hc. inversion Hc; subst bs. exists []. simpl.
    repeat split; auto.
    intros tail [|fuel] st Ht Hf; [lia|].
    rewrite run_unfold, Ht. reflexivity.
  - cbn [code_of] in Hc. apply bind_ok in Hc. destruct Hc as (b1 & He & Hc).
    apply bind_ok in Hc. destruct Hc as (cs & Hc & Hbs).
    inversion Hbs; subst bs; clear Hbs.
    destruct (insn_of_decode i b1 He) as (x & Hx & Hne & Hd).
    destruct (IH cs Hc) as (xs & Hxs & Hlen & Hrun).
    exists (x :: xs). cbn [insns_of]. rewrite Hx, Hxs.
    split; [reflexivity|]. split.
    + rewrite length_app. destruct b1; [congruence|]. simpl. lia.
    + intros tail [|fuel] st Ht Hf; [simpl in Hf; lia|].
      rewrite run_unfold, <- app_assoc, Hd. cbn [exec].
      destruct x; try (destruct (X86.step _ st); [apply Hrun|]; auto;
                       simpl in Hf; lia).
      reflexivity.
Qed.

Lemma decode_zeros k : X86.decode (repeat 0 k) = None.
Proof. destruct k; reflexivity. Qed.

Lemma native_call_exec PAGESIZE ir assembler :
  assemble (Assembler.init PAGESIZE) ir = Ok assembler ->
  exists xs,
    insns_of ir = Some xs /\
    forall caller args,
      native_call assembler caller args =
      exec xs (X86.mk (X86.load_args [rdi; rsi; rdx; rcx] args caller) []).
Proof.
  intros Ha.
  pose proof (assemble_fresh_page_aux PAGESIZE ir assembler Ha) as (bs & Hc & Hb).
  destruct (run_code_of ir bs Hc) as (xs & Hxs & Hlen & Hrun).
  exists xs. split; [exact Hxs|]. intros caller args.
  unfold native_call, X86.call. rewrite Hb.
  apply Hrun; [apply decode_zeros|].
  rewrite length_app. lia.
Qed.

Lemma insn_of_immediate a n :
  insn_of (Oimmediate, Reg a, Imm n) = Some (X86.MOVABS a (n mod 1024)).
Proof.
  rewrite <- little_endian_value.
  destruct (little_endian_bytes n) as (B & _).
  unfold insn_of, encoding, Assembler.registers, Assembler.order_index.
  rewrite B.
  destruct a; cbv - [Z.land Z.shiftr X86.le_value]; reflexivity.
Qed.

Lemma insn_of_table (a b : reg) (n : Z) :
  insn_of (Omov, Reg a, Reg b) = Some (X86.MOV a b) /\
  insn_of (Oadd, Reg a, Reg b) = Some (X86.ADD a b) /\
  insn_of (Osub, Reg a, Reg b) = Some (X86.SUB a b) /\
  insn_of (Oimul, Reg a, Reg b) = Some (X86.IMUL a b) /\
  insn_of (Opush, Reg a, ONone) = Some (X86.PUSH a) /\
  insn_of (Opop, Reg a, ONone) = Some (X86.POP a) /\
  insn_of (Oret, ONone, ONone) = Some X86.RET /\
  insn_of (Oimmediate, Reg a, Imm n) = Some (X86.MOVABS a (n mod 1024)) /\
  insn_of (Oneg, Reg a, ONone) = None.
Proof.
  repeat split; try apply insn_of_immediate; destruct a, b; reflexivity.
Qed.

(** X5. What the processor reads where an emitter wrote.  For register
    operands the seven working emitters are read back as the instruction
    they are named after, with the first operand as destination; the bytes
    of an immediate load of [n] are read back as a load of [n mod 1024];
    the negation emitter leaves nothing to read. *)
Theorem emitted_bytes_read_back (a b : reg) (n : Z) :
  insn_of (Omov, Reg a, Reg b) = Some (X86.MOV a b) /\
  insn_of (Oadd, Reg a, Reg b) = Some (X86.ADD a b) /\
  insn_of (Osub, Reg a, Reg b) = Some (X86.SUB a b) /\
  insn_of (Oimul, Reg a, Reg b) = Some (X86.IMUL a b) /\
  insn_of (Opush, Reg a, ONone) = Some (X86.PUSH a) /\
  insn_of (Opop, Reg a, ONone) = Some (X86.POP a) /\
  insn_of (Oret, ONone, ONone) = Some X86.RET /\
  insn_of (Oimmediate, Reg a, Imm n) = Some (X86.MOVABS a (n mod 1024)) /\
  insn_of (Oneg, Reg a, ONone) = None.
Proof. apply insn_of_table. Qed.

(** X6. A page the assembling loop has filled runs as the list of
    instructions read back from the IR, one instruction for each IR tuple:
    calling the native entry executes them in order from the entry state,
    and never reads an instruction out of the bytes of two neighbours or
    out of the padding. *)
Theorem native_call_runs_instructions
  (PAGESIZE : nat) (ir : list instr) (assembler : Assembler.t) :
  assemble (Assembler.init PAGESIZE) ir = Ok assembler ->
  exists xs,
    insns_of ir = Some xs /\
    length xs = length ir /\
    forall caller args,
      native_call assembler caller args =
      exec xs (X86.mk (X86.load_args [rdi; rsi; rdx; rcx] args caller) []).
Proof.
  intros Ha. destruct (native_call_exec PAGESIZE ir assembler Ha)
    as (xs & Hxs & Hrun).
  exists xs. split; [exact Hxs|]. split; [|exact Hrun].
  clear Hrun Ha. revert xs Hxs.
  induction ir as [|i rest IH]; intros xs Hxs; simpl in Hxs.
  - inversion Hxs. reflexivity.
  - destruct (insn_of i); [|discriminate].
    destruct (insns_of rest) as [ys|]; [|discriminate].
    inversion Hxs; subst xs. simpl. f_equal. apply IH. reflexivity.
Qed.

Lemma native_call_runs_instructions_witness :
  exists xs,
    insns_of ir_mov_ret = Some xs /\
    length xs = length ir_mov_ret /\
    forall caller args,
      native_call
        (Assembler.mk ([0x48; 0x89; 0xf8; 0xc3] ++ repeat 0 4) 4 8)
        caller args =
      exec xs (X86.mk (X86.load_args [rdi; rsi; rdx; rcx] args caller) []).
Proof.
  apply (native_call_runs_instructions 8 ir_mov_ret). reflexivity.
Defined.

(** ** What the rewrites of [optimize] do to the result *)

Lemma reg_eqb_spec x y : reflect (x = y) (reg_eqb x y).
Proof. destruct x, y; simpl; constructor; congruence. Qed.

Lemma reg_eqb_refl x : reg_eqb x x = true.
Proof. destruct x; reflexivity. Qed.

Lemma operand_eqb_refl x : operand_eqb x x = true.
Proof. destruct x as [r|n|]; simpl; auto using reg_eqb_refl, Z.eqb_refl. Qed.

Lemma wrap64_range z : 0 <= X86.wrap64 z < 2 ^ 64.
Proof. apply Z.mod_pos_bound. reflexivity. Qed.

Lemma wrap64_word z : 0 <= z < 2 ^ 64 -> X86.wrap64 z = z.
Proof. apply Z.mod_small. Qed.

Lemma wrap64_push_pop z :
  0 <= z < 2 ^ 64 -> X86.wrap64 (X86.wrap64 (z - 8) + 8) = z.
Proof.
  unfold X86.wrap64. change (2 ^ 64) with 18446744073709551616.
  intros H. Z.div_mod_to_equations. lia.
Qed.

Lemma set_reg_words r v rf : words rf -> words (X86.set_reg r v rf).
Proof.
  intros H r'. unfold X86.set_reg. destruct (reg_eqb r r'); auto.
  apply wrap64_range.
Qed.

Lemma load_args_words order : forall args rf,
  words rf -> words (X86.load_args order args rf).
Proof.
  induction order as [|r order IH]; intros [|a args] rf H; simpl; auto.
  apply IH, set_reg_words, H.
Qed.

Lemma step_words i st st' :
  words (X86.regs st) -> X86.step i st = Some st' -> words (X86.regs st').
Proof.
  intros H. unfold X86.step.
  destruct (X86.writes_rsp i); [discriminate|].
  destruct i; try destruct (X86.stack st); intros E; inversion E; subst;
    simpl; auto using set_reg_words.
Qed.

Lemma exec_prefix_words p : forall st st',
  words (X86.regs st) -> exec_prefix p st = Running st' ->
  words (X86.regs st').
Proof.
  induction p as [|i p IH]; intros st st' H E; simpl in E.
  - inversion E; subst; exact H.
  - destruct i;
      try (destruct (X86.step _ st) as [st1|] eqn:S; [|discriminate];
           eapply IH; [eapply step_words; eauto|exact E]).
    destruct (X86.stack st); discriminate.
Qed.

Lemma exec_app p q : forall st,
  exec (p ++ q) st =
  match exec_prefix p st with
  | Running st' => exec q st'
  | Finished r => r
  end.
Proof.
  induction p as [|i p IH]; intros st; simpl; [reflexivity|].
  destruct i; try (destruct (X86.step _ st); [apply IH|reflexivity]).
  destruct (X86.stack st); reflexivity.
Qed.

Lemma step_same i s t s' :
  same_state s t -> X86.step i s = Some s' ->
  exists t', X86.step i t = Some t' /\ same_state s' t'.
Proof.
  intros [Hr Hs]. unfold X86.step.
  destruct (X86.writes_rsp i); [discriminate|].
  destruct i; rewrite <- ?Hs; try destruct (X86.stack s);
    intros E; inversion E; subst; clear E;
    eexists; (split; [reflexivity|]); split; simpl; auto;
    try (intros r0; unfold X86.set_reg; rewrite <- ?Hr;
         destruct (reg_eqb _ r0); auto;
         destruct (reg_eqb _ r0); auto).
  all: rewrite Hr; reflexivity.
Qed.

Lemma step_same_none i s t :
  same_state s t -> X86.step i s = None -> X86.step i t = None.
Proof.
  intros [Hr Hs]. unfold X86.step.
  destruct (X86.writes_rsp i); [reflexivity|].
  destruct i; rewrite <- ?Hs; try destruct (X86.stack s);
    intros E; try discriminate; reflexivity.
Qed.

Lemma exec_same p : forall s t, same_state s t -> exec p s = exec p t.
Proof.
  induction p as [|i p IH]; intros s t H; simpl; [reflexivity|].
  destruct i;
    try (destruct (X86.step _ s) as [s'|] eqn:S;
         [destruct (step_same _ _ _ _ H S) as (t' & St & H');
          rewrite St; apply IH; exact H'
         |rewrite (step_same_none _ _ _ H S); reflexivity]).
  destruct H as [Hr Hs]. rewrite <- Hs, Hr. reflexivity.
Qed.

Lemma insns_of_app l1 : forall l2,
  insns_of (l1 ++ l2) =
  match insns_of l1, insns_of l2 with
  | Some a, Some b => Some (a ++ b)
  | _, _ => None
  end.
Proof.
  induction l1 as [|i l1 IH]; intros l2; simpl.
  - destruct (insns_of l2); reflexivity.
  - rewrite IH. destruct (insn_of i); [|reflexivity].
    destruct (insns_of l1); [|reflexivity].
    destruct (insns_of l2); reflexivity.
Qed.

Lemma code_of_app l1 : forall l2,
  code_of (l1 ++ l2) =
  (a <- code_of l1 ;; b <- code_of l2 ;; Ok (a ++ b)).
Proof.
  induction l1 as [|i l1 IH]; intros l2; simpl.
  - destruct (code_of l2); reflexivity.
  - rewrite IH. destruct (encoding i); simpl; [|reflexivity].
    destruct (code_of l1); simpl; [|reflexivity].
    destruct (code_of l2); simpl; [|reflexivity].
    rewrite app_assoc. reflexivity.
Qed.

Lemma assemble_code_fits PAGESIZE ir assembler :
  assemble (Assembler.init PAGESIZE) ir = Ok assembler ->
  exists bs, code_of ir = Ok bs /\ (length bs <= PAGESIZE)%nat.
Proof.
  intros Ha. apply assemble_spec in Ha; [|simpl; lia].
  destruct Ha as (bs & Hc & Hb & _ & Hl). exists bs. split; [exact Hc|].
  rewrite Hb in Hl. simpl in Hl. unfold Assembler.create_block in Hl.
  rewrite length_app, length_skipn, !repeat_length in Hl. lia.
Qed.

(** Dropping instructions from a list that fits the page leaves a list that
    fits the page. *)
Lemma assemble_without PAGESIZE pre w post assembler :
  assemble (Assembler.init PAGESIZE) (pre ++ w ++ post) = Ok assembler ->
  exists assembler',
    assemble (Assembler.init PAGESIZE) (pre ++ post) = Ok assembler'.
Proof.
  intros Ha. destruct (assemble_code_fits _ _ _ Ha) as (bs & Hc & Hl).
  rewrite !code_of_app in Hc.
  destruct (code_of pre) as [b1|] eqn:H1; [|discriminate].
  destruct (code_of w) as [b2|] eqn:H2; [|discriminate].
  destruct (code_of post) as [b3|] eqn:H3; [|discriminate].
  simpl in Hc. inversion Hc; subst bs; clear Hc.
  rewrite !length_app in Hl.
  destruct (assemble_fits (pre ++ post) (Assembler.init PAGESIZE) (b1 ++ b3))
    as (asm' & Ha' & _).
  - rewrite code_of_app, H1, H3. reflexivity.
  - simpl. unfold Assembler.create_block.
    rewrite repeat_length, length_app. lia.
  - eauto.
Qed.

Lemma rewrite_sound PAGESIZE pre w1 w2 post caller args v r' :
  window_refines w1 w2 ->
  words caller ->
  assembled_call PAGESIZE (pre ++ w1 ++ post) caller args = Ok (Some v) ->
  assembled_call PAGESIZE (pre ++ w2 ++ post) caller args = Ok r' ->
  r' = Some v.
Proof.
  intros Hw Hc H1 H2. unfold assembled_call in *.
  apply bind_ok in H1. destruct H1 as (asm1 & Ha1 & E1).
  apply bind_ok in H2. destruct H2 as (asm2 & Ha2 & E2).
  destruct (native_call_exec _ _ _ Ha1) as (X1 & I1 & R1).
  destruct (native_call_exec _ _ _ Ha2) as (X2 & I2 & R2).
  rewrite R1 in E1. rewrite R2 in E2. clear R1 R2 Ha1 Ha2.
  assert (W0 : words (X86.regs (X86.mk (X86.load_args [rdi; rsi; rdx; rcx]
                                                       args caller) [])))
    by (apply load_args_words; exact Hc).
  remember (X86.mk (X86.load_args [rdi; rsi; rdx; rcx] args caller) [])
    as st0 eqn:Est. clear Est.
  rewrite !insns_of_app in I1, I2.
  destruct (insns_of pre) as [p|]; [|discriminate].
  destruct (insns_of w1) as [x1|] eqn:W1; [|discriminate].
  destruct (insns_of w2) as [x2|] eqn:W2; [|discriminate].
  destruct (insns_of post) as [q|]; [|discriminate].
  inversion I1; subst X1. inversion I2; subst X2. clear I1 I2.
  injection E1 as E1'. injection E2 as E2'.
  rewrite exec_app in *.
  destruct (exec_prefix p st0) as [st|r] eqn:P.
  - rewrite <- E2'. apply (Hw x1 x2 W1 W2 st q v);
      [eapply exec_prefix_words; eauto|exact E1'].
  - congruence.
Qed.

Lemma insn_of_reg1 op a b x :
  (op = Opush \/ op = Opop) ->
  insn_of (op, a, b) = Some x ->
  exists r, a = Reg r /\
            x = match op with Opush => X86.PUSH r | _ => X86.POP r end.
Proof.
  intros [-> | ->]; destruct a as [[]|?|]; try discriminate;
    intros H; inversion H; eauto.
Qed.

Lemma insn_of_mov a b x :
  insn_of (Omov, a, b) = Some x ->
  (exists r s, a = Reg r /\ b = Reg s /\ x = X86.MOV r s) \/
  (a = ONone /\ exists s, b = Reg s).
Proof.
  destruct a as [[]|?|]; destruct b as [[]|?|]; try discriminate;
    intros H; inversion H; eauto 7.
Qed.

Lemma optimize_step_at pre w :
  optimize_step (pre ++ w) (length pre) =
  (fst (optimize_step w 0), (length pre + snd (optimize_step w 0))%nat).
Proof.
  rewrite optimize_step_window, skipn_app, skipn_all, Nat.sub_diag.
  reflexivity.
Qed.

Ltac regs_cases :=
  repeat match goal with
    | |- context [reg_eqb ?a ?b] =>
        destruct (reg_eqb_spec a b); subst; try congruence
    | H : context [reg_eqb ?a ?b] |- _ =>
        destruct (reg_eqb_spec a b); subst; try congruence
    end.

Lemma self_move_refines x : window_refines [(Omov, x, x)] [].
Proof.
  intros xs1 xs2 H1 H2 st q v W E.
  simpl in H1, H2. inversion H2; subst xs2; clear H2.
  destruct (insn_of (Omov, x, x)) as [i|] eqn:I; [|discriminate].
  inversion H1; subst xs1; clear H1.
  apply insn_of_mov in I.
  destruct I as [(r & s & -> & E2 & ->) | (-> & s & E2)]; [|discriminate].
  inversion E2; subst s.
  cbn [app exec] in *.
  destruct (X86.step (X86.MOV r r) st) as [st'|] eqn:S; [|discriminate].
  rewrite <- E. symmetry. apply exec_same.
  unfold X86.step in S. destruct (X86.writes_rsp _); [discriminate|].
  inversion S; subst st'. split; [|reflexivity].
  intros r0. cbn [X86.regs]. unfold X86.set_reg.
  destruct (reg_eqb_spec r r0); [subst; apply wrap64_word, W|reflexivity].
Qed.

Lemma push_pop_refines X Y b1 b2 :
  window_refines [(Opush, X, b1); (Opop, Y, b2)] [(Omov, Y, X)].
Proof.
  intros xs1 xs2 H1 H2 st q v W E.
  simpl in H1, H2.
  destruct (insn_of (Opush, X, b1)) as [i1|] eqn:I1; [|discriminate].
  destruct (insn_of (Opop, Y, b2)) as [i2|] eqn:I2; [|discriminate].
  destruct (insn_of (Omov, Y, X)) as [i3|] eqn:I3; [|discriminate].
  inversion H1; subst xs1. inversion H2; subst xs2. clear H1 H2.
  apply insn_of_reg1 in I1; [|auto]. destruct I1 as (x & -> & ->).
  apply insn_of_reg1 in I2; [|auto]. destruct I2 as (y & -> & ->).
  apply insn_of_mov in I3.
  destruct I3 as [(r & s & Er & Es & ->) | (Er & _)]; [|discriminate].
  inversion Er; inversion Es; subst r s.
  cbn [app exec] in *.
  unfold X86.step in *. cbn [X86.writes_rsp X86.stack X86.regs] in *.
  destruct (reg_eqb_spec y rsp) as [->|Hy]; [discriminate|].
  cbn [reg_eqb] in E.
  rewrite <- E. apply exec_same. split; [|reflexivity].
  intros r0. cbn [X86.regs]. unfold X86.set_reg.
  destruct (reg_eqb_spec y r0); [reflexivity|].
  destruct (reg_eqb_spec rsp r0) as [<-|]; [|reflexivity].
  cbn [reg_eqb]. symmetry. apply wrap64_push_pop, W.
Qed.

Lemma window_refines_safe X b1 i y b3 :
  window_safe i y = true ->
  window_refines [(Opush, X, b1); i; (Opop, Reg y, b3)]
                 [(Omov, Reg y, X); i].
Proof.
  intros Hsafe xs1 xs2 H1 H2 st q v W E.
  cbn [insns_of] in H1, H2.
  destruct (insn_of (Opush, X, b1)) as [i1|] eqn:I1; [|discriminate].
  apply insn_of_reg1 in I1; [|auto]. destruct I1 as (x & -> & ->).
  destruct (insn_of i) as [xi|] eqn:Ii; [|discriminate].
  destruct (insn_of (Opop, Reg y, b3)) as [i3|] eqn:I3; [|discriminate].
  apply insn_of_reg1 in I3; [|auto]. destruct I3 as (y' & Ey & ->).
  inversion Ey; subst y'; clear Ey.
  destruct (insn_of_table y x 0) as (Imov & _). rewrite Imov in H2.
  inversion H1; subst xs1. inversion H2; subst xs2. clear H1 H2 Imov.
  destruct i as [[op a] b].
  destruct op; try discriminate Hsafe;
    destruct a as [d| |]; try discriminate Hsafe;
    destruct b as [s|n|]; try discriminate Hsafe;
    cbn [window_safe] in Hsafe;
    [ destruct (insn_of_table d s 0) as (T & _)
    | destruct (insn_of_table d d n) as (_ & _ & _ & _ & _ & _ & _ & T & _)
    | destruct (insn_of_table d s 0) as (_ & T & _)
    | destruct (insn_of_table d s 0) as (_ & _ & T & _)
    | destruct (insn_of_table d s 0) as (_ & _ & _ & T & _) ];
    rewrite T in Ii; inversion Ii; subst xi; clear Ii T;
    repeat (apply andb_prop in Hsafe; destruct Hsafe as [Hsafe ?]);
    repeat match goal with
      | H : negb (reg_eqb ?a ?b) = true |- _ =>
          apply negb_true_iff in H;
          destruct (reg_eqb_spec a b); [discriminate|]; clear H
      end;
    cbn [app exec] in *;
    unfold X86.step in *; cbn [X86.writes_rsp X86.stack X86.regs] in *;
    (destruct (reg_eqb_spec d rsp); [discriminate|]);
    (destruct (reg_eqb_spec y rsp); [discriminate|]);
    cbn [reg_eqb X86.stack X86.regs] in E;
    rewrite <- E; apply exec_same; (split; [|reflexivity]);
    intros r0; cbn [X86.regs]; unfold X86.set_reg;
    regs_cases; cbn [reg_eqb]; try reflexivity;
    try (symmetry; apply wrap64_push_pop, W).
Qed.

(** Evaluation of one step on a window whose first instructions are
    known and which is followed by [post]. *)
Ltac fire_step post :=
  destruct post as [|[[? ?] ?] [|[[? ?] ?] [|[[? ?] ?] ?]]];
  unfold optimize_step, fetch; cbn [nth_error Nat.add];
  cbn [irop_eqb push_or_pop andb orb negb operand_eqb fst snd].

(** X7. Self-move elimination is sound.  At a move whose two operands are
    equal the pass yields nothing and steps over it; and if the list with
    the move, assembled on a page and called with the caller's registers
    holding 64-bit words, returns a value, the list without the move
    assembles on the same page and returns the same value. *)
Theorem self_move_elimination_sound
  (PAGESIZE : nat) (pre post : list instr) (x : operand)
  (caller : X86.regfile) (args : list Z) (v : Z) :
  words caller ->
  assembled_call PAGESIZE (pre ++ (Omov, x, x) :: post) caller args
    = Ok (Some v) ->
  optimize_step (pre ++ (Omov, x, x) :: post) (length pre)
    = ([], (length pre + 1)%nat) /\
  assembled_call PAGESIZE (pre ++ post) caller args = Ok (Some v).
Proof.
  intros Hc H. split.
  - rewrite optimize_step_at.
    fire_step post; rewrite operand_eqb_refl; reflexivity.
  - assert (Ha : exists asm, assemble (Assembler.init PAGESIZE)
                               (pre ++ [(Omov, x, x)] ++ post) = Ok asm).
    { unfold assembled_call in H. apply bind_ok in H.
      destruct H as (asm & Ha & _). eauto. }
    destruct Ha as (asm & Ha).
    destruct (assemble_without _ _ _ _ _ Ha) as (asm' & Ha').
    assert (E : assembled_call PAGESIZE (pre ++ [] ++ post) caller args =
                Ok (native_call asm' caller args))
      by (unfold assembled_call; cbn [app]; rewrite Ha'; reflexivity).
    cbn [app] in E. rewrite E. f_equal.
    apply (rewrite_sound PAGESIZE pre [(Omov, x, x)] [] post caller args);
      [apply self_move_refines|exact Hc|exact H|exact E].
Qed.

Lemma self_move_elimination_sound_witness :
  optimize_step ([] ++ (Omov, Reg rax, Reg rax) :: ir_mov_ret) (length (@nil instr))
    = ([], (length (@nil instr) + 1)%nat) /\
  assembled_call 64 ([] ++ ir_mov_ret) (fun _ => 0) [7] = Ok (Some 7).
Proof.
  apply (self_move_elimination_sound 64 [] ir_mov_ret (Reg rax)
           (fun _ => 0) [7] 7).
  - intros r. split; [lia|reflexivity].
  - vm_compute. reflexivity.
Defined.

(** X8. Collapsing [push X; pop Y] into [mov Y, X] is sound.  At a push
    directly followed by a pop the pass yields the move and steps over
    both; and if the list with the pair, assembled and called with the
    caller's registers holding 64-bit words, returns a value, then the list
    with the move, when it fits the page (the move is one byte longer than
    the pair), returns the same value. *)
Theorem push_pop_collapse_sound
  (PAGESIZE : nat) (pre post : list instr) (X Y b1 b2 : operand)
  (caller : X86.regfile) (args : list Z) (v : Z) (r' : option Z) :
  words caller ->
  assembled_call PAGESIZE (pre ++ (Opush, X, b1) :: (Opop, Y, b2) :: post)
                 caller args = Ok (Some v) ->
  assembled_call PAGESIZE (pre ++ (Omov, Y, X) :: post) caller args
    = Ok r' ->
  optimize_step (pre ++ (Opush, X, b1) :: (Opop, Y, b2) :: post) (length pre)
    = ([(Omov, Y, X)], (length pre + 2)%nat) /\
  r' = Some v.
Proof.
  intros Hc H1 H2. split.
  - rewrite optimize_step_at. fire_step post; reflexivity.
  - apply (rewrite_sound PAGESIZE pre [(Opush, X, b1); (Opop, Y, b2)]
             [(Omov, Y, X)] post caller args);
      [apply push_pop_refines|exact Hc|exact H1|exact H2].
Qed.

Lemma push_pop_collapse_sound_witness :
  optimize_step ([] ++ (Opush, Reg rdi, ONone) :: (Opop, Reg rax, ONone)
                    :: [(Oret, ONone, ONone)]) (length (@nil instr))
    = ([(Omov, Reg rax, Reg rdi)], (length (@nil instr) + 2)%nat) /\
  Some 7 = Some 7.
Proof.
  apply (push_pop_collapse_sound 64 [] [(Oret, ONone, ONone)]
           (Reg rdi) (Reg rax) ONone ONone (fun _ => 0) [7] 7 (Some 7)).
  - intros r. split; [lia|reflexivity].
  - vm_compute. reflexivity.
  - vm_compute. reflexivity.
Defined.

(** X9. The window [push X; op; pop Y] with one instruction in between.
    When [op] is a move, add, subtract, multiply or immediate load that
    neither writes [Y] nor reads [Y] or the stack pointer, the pass yields
    [mov Y, X; op] and steps over the three; and if the list with the
    window, assembled and called with the caller's registers holding 64-bit
    words, returns a value, then the rewritten list, when it fits the page,
    returns the same value. *)
Theorem window_collapse_sound
  (PAGESIZE : nat) (pre post : list instr) (X b1 b3 : operand) (y : reg)
  (i : instr) (caller : X86.regfile) (args : list Z) (v : Z)
  (r' : option Z) :
  window_safe i y = true ->
  words caller ->
  assembled_call PAGESIZE
    (pre ++ (Opush, X, b1) :: i :: (Opop, Reg y, b3) :: post) caller args
    = Ok (Some v) ->
  assembled_call PAGESIZE (pre ++ (Omov, Reg y, X) :: i :: post) caller args
    = Ok r' ->
  optimize_step (pre ++ (Opush, X, b1) :: i :: (Opop, Reg y, b3) :: post)
                (length pre)
    = ([(Omov, Reg y, X); i], (length pre + 3)%nat) /\
  r' = Some v.
Proof.
  intros Hs Hc H1 H2. split.
  - rewrite optimize_step_at.
    destruct i as [[op a] b].
    destruct op; try discriminate Hs;
      destruct a as [d| |]; try discriminate Hs;
      destruct b as [s|n|]; try discriminate Hs;
      cbn [window_safe] in Hs;
      repeat (apply andb_prop in Hs; destruct Hs as [Hs ?]);
      apply negb_true_iff in Hs;
      fire_step post; rewrite Hs; reflexivity.
  - apply (rewrite_sound PAGESIZE pre
             [(Opush, X, b1); i; (Opop, Reg y, b3)] [(Omov, Reg y, X); i]
             post caller args);
      [apply window_refines_safe; exact Hs|exact Hc|exact H1|exact H2].
Qed.

Lemma window_collapse_sound_witness :
  optimize_step ([] ++ (Opush, Reg rdi, ONone) :: (Omov, Reg rax, Reg rsi)
                    :: (Opop, Reg rbx, ONone) :: [(Oret, ONone, ONone)])
                (length (@nil instr))
    = ([(Omov, Reg rbx, Reg rdi); (Omov, Reg rax, Reg rsi)],
       (length (@nil instr) + 3)%nat) /\
  Some 9 = Some 9.
Proof.
  apply (window_collapse_sound 64 [] [(Oret, ONone, ONone)]
           (Reg rdi) ONone ONone rbx (Omov, Reg rax, Reg rsi)
           (fun _ => 0) [7; 9] 9 (Some 9)).
  - reflexivity.
  - intros r. split; [lia|reflexivity].
  - vm_compute. reflexivity.
  - vm_compute. reflexivity.
Defined.

(** C4. For every IR sequence that contains the window [push X; op; pop Y]
    where [op] is a move, add, subtract, multiply or immediate load that
    neither writes [Y] nor reads [Y] or the stack pointer: [op] is neither
    a push nor a pop and its destination differs from [Y], as the claim
    asks; the pass rewrites the window to [mov Y, X; op]; and for every
    input, if the assembled original, called with the caller's registers
    holding 64-bit words, returns a value, then the assembled rewritten
    sequence, when it fits the page, returns the same value. *)
Theorem C4_window_sound_when_op_spares_target
  (PAGESIZE : nat) (pre post : list instr) (X b1 b3 : operand) (y : reg)
  (op : irop) (a2 b2 : operand) (caller : X86.regfile) (args : list Z)
  (v : Z) (r' : option Z) :
  window_safe (op, a2, b2) y = true ->
  words caller ->
  assembled_call PAGESIZE
    (pre ++ (Opush, X, b1) :: (op, a2, b2) :: (Opop, Reg y, b3) :: post)
    caller args = Ok (Some v) ->
  assembled_call PAGESIZE
    (pre ++ (Omov, Reg y, X) :: (op, a2, b2) :: post) caller args = Ok r' ->
  (push_or_pop op = false /\ a2 <> Reg y) /\
  optimize_step
    (pre ++ (Opush, X, b1) :: (op, a2, b2) :: (Opop, Reg y, b3) :: post)
    (length pre)
    = ([(Omov, Reg y, X); (op, a2, b2)], (length pre + 3)%nat) /\
  r' = Some v.
Proof.
  intros Hs Hc H1 H2. split; [|split].
  - destruct op; try discriminate Hs;
      destruct a2 as [d| |]; try discriminate Hs;
      destruct b2 as [s|n|]; try discriminate Hs;
      cbn [window_safe] in Hs;
      repeat (apply andb_prop in Hs; destruct Hs as [Hs ?]);
      apply negb_true_iff in Hs;
      (split; [reflexivity|]); intros E; inversion E; subst d;
      rewrite reg_eqb_refl in Hs; discriminate Hs.
  - rewrite optimize_step_at.
    destruct op; try discriminate Hs;
      destruct a2 as [d| |]; try discriminate Hs;
      destruct b2 as [s|n|]; try discriminate Hs;
      cbn [window_safe] in Hs;
      repeat (apply andb_prop in Hs; destruct Hs as [Hs ?]);
      apply negb_true_iff in Hs;
      fire_step post; rewrite Hs; reflexivity.
  - apply (rewrite_sound PAGESIZE pre
             [(Opush, X, b1); (op, a2, b2); (Opop, Reg y, b3)]
             [(Omov, Reg y, X); (op, a2, b2)] post caller args);
      [apply window_refines_safe; exact Hs|exact Hc|exact H1|exact H2].
Qed.

Lemma C4_window_sound_when_op_spares_target_witness :
  (push_or_pop Omov = false /\ Reg rax <> Reg rbx) /\
  optimize_step
    ([] ++ (Opush, Reg rsi, ONone) :: (Omov, Reg rax, Reg rdi)
        :: (Opop, Reg rbx, ONone)
        :: [(Oadd, Reg rax, Reg rbx); (Oret, ONone, ONone)])
    (length (@nil instr))
    = ([(Omov, Reg rbx, Reg rsi); (Omov, Reg rax, Reg rdi)],
       (length (@nil instr) + 3)%nat) /\
  Some 16 = Some 16.
Proof.
  apply (C4_window_sound_when_op_spares_target 4096 []
           [(Oadd, Reg rax, Reg rbx); (Oret, ONone, ONone)]
           (Reg rsi) ONone ONone rbx Omov (Reg rax) (Reg rdi)
           (fun _ => 0) [7; 9] 16 (Some 16)).
  - reflexivity.
  - intros r. split; [lia|reflexivity].
  - vm_compute. reflexivity.
  - vm_compute. reflexivity.
Defined.

(** *** The window with two instructions in between *)

Lemma window_safe_leaves i y xi :
  window_safe i y = true -> insn_of i = Some xi -> leaves y xi = true.
Proof.
  intros Hs Hi. destruct i as [[op a] b].
  destruct op; try discriminate Hs;
    destruct a as [d| |]; try discriminate Hs;
    destruct b as [s|n|]; try discriminate Hs;
    cbn [window_safe] in Hs;
    [ destruct (insn_of_table d s 0) as (T & _)
    | destruct (insn_of_table d d n) as (_ & _ & _ & _ & _ & _ & _ & T & _)
    | destruct (insn_of_table d s 0) as (_ & T & _)
    | destruct (insn_of_table d s 0) as (_ & _ & T & _)
    | destruct (insn_of_table d s 0) as (_ & _ & _ & T & _) ];
    rewrite T in Hi; inversion Hi; subst xi; exact Hs.
Qed.

Lemma exec_leaves y xi p st :
  leaves y xi = true ->
  exec (xi :: p) st =
  match X86.step xi st with Some st' => exec p st' | None => None end.
Proof. destruct xi; try discriminate; reflexivity. Qed.

(** An instruction that leaves [y] alone keeps the two routines in step. *)
Lemma shifted_step w y xi A B A' :
  leaves y xi = true -> y <> rsp ->
  shifted w y A B -> X86.step xi A = Some A' ->
  exists B', X86.step xi B = Some B' /\ shifted w y A' B'.
Proof.
  intros Hl Hy (Hs & Hr & Hw & Hp). unfold X86.step.
  destruct xi as [d s|?|?|d n|d s|d s|d s|?|]; try discriminate Hl;
    cbn [X86.writes_rsp leaves] in *;
    (destruct (reg_eqb_spec d rsp) as [|Hd]; [discriminate|]);
    repeat (apply andb_prop in Hl; destruct Hl as [Hl ?]);
    repeat match goal with
      | H : negb (reg_eqb ?a ?b) = true |- _ =>
          apply negb_true_iff in H;
          destruct (reg_eqb_spec a b); [discriminate|]; clear H
      end;
    intros E; inversion E; subst A'; clear E;
    (eexists; split; [reflexivity|]);
    (split; [exact Hs|]); cbn [X86.regs X86.stack]; unfold X86.set_reg;
    repeat split;
    try (intros r Hry Hrp; destruct (reg_eqb_spec d r);
         [repeat match goal with
            | |- context [X86.regs A ?x] => rewrite (Hr x) by assumption
            end; reflexivity
         |apply Hr; assumption]);
    try (destruct (reg_eqb_spec d y); [congruence|assumption]);
    try (destruct (reg_eqb_spec d rsp); [congruence|assumption]).
Qed.

Lemma long_window_refines X b1 i2 i3 y b4 :
  window_safe i2 y = true -> window_safe i3 y = true ->
  window_refines [(Opush, X, b1); i2; i3; (Opop, Reg y, b4)]
                 [(Omov, Reg y, X); i2; i3].
Proof.
  intros S2 S3 xs1 xs2 H1 H2 st q v W E.
  cbn [insns_of] in H1, H2.
  destruct (insn_of (Opush, X, b1)) as [i1|] eqn:I1; [|discriminate].
  apply insn_of_reg1 in I1; [|auto]. destruct I1 as (x & -> & ->).
  destruct (insn_of i2) as [x2|] eqn:I2; [|discriminate].
  destruct (insn_of i3) as [x3|] eqn:I3; [|discriminate].
  destruct (insn_of (Opop, Reg y, b4)) as [i4|] eqn:I4; [|discriminate].
  apply insn_of_reg1 in I4; [|auto]. destruct I4 as (y' & Ey & ->).
  inversion Ey; subst y'; clear Ey.
  destruct (insn_of_table y x 0) as (Imov & _). rewrite Imov in H2.
  inversion H1; subst xs1. inversion H2; subst xs2. clear H1 H2 Imov.
  pose proof (window_safe_leaves _ _ _ S2 I2) as L2.
  pose proof (window_safe_leaves _ _ _ S3 I3) as L3.
  cbn [app] in *.
  change (exec (X86.PUSH x :: ?p) st) with
    (exec p (X86.mk (X86.set_reg rsp (X86.regs st rsp - 8) (X86.regs st))
                    (X86.regs st x :: X86.stack st))) in E.
  rewrite (exec_leaves y) in E by exact L2.
  destruct (X86.step x2 _) as [A1|] eqn:E2 in E; [|discriminate].
  rewrite (exec_leaves y) in E by exact L3.
  destruct (X86.step x3 A1) as [A2|] eqn:E3; [|discriminate].
  cbn [exec] in E. unfold X86.step in E at 1. cbn [X86.writes_rsp] in E.
  destruct (reg_eqb_spec y rsp) as [|Hy]; [discriminate|].
  assert (S0 : shifted (X86.regs st x) y
            (X86.mk (X86.set_reg rsp (X86.regs st rsp - 8) (X86.regs st))
                    (X86.regs st x :: X86.stack st))
            (X86.mk (X86.set_reg y (X86.regs st x) (X86.regs st))
                    (X86.stack st))).
  { repeat split; cbn [X86.regs X86.stack]; unfold X86.set_reg.
    - intros r Hry Hrp.
      destruct (reg_eqb_spec rsp r); [congruence|].
      destruct (reg_eqb_spec y r); [congruence|reflexivity].
    - rewrite reg_eqb_refl. reflexivity.
    - rewrite reg_eqb_refl.
      destruct (reg_eqb_spec y rsp); [congruence|].
      symmetry. apply wrap64_push_pop, W. }
  destruct (shifted_step _ _ _ _ _ _ L2 Hy S0 E2) as (B1 & F2 & S1).
  destruct (shifted_step _ _ _ _ _ _ L3 Hy S1 E3) as (B2 & F3 & S2').
  change (exec (X86.MOV y x :: ?p) st) with
    (match X86.step (X86.MOV y x) st with
     | Some st' => exec p st' | None => None end).
  unfold X86.step at 1. cbn [X86.writes_rsp].
  destruct (reg_eqb_spec y rsp); [congruence|].
  rewrite (exec_leaves y) by exact L2. rewrite F2.
  rewrite (exec_leaves y) by exact L3. rewrite F3.
  destruct S2' as (Hs & Hr & Hw & Hp).
  rewrite Hs in E. rewrite <- E. apply exec_same. split; [|reflexivity].
  intros r. cbn [X86.regs]. unfold X86.set_reg.
  destruct (reg_eqb_spec y r) as [<-|Hry]; [exact Hw|].
  destruct (reg_eqb_spec rsp r) as [<-|Hrp]; [exact Hp|].
  symmetry. apply Hr; congruence.
Qed.

(** X16. The window [push X; op; op'; pop Y] with two instructions in
    between.  When both are moves, adds, subtracts, multiplies or immediate
    loads that neither write [Y] nor read [Y] or the stack pointer, the
    pass yields [mov Y, X; op; op'] and steps over the four; and if the
    list with the window, assembled and called with the caller's registers
    holding 64-bit words, returns a value, then the rewritten list, when it
    fits the page, returns the same value. *)
Theorem long_window_collapse_sound
  (PAGESIZE : nat) (pre post : list instr) (X b1 b4 : operand) (y : reg)
  (i2 i3 : instr) (caller : X86.regfile) (args : list Z) (v : Z)
  (r' : option Z) :
  window_safe i2 y = true -> window_safe i3 y = true ->
  words caller ->
  assembled_call PAGESIZE
    (pre ++ (Opush, X, b1) :: i2 :: i3 :: (Opop, Reg y, b4) :: post)
    caller args = Ok (Some v) ->
  assembled_call PAGESIZE
    (pre ++ (Omov, Reg y, X) :: i2 :: i3 :: post) caller args = Ok r' ->
  optimize_step
    (pre ++ (Opush, X, b1) :: i2 :: i3 :: (Opop, Reg y, b4) :: post)
    (length pre)
    = ([(Omov, Reg y, X); i2; i3], (length pre + 4)%nat) /\
  r' = Some v.
Proof.
  intros S2 S3 Hc H1 H2. split.
  - rewrite optimize_step_at.
    destruct i2 as [[op2 a2] c2], i3 as [[op3 a3] c3].
    assert (D2 : push_or_pop op2 = false /\
                 operand_eqb a2 (Reg y) = false).
    { destruct op2; try discriminate S2;
        destruct a2 as [d| |]; try discriminate S2;
        destruct c2 as [s|n|]; try discriminate S2;
        cbn [window_safe] in S2;
        repeat (apply andb_prop in S2; destruct S2 as [S2 ?]);
        apply negb_true_iff in S2; auto. }
    assert (D3 : push_or_pop op3 = false /\ irop_eqb op3 Opop = false /\
                 operand_eqb a3 (Reg y) = false).
    { destruct op3; try discriminate S3;
        destruct a3 as [d| |]; try discriminate S3;
        destruct c3 as [s|n|]; try discriminate S3;
        cbn [window_safe] in S3;
        repeat (apply andb_prop in S3; destruct S3 as [S3 ?]);
        apply negb_true_iff in S3; auto. }
    destruct D2 as (P2 & A2). destruct D3 as (P3 & Q3 & A3).
    assert (Q2 : irop_eqb op2 Opop = false)
      by (destruct op2; try reflexivity; discriminate P2).
    unfold optimize_step, fetch. cbn [nth_error Nat.add].
    cbn [irop_eqb andb orb negb].
    rewrite Q2, Q3, P2, P3, A2, A3.
    destruct op2; try discriminate P2; reflexivity.
  - apply (rewrite_sound PAGESIZE pre
             [(Opush, X, b1); i2; i3; (Opop, Reg y, b4)]
             [(Omov, Reg y, X); i2; i3] post caller args);
      [apply long_window_refines; assumption|exact Hc|exact H1|exact H2].
Qed.

Lemma long_window_collapse_sound_witness :
  optimize_step
    ([] ++ (Opush, Reg rdi, ONone) :: (Omov, Reg rax, Reg rsi)
        :: (Oadd, Reg rax, Reg rsi) :: (Opop, Reg rbx, ONone)
        :: [(Oret, ONone, ONone)])
    (length (@nil instr))
    = ([(Omov, Reg rbx, Reg rdi); (Omov, Reg rax, Reg rsi);
        (Oadd, Reg rax, Reg rsi)], (length (@nil instr) + 4)%nat) /\
  Some 18 = Some 18.
Proof.
  apply (long_window_collapse_sound 64 [] [(Oret, ONone, ONone)]
           (Reg rdi) ONone ONone rbx (Omov, Reg rax, Reg rsi)
           (Oadd, Reg rax, Reg rsi) (fun _ => 0) [7; 9] 18 (Some 18)).
  - reflexivity.
  - reflexivity.
  - intros r. split; [lia|reflexivity].
  - vm_compute. reflexivity.
  - vm_compute. reflexivity.
Defined.

(** ** The decoder and the IR builder *)

Lemma nth_error_rest self k :
  nth_error (Compiler.bytecode self) (Compiler.index self + k) =
  nth_error (rest_of self) k.
Proof. unfold rest_of. rewrite nth_error_skipn. reflexivity. Qed.

Lemma decode_rest PRE36 opname_table self :
  Compiler.decode PRE36 opname_table self =
  match decode_bytes PRE36 opname_table (rest_of self) with
  | Ok (op, arg, w) =>
      Ok (op, arg,
          Compiler.mk (Compiler.bytecode self) (Compiler.constants self)
                      (Compiler.index self + w))
  | Raise e => Raise e
  end.
Proof.
  pose proof (nth_error_rest self 0) as E0.
  pose proof (nth_error_rest self 1) as E1.
  pose proof (nth_error_rest self 2) as E2.
  rewrite Nat.add_0_r in E0.
  replace (Compiler.index self + 1)%nat with (S (Compiler.index self))
    in E1 by lia.
  replace (Compiler.index self + 2)%nat with (S (S (Compiler.index self)))
    in E2 by lia.
  unfold Compiler.decode, Compiler.fetch, getitem.
  cbn [Compiler.bytecode Compiler.index Compiler.constants].
  destruct (rest_of self) as [|opcode [|lo [|hi r]]];
    rewrite E0; simpl (nth_error _ 0);
    cbn [bind decode_bytes]; try reflexivity;
    destruct (Compiler.startswith_noarg _), PRE36;
    cbn [negb bind fst snd Compiler.bytecode Compiler.index
         Compiler.constants];
    rewrite ?E1; simpl (nth_error _ 1);
    cbn [negb bind fst snd Compiler.bytecode Compiler.index
         Compiler.constants];
    rewrite ?E2; simpl (nth_error _ 2);
    cbn [negb bind fst snd Compiler.bytecode Compiler.index
         Compiler.constants];
    try reflexivity; repeat (f_equal; try lia).
Qed.

Lemma rest_of_length self :
  length (rest_of self) =
  (length (Compiler.bytecode self) - Compiler.index self)%nat.
Proof. apply length_skipn. Qed.

Lemma index_in_range self :
  (Compiler.index self <? length (Compiler.bytecode self))%nat =
  match rest_of self with [] => false | _ :: _ => true end.
Proof.
  pose proof (rest_of_length self) as L.
  destruct (rest_of self); simpl in L.
  - apply Nat.ltb_ge. lia.
  - apply Nat.ltb_lt. lia.
Qed.

Lemma decode_bytes_width PRE36 opname_table rest op arg w :
  decode_bytes PRE36 opname_table rest = Ok (op, arg, w) ->
  (1 <= w <= length rest)%nat.
Proof.
  unfold decode_bytes.
  destruct rest as [|o [|lo [|hi r]]]; try discriminate;
    destruct (Compiler.startswith_noarg _), PRE36; try discriminate;
    intros H; inversion H; simpl; lia.
Qed.

Lemma decode_bytes_app PRE36 opname_table rest more r :
  decode_bytes PRE36 opname_table rest = Ok r ->
  decode_bytes PRE36 opname_table (rest ++ more) = Ok r.
Proof.
  unfold decode_bytes.
  destruct rest as [|o [|lo [|hi t]]]; try discriminate; cbn [app];
    destruct (Compiler.startswith_noarg _), PRE36; try discriminate; auto.
Qed.

Lemma template_constants s t op arg :
  Compiler.constants s = Compiler.constants t ->
  Compiler.template s op arg = Compiler.template t op arg.
Proof.
  intros H. unfold Compiler.template, Compiler.constant. rewrite H.
  reflexivity.
Qed.

(** [compile] only looks at the bytes from the cursor on and at the
    constants. *)
Lemma compile_rest PRE36 opname_table n : forall s t,
  (length (rest_of s) <= n)%nat ->
  rest_of s = rest_of t ->
  Compiler.constants s = Compiler.constants t ->
  Compiler.compile PRE36 opname_table s =
  Compiler.compile PRE36 opname_table t.
Proof.
  induction n as [|n IH]; intros s t Hn Hr Hc;
    rewrite (compile_eq PRE36 opname_table s),
            (compile_eq PRE36 opname_table t),
            !index_in_range, !decode_rest, <- Hr;
    destruct (rest_of s) as [|o r] eqn:R; try reflexivity;
    [simpl in Hn; lia|].
  destruct (decode_bytes PRE36 opname_table (o :: r)) as [[[op arg] w]|e]
    eqn:D; [|reflexivity].
  pose proof (decode_bytes_width _ _ _ _ _ _ D) as Hw.
  rewrite (template_constants _ (Compiler.mk (Compiler.bytecode t)
             (Compiler.constants t) (Compiler.index t + w)) op arg)
    by exact Hc.
  destruct (Compiler.template _ op arg); [|reflexivity].
  rewrite (IH (Compiler.mk (Compiler.bytecode s) (Compiler.constants s)
                           (Compiler.index s + w))
              (Compiler.mk (Compiler.bytecode t) (Compiler.constants t)
                           (Compiler.index t + w))); [reflexivity| | |exact Hc].
  - unfold rest_of in *. cbn [Compiler.bytecode Compiler.index].
    rewrite Nat.add_comm, <- skipn_skipn, R, length_skipn.
    cbn [length] in *. lia.
  - unfold rest_of in *. cbn [Compiler.bytecode Compiler.index].
    rewrite (Nat.add_comm (Compiler.index s)),
            (Nat.add_comm (Compiler.index t)), <- !skipn_skipn, <- Hr, R.
    reflexivity.
Qed.

Lemma compile_from_cursor PRE36 opname_table bc consts i :
  Compiler.compile PRE36 opname_table (Compiler.mk bc consts i) =
  Compiler.compile PRE36 opname_table (Compiler.mk (skipn i bc) consts 0).
Proof.
  apply (compile_rest PRE36 opname_table
           (length (rest_of (Compiler.mk bc consts i)))); auto.
Qed.

Lemma compile_app_ok PRE36 opname_table consts n : forall bc1 bc2 ir1,
  (length bc1 <= n)%nat ->
  Compiler.compile PRE36 opname_table (Compiler.mk bc1 consts 0) = Ok ir1 ->
  Compiler.compile PRE36 opname_table (Compiler.mk (bc1 ++ bc2) consts 0) =
  (ir2 <- Compiler.compile PRE36 opname_table (Compiler.mk bc2 consts 0) ;;
   Ok (ir1 ++ ir2)).
Proof.
  induction n as [|n IH]; intros bc1 bc2 ir1 Hn H1;
    rewrite compile_eq, index_in_range, decode_rest in H1;
    unfold rest_of in H1; cbn [Compiler.bytecode Compiler.index
      Compiler.constants skipn] in H1;
    destruct bc1 as [|o r]; try (simpl in Hn; lia).
  1, 2: inversion H1; subst ir1; cbn [app];
    destruct (Compiler.compile _ _ _); reflexivity.
  destruct (decode_bytes PRE36 opname_table (o :: r)) as [[[op arg] w]|e]
    eqn:D; [|discriminate].
  pose proof (decode_bytes_width _ _ _ _ _ _ D) as Hw.
  destruct (Compiler.template _ op arg) as [t|] eqn:T; [|discriminate].
  rewrite compile_from_cursor in H1.
  destruct (Compiler.compile _ _ (Compiler.mk (skipn (0 + w) (o :: r)) _ _))
    as [rest_ir|] eqn:C; [|discriminate].
  inversion H1; subst ir1; clear H1.
  rewrite (compile_eq PRE36 opname_table (Compiler.mk ((o :: r) ++ bc2) _ _)),
    index_in_range, decode_rest.
  unfold rest_of. cbn [Compiler.bytecode Compiler.index Compiler.constants].
  rewrite skipn_O. cbn [app].
  change (o :: r ++ bc2) with ((o :: r) ++ bc2).
  rewrite (decode_bytes_app _ _ _ bc2 _ D).
  rewrite (template_constants _ (Compiler.mk (o :: r) consts (0 + w)) op arg)
    by reflexivity.
  rewrite T, compile_from_cursor.
  rewrite skipn_app.
  replace (0 + w - length (o :: r))%nat with 0%nat by lia.
  rewrite skipn_O.
  rewrite (IH (skipn (0 + w) (o :: r)) bc2 rest_ir);
    [|rewrite length_skipn; cbn [length] in *; lia|exact C].
  destruct (Compiler.compile _ _ (Compiler.mk bc2 _ _)); simpl;
    [rewrite app_assoc|]; reflexivity.
Qed.

(** X10. [decode] reads one instruction off the bytes at the cursor and
    nothing else.  From CPython 3.6 on it takes two bytes: the opcode and
    its argument, which is dropped for the UNARY, BINARY, INPLACE and
    RETURN opcodes.  Before 3.6 it takes one byte for those opcodes and
    three for the others, the argument being the 16-bit little-endian value
    of the last two.  It moves the cursor past what it took, leaves the
    bytecode and the constants alone, and raises [IndexError] exactly when
    the instruction is cut short by the end of the bytecode. *)
Theorem decode_reads_one_instruction
  (PRE36 : bool) (opname_table : Z -> String.string) (self : Compiler.t) :
  Compiler.decode PRE36 opname_table self =
  match decode_bytes PRE36 opname_table (rest_of self) with
  | Ok (op, arg, w) =>
      Ok (op, arg,
          Compiler.mk (Compiler.bytecode self) (Compiler.constants self)
                      (Compiler.index self + w))
  | Raise e => Raise e
  end.
Proof. apply decode_rest. Qed.

(** X11. The IR builder is compositional.  Resumed at a cursor it yields
    what it yields on the bytes from the cursor on; and when a bytecode
    compiles, the IR of that bytecode followed by more bytes is its IR
    followed by the IR of the further bytes (or the error they raise). *)
Theorem compile_concatenation
  (PRE36 : bool) (opname_table : Z -> String.string)
  (consts : list pyconst) (bc1 bc2 : list Z) (ir1 : list instr) :
  Compiler.compile PRE36 opname_table (Compiler.mk bc1 consts 0) = Ok ir1 ->
  Compiler.compile PRE36 opname_table (Compiler.mk (bc1 ++ bc2) consts 0) =
  (ir2 <- Compiler.compile PRE36 opname_table (Compiler.mk bc2 consts 0) ;;
   Ok (ir1 ++ ir2)) /\
  Compiler.compile PRE36 opname_table
    (Compiler.mk (bc1 ++ bc2) consts (length bc1)) =
  Compiler.compile PRE36 opname_table (Compiler.mk bc2 consts 0).
Proof.
  intros H. split.
  - apply (compile_app_ok PRE36 opname_table consts (length bc1));
      [lia|exact H].
  - rewrite compile_from_cursor, skipn_app, skipn_all, Nat.sub_diag.
    reflexivity.
Qed.

Lemma compile_concatenation_witness :
  Compiler.compile false CPython.opname
    (Compiler.mk ([124; 0; 124; 1] ++ [23; 0; 83; 0]) [CNone] 0) =
  (ir2 <- Compiler.compile false CPython.opname
            (Compiler.mk [23; 0; 83; 0] [CNone] 0) ;;
   Ok ([(Opush, Reg rdi, ONone); (Opush, Reg rsi, ONone)] ++ ir2)).
Proof.
  apply (compile_concatenation false CPython.opname [CNone]
           [124; 0; 124; 1] [23; 0; 83; 0]
           [(Opush, Reg rdi, ONone); (Opush, Reg rsi, ONone)]).
  reflexivity.
Defined.

(** Whatever holds of the instructions of every branch of [compile] holds
    of the instructions of its result. *)
Lemma compile_forall PRE36 opname_table (P : instr -> Prop) :
  (forall s op arg t, Compiler.template s op arg = Ok t -> Forall P t) ->
  forall n self ir,
    (length (rest_of self) <= n)%nat ->
    Compiler.compile PRE36 opname_table self = Ok ir -> Forall P ir.
Proof.
  intros HT. induction n as [|n IH]; intros self ir Hn H;
    rewrite compile_eq, index_in_range in H;
    destruct (rest_of self) as [|o r] eqn:R;
    try (inversion H; constructor); try (simpl in Hn; lia).
  destruct (Compiler.decode PRE36 opname_table self)
    as [[[op arg] self1]|] eqn:D; [|discriminate].
  destruct (Compiler.template self1 op arg) as [t|] eqn:T; [|discriminate].
  destruct (Compiler.compile PRE36 opname_table self1) as [rest|] eqn:C;
    [|discriminate].
  inversion H; subst ir. apply Forall_app. split; [eapply HT; eauto|].
  apply (IH self1); [|exact C].
  rewrite decode_rest, R in D.
  destruct (decode_bytes _ _ (o :: r)) as [[[op' arg'] w]|] eqn:B;
    [|discriminate].
  pose proof (decode_bytes_width _ _ _ _ _ _ B) as Hw.
  inversion D; subst. unfold rest_of in *.
  cbn [Compiler.bytecode Compiler.index].
  rewrite Nat.add_comm, <- skipn_skipn, R, length_skipn.
  cbn [length] in *. lia.
Qed.

Lemma variable_built arg v :
  Compiler.variable arg = Ok v ->
  exists r, v = Reg r /\ existsb (reg_eqb r) [rdi; rsi; rdx; rcx] = true.
Proof.
  unfold Compiler.variable, getitem. destruct arg as [n|]; [|discriminate].
  destruct (Z.to_nat n) as [|[|[|[|k]]]]; simpl;
    try (destruct k; discriminate);
    intros H; inversion H; eexists; split; reflexivity.
Qed.

Lemma template_built s op arg t :
  Compiler.template s op arg = Ok t -> Forall (fun i => built i = true) t.
Proof.
  unfold Compiler.template, Compiler.constant.
  repeat match goal with
    | |- context [if ?c then _ else _] => destruct c
    end;
    try discriminate.
  all: try solve [intros H; inversion H; repeat constructor].
  - intros H. apply bind_ok in H. destruct H as (v & Hv & H).
    apply variable_built in Hv. destruct Hv as (r & -> & Hr).
    inversion H. repeat constructor. simpl in *. rewrite Hr.
    apply orb_true_r.
  - intros H. apply bind_ok in H. destruct H as (v & Hv & H).
    apply variable_built in Hv. destruct Hv as (r & -> & Hr).
    inversion H. repeat constructor. simpl in *. exact Hr.
  - destruct arg as [n|]; [|discriminate]. intros H.
    apply bind_ok in H. destruct H as (c & Hc & H).
    apply bind_ok in Hc. destruct Hc as (k & _ & Hk).
    inversion Hk; subst c. inversion H.
    destruct k; repeat constructor.
Qed.

Lemma built_no_stack_pointer i :
  built i = true -> uses_reg rsp i = false /\ uses_reg rbp i = false.
Proof.
  destruct i as [[op a] b].
  destruct op, a as [[]|?|], b as [[]|?|]; simpl; intros H;
    try discriminate; split; reflexivity.
Qed.

(** X12. Every instruction [Compiler.compile] yields has one of the shapes
    of its branches: the only registers it names are [rax], [rbx] and the
    four argument registers, so the stack pointer and the frame pointer are
    never an operand. *)
Theorem compile_never_names_stack_pointer
  (PRE36 : bool) (opname_table : Z -> String.string)
  (self : Compiler.t) (ir : list instr) :
  Compiler.compile PRE36 opname_table self = Ok ir ->
  Forall (fun i => built i = true /\
                   uses_reg rsp i = false /\ uses_reg rbp i = false) ir.
Proof.
  intros H.
  apply (compile_forall PRE36 opname_table _) with
    (n := length (rest_of self)) (self := self); [|lia|exact H].
  intros s op arg t Ht. apply template_built in Ht.
  eapply Forall_impl; [|exact Ht].
  intros i Hi. split; [exact Hi|apply built_no_stack_pointer, Hi].
Qed.

Lemma compile_never_names_stack_pointer_witness :
  Forall (fun i => built i = true /\
                   uses_reg rsp i = false /\ uses_reg rbp i = false)
         [(Opush, Reg rdi, ONone); (Opop, Reg rax, ONone);
          (Oret, ONone, ONone)].
Proof.
  apply (compile_never_names_stack_pointer false CPython.opname
           (Compiler.mk [124; 0; 83; 0] [CNone] 0)).
  reflexivity.
Defined.

(** ** Routines the assembler cannot take *)

Lemma optimize_filter ir :
  filter not_stack_traffic (optimize ir) = filter not_stack_traffic ir.
Proof.
  unfold optimize.
  destruct (optimize_from_facts ir (length ir) 0 ltac:(lia)) as (_ & E & _).
  exact E.
Qed.

Lemma optimize_loop_filter ir :
  filter not_stack_traffic (optimize_loop ir) = filter not_stack_traffic ir.
Proof.
  remember (length ir) as n eqn:En.
  revert ir En. induction n as [n IH] using lt_wf_ind. intros ir En.
  rewrite optimize_loop_eq.
  destruct (_ =? 0) eqn:Hred; [apply optimize_filter|].
  apply Z.eqb_neq in Hred. pose proof (optimize_length ir).
  rewrite (IH (length (optimize ir))); [apply optimize_filter|lia|reflexivity].
Qed.

Lemma compile_contains_neg PRE36 opname_table self self' opcode :
  at_instruction PRE36 opname_table self self' ->
  opcode_at self' = Some opcode ->
  opname_table opcode = "UNARY_NEGATIVE"%string ->
  forall ir, Compiler.compile PRE36 opname_table self = Ok ir ->
  In (Oneg, Reg rax, ONone) ir.
Proof.
  intros Hat. induction Hat as [self|self op arg self1 self' Hd _ IH];
    intros Ho Hn ir Hc; rewrite compile_eq in Hc.
  - rewrite (opcode_at_lt _ _ Ho) in Hc.
    destruct (Compiler.decode PRE36 opname_table self)
      as [[[op arg] s2]|] eqn:Hd; [|discriminate].
    destruct (decode_opname _ _ _ _ _ _ Hd) as (opcode' & Ho' & ->).
    assert (opcode' = opcode) by congruence. subst opcode'.
    rewrite Hn in Hc.
    change (Compiler.template s2 "UNARY_NEGATIVE"%string arg)
      with (@Ok (list instr) [(Opop, Reg rax, ONone); (Oneg, Reg rax, ONone);
                              (Opush, Reg rax, ONone)]) in Hc.
    destruct (Compiler.compile PRE36 opname_table s2); [|discriminate].
    inversion Hc. simpl. auto.
  - destruct (decode_opname _ _ _ _ _ _ Hd) as (opcode1 & Ho1 & _).
    rewrite (opcode_at_lt _ _ Ho1), Hd in Hc.
    destruct (Compiler.template self1 op arg); [|discriminate].
    destruct (Compiler.compile PRE36 opname_table self1) as [r|] eqn:C;
      [|discriminate].
    inversion Hc. apply in_or_app. right. apply (IH Ho Hn r eq_refl).
Qed.

Lemma code_of_in_raises i e : forall ir,
  In i ir -> encoding i = Raise e -> exists e', code_of ir = Raise e'.
Proof.
  induction ir as [|j ir IH]; intros Hin He; [destruct Hin|].
  cbn [code_of]. destruct Hin as [->|Hin].
  - rewrite He. simpl. eauto.
  - destruct (encoding j); simpl; [|eauto].
    destruct (IH Hin He) as [e' ->]. simpl. eauto.
Qed.

(** X13. A routine that negates is never run natively.  If the decoder
    arrives at an opcode named UNARY_NEGATIVE, [compile_native] raises: the
    builder yields a [neg], no pass of the optimiser removes it, and the
    emitter for it raises (unless something raised before).  The wrapper
    stores the Python function at the first call and calls it from then
    on. *)
Theorem negation_never_native
  (PRE36 : bool) (opname_table : Z -> String.string) (PAGESIZE : nat)
  (R : Type) (function : list Z -> R) (code : CPython.codeobj)
  (self' : Compiler.t) (opcode : Z) :
  at_instruction PRE36 opname_table
    (Compiler.mk (CPython.co_code code) (CPython.co_consts code) 0) self' ->
  opcode_at self' = Some opcode ->
  opname_table opcode = "UNARY_NEGATIVE"%string ->
  exists e,
    compile_native PRE36 opname_table PAGESIZE code = Raise e /\
    forall inv rest,
      calls PRE36 opname_table PAGESIZE function code None (inv :: rest) =
      (Some Python,
       [EvCompile; EvDiagnostic e]
         ++ map (fun _ => EvCallPython) (inv :: rest),
       map (fun i => FromPython (function (args i))) (inv :: rest)).
Proof.
  intros Hat Ho Hn.
  assert (Hraise : exists e,
             compile_native PRE36 opname_table PAGESIZE code = Raise e).
  { unfold compile_native.
    destruct (Compiler.compile PRE36 opname_table _) as [ir|e] eqn:C;
      [|simpl; eauto].
    cbn [bind].
    pose proof (compile_contains_neg _ _ _ _ _ Hat Ho Hn ir C) as Hin.
    assert (Hin' : In (Oneg, Reg rax, ONone) (optimize_loop ir)).
    { apply (filter_In not_stack_traffic).
      rewrite optimize_loop_filter. apply filter_In. split; [exact Hin|].
      reflexivity. }
    destruct (code_of_in_raises _ AttributeError _ Hin' eq_refl) as [e' He'].
    apply (code_of_raises _ e'). exact He'. }
  destruct Hraise as [e He]. exists e. split; [exact He|].
  intros inv rest. apply calls_fallback. exact He.
Qed.

Lemma negation_never_native_witness :
  exists e,
    compile_native false CPython.opname 4096 negate = Raise e /\
    forall inv rest,
      calls false CPython.opname 4096 (CPython.call negate) negate None
            (inv :: rest) =
      (Some Python,
       [EvCompile; EvDiagnostic e]
         ++ map (fun _ => EvCallPython) (inv :: rest),
       map (fun i => FromPython (CPython.call negate (args i)))
           (inv :: rest)).
Proof.
  apply (negation_never_native false CPython.opname 4096 (option Z)
           (CPython.call negate) negate
           (Compiler.mk (CPython.co_code negate) (CPython.co_consts negate) 2)
           11).
  - eapply at_next; [reflexivity|]. apply at_start.
  - reflexivity.
  - reflexivity.
Defined.

(** X14. A pass leaves alone a list without stack traffic: when no
    instruction of the list is a [mov], a [push] or a [pop], [optimize]
    returns the list itself. *)
Theorem optimize_identity_without_traffic (ir : list instr) :
  forallb not_stack_traffic ir = true -> optimize ir = ir.
Proof.
  intros H.
  assert (F : filter not_stack_traffic ir = ir).
  { apply forallb_filter_id. exact H. }
  pose proof (optimize_filter ir) as E. rewrite F in E.
  pose proof (optimize_length ir) as L.
  pose proof (filter_length_le not_stack_traffic (optimize ir)) as L'.
  rewrite E in L'.
  assert (Hl : length (optimize ir) = length ir) by lia.
  unfold optimize in *.
  destruct (optimize_from_facts ir (length ir) 0 ltac:(lia)) as (_ & _ & Hs).
  rewrite Nat.sub_0_r in Hs. apply Hs. exact Hl.
Qed.

Lemma optimize_identity_without_traffic_witness :
  optimize [(Oadd, Reg rax, Reg rbx); (Oret, ONone, ONone)] =
  [(Oadd, Reg rax, Reg rbx); (Oret, ONone, ONone)].
Proof.
  apply (optimize_identity_without_traffic
           [(Oadd, Reg rax, Reg rbx); (Oret, ONone, ONone)]).
  reflexivity.
Defined.

(** ** The builder against the interpreter *)

Lemma eval_balanced_eval consts code : forall f v,
  eval_balanced consts code f = Some v -> CPython.eval consts code f = Some v.
Proof.
  remember (length code) as n eqn:En. revert code En.
  induction n as [n IH] using lt_wf_ind. intros code En f v H.
  destruct code as [|o [|a rest]]; try discriminate.
  cbn [eval_balanced CPython.eval] in *.
  destruct (CPython.exec consts (CPython.opname o) (Some a) f) as [f'|w|];
    try discriminate.
  - apply (IH (length rest)); [simpl in En; lia|reflexivity|exact H].
  - destruct (CPython.stack f) as [|x [|y s]]; try discriminate.
    exact H.
Qed.

Lemma wrap64_idem' a : X86.wrap64 (X86.wrap64 a) = X86.wrap64 a.
Proof. unfold X86.wrap64. apply Z.mod_mod. discriminate. Qed.

Lemma wrap64_signed a : X86.wrap64 (X86.signed64 a) = X86.wrap64 a.
Proof.
  unfold X86.signed64. destruct (_ <? _); [apply wrap64_idem'|].
  unfold X86.wrap64.
  rewrite <- (Z.mod_add (a mod 2 ^ 64 - 2 ^ 64) 1 (2 ^ 64)) by discriminate.
  replace (a mod 2 ^ 64 - 2 ^ 64 + 1 * 2 ^ 64) with (a mod 2 ^ 64) by lia.
  apply Z.mod_mod. discriminate.
Qed.

Lemma signed64_wrap_eq a b :
  X86.wrap64 a = X86.wrap64 b -> X86.signed64 a = X86.signed64 b.
Proof. unfold X86.signed64. intros ->. reflexivity. Qed.

Lemma wrap64_add a b a' b' :
  X86.wrap64 a = X86.wrap64 a' -> X86.wrap64 b = X86.wrap64 b' ->
  X86.wrap64 (a + b) = X86.wrap64 (a' + b').
Proof.
  unfold X86.wrap64. intros Ha Hb.
  rewrite (Z.add_mod a), (Z.add_mod a'), Ha, Hb by discriminate.
  reflexivity.
Qed.

Lemma wrap64_sub a b a' b' :
  X86.wrap64 a = X86.wrap64 a' -> X86.wrap64 b = X86.wrap64 b' ->
  X86.wrap64 (a - b) = X86.wrap64 (a' - b').
Proof.
  unfold X86.wrap64. intros Ha Hb.
  rewrite (Zminus_mod a), (Zminus_mod a'), Ha, Hb. reflexivity.
Qed.

Lemma wrap64_mul a b a' b' :
  X86.wrap64 a = X86.wrap64 a' -> X86.wrap64 b = X86.wrap64 b' ->
  X86.wrap64 (a * b) = X86.wrap64 (a' * b').
Proof.
  unfold X86.wrap64. intros Ha Hb.
  rewrite (Z.mul_mod a), (Z.mul_mod a'), Ha, Hb by discriminate.
  reflexivity.
Qed.

Lemma var_reg_cases n r :
  var_reg n = Some r ->
  (n = 0%nat /\ r = rdi) \/ (n = 1%nat /\ r = rsi) \/
  (n = 2%nat /\ r = rdx) \/ (n = 3%nat /\ r = rcx).
Proof.
  unfold var_reg. destruct n as [|[|[|[|n]]]]; simpl; intros H;
    inversion H; auto. destruct n; discriminate.
Qed.

Lemma variable_var_reg a v :
  Compiler.variable (Some a) = Ok v ->
  exists r, v = Reg r /\ var_reg (Z.to_nat a) = Some r.
Proof.
  unfold Compiler.variable, getitem, var_reg.
  destruct (nth_error _ _) as [r|]; [|discriminate].
  intros H. inversion H. eauto.
Qed.

(** A step that keeps the argument registers keeps the locals. *)
Lemma represents_keep st st' f stk :
  represents st f ->
  (forall n r, var_reg n = Some r -> X86.regs st' r = X86.regs st r) ->
  Forall2 (fun w x => X86.wrap64 w = X86.wrap64 x) (X86.stack st') stk ->
  represents st' (CPython.mkframe (CPython.fast f) stk).
Proof.
  intros [Hr _] Hk Hs. split; [|exact Hs].
  intros n r x Hv Hf. rewrite (Hk n r Hv). apply (Hr n r x Hv Hf).
Qed.

Ltac var_regs :=
  let n := fresh "n" in let r := fresh "r" in let H := fresh "H" in
  intros n r H; apply var_reg_cases in H;
  destruct H as [[_ ->]|[[_ ->]|[[_ ->]|[_ ->]]]]; reflexivity.

Lemma sim_load_fast st f n r x :
  represents st f -> var_reg n = Some r -> CPython.fast f n = Some x ->
  exists st',
    exec_prefix [X86.PUSH r] st = Running st' /\
    represents st' (CPython.mkframe (CPython.fast f) (x :: CPython.stack f)).
Proof.
  intros H Hv Hf. eexists. split; [reflexivity|].
  apply (represents_keep st); [exact H| |].
  - cbn [X86.regs]. unfold X86.set_reg. var_regs.
  - cbn [X86.stack]. constructor; [|apply H].
    destruct H as [Hr _]. apply (Hr n r x Hv Hf).
Qed.

Lemma sim_load_const st f v :
  represents st f ->
  exists st',
    exec_prefix [X86.MOVABS rax v; X86.PUSH rax] st = Running st' /\
    represents st' (CPython.mkframe (CPython.fast f) (v :: CPython.stack f)).
Proof.
  intros H. eexists. split; [reflexivity|].
  apply (represents_keep st); [exact H| |].
  - cbn [X86.regs]. unfold X86.set_reg. var_regs.
  - cbn [X86.stack X86.regs]. unfold X86.set_reg. cbn [reg_eqb].
    constructor; [apply wrap64_idem'|apply H].
Qed.

Lemma sim_store_fast st f n r x stk :
  represents st f -> var_reg n = Some r -> CPython.stack f = x :: stk ->
  exists st',
    exec_prefix [X86.POP rax; X86.MOV r rax] st = Running st' /\
    represents st'
      (CPython.mkframe (CPython.store n x (CPython.fast f)) stk).
Proof.
  intros [Hr Hs] Hv Hf. rewrite Hf in Hs.
  inversion Hs as [|w x' ws stk' Hw Hws Ew]; subst.
  cbn [exec_prefix]. unfold X86.step at 1. cbn [X86.writes_rsp reg_eqb].
  rewrite <- Ew.
  apply var_reg_cases in Hv.
  destruct Hv as [[-> ->]|[[-> ->]|[[-> ->]|[-> ->]]]];
    (eexists; split; [reflexivity|]); (split; [|exact Hws]);
    intros m r' y Hm Hy; cbn [CPython.fast] in Hy; unfold CPython.store in Hy;
    apply var_reg_cases in Hm;
    destruct Hm as [[-> ->]|[[-> ->]|[[-> ->]|[-> ->]]]];
    cbn [Nat.eqb] in Hy; cbn [X86.regs]; unfold X86.set_reg;
    cbn [reg_eqb];
    try (inversion Hy; subst y; rewrite !wrap64_idem'; exact Hw);
    (eapply Hr; [|exact Hy]; reflexivity).
Qed.

Ltac two_on_stack Hs Hf :=
  rewrite Hf in Hs;
  let T := fresh "T" in
  inversion Hs as [|w0 x0 ws0 k0 Hw0 T]; subst;
  inversion T as [|w1 x1 ws k1 Hw1 Hws]; subst; clear T.

Lemma sim_binary_multiply st f tos tos1 stk :
  represents st f -> CPython.stack f = tos :: tos1 :: stk ->
  exists st',
    exec_prefix [X86.POP rax; X86.POP rbx; X86.IMUL rax rbx; X86.PUSH rax] st
      = Running st' /\
    represents st' (CPython.mkframe (CPython.fast f) (tos1 * tos :: stk)).
Proof.
  intros H Hf. destruct st as [rf s]. pose proof H as [Hr Hs].
  cbn [X86.stack] in Hs. two_on_stack Hs Hf.
  eexists. split; [reflexivity|].
  apply (represents_keep (X86.mk rf (w0 :: w1 :: ws))); [exact H| |].
  - cbn [X86.regs]. unfold X86.set_reg. var_regs.
  - cbn [X86.stack X86.regs]. unfold X86.set_reg. cbn [reg_eqb].
    constructor; [|assumption].
    rewrite wrap64_idem', Z.mul_comm.
    apply wrap64_mul; rewrite wrap64_signed, wrap64_idem'; assumption.
Qed.

Lemma sim_binary_add st f tos tos1 stk :
  represents st f -> CPython.stack f = tos :: tos1 :: stk ->
  exists st',
    exec_prefix [X86.POP rax; X86.POP rbx; X86.ADD rax rbx; X86.PUSH rax] st
      = Running st' /\
    represents st' (CPython.mkframe (CPython.fast f) (tos1 + tos :: stk)).
Proof.
  intros H Hf. destruct st as [rf s]. pose proof H as [Hr Hs].
  cbn [X86.stack] in Hs. two_on_stack Hs Hf.
  eexists. split; [reflexivity|].
  apply (represents_keep (X86.mk rf (w0 :: w1 :: ws))); [exact H| |].
  - cbn [X86.regs]. unfold X86.set_reg. var_regs.
  - cbn [X86.stack X86.regs]. unfold X86.set_reg. cbn [reg_eqb].
    constructor; [|assumption].
    rewrite wrap64_idem', Z.add_comm.
    apply wrap64_add; rewrite wrap64_idem'; assumption.
Qed.

Lemma sim_binary_subtract st f tos tos1 stk :
  represents st f -> CPython.stack f = tos :: tos1 :: stk ->
  exists st',
    exec_prefix [X86.POP rbx; X86.POP rax; X86.SUB rax rbx; X86.PUSH rax] st
      = Running st' /\
    represents st' (CPython.mkframe (CPython.fast f) (tos1 - tos :: stk)).
Proof.
  intros H Hf. destruct st as [rf s]. pose proof H as [Hr Hs].
  cbn [X86.stack] in Hs. two_on_stack Hs Hf.
  eexists. split; [reflexivity|].
  apply (represents_keep (X86.mk rf (w0 :: w1 :: ws))); [exact H| |].
  - cbn [X86.regs]. unfold X86.set_reg. var_regs.
  - cbn [X86.stack X86.regs]. unfold X86.set_reg. cbn [reg_eqb].
    constructor; [|assumption].
    rewrite wrap64_idem'.
    apply wrap64_sub; rewrite wrap64_idem'; assumption.
Qed.

Lemma sim_return st f v q :
  represents st f -> CPython.stack f = [v] ->
  exec ([X86.POP rax; X86.RET] ++ q) st = Some (X86.signed64 v).
Proof.
  intros [Hr Hs] Hf. destruct st as [rf s]. cbn [X86.stack] in Hs.
  rewrite Hf in Hs. inversion Hs as [|w x0 ws0 k0 Hw T]; subst.
  inversion T; subst. cbn. unfold X86.set_reg. cbn [reg_eqb].
  f_equal. apply signed64_wrap_eq. rewrite wrap64_idem'. exact Hw.
Qed.

(** One step of [compile] on wordcode: two bytes are read, the opcode's
    template is yielded, and the loop goes on with the bytes that
    follow. *)
Lemma compile_wordcode opcode oparg rest consts :
  Compiler.compile false CPython.opname
    (Compiler.mk (opcode :: oparg :: rest) consts 0) =
  match Compiler.template (Compiler.mk rest consts 0)
          (CPython.opname opcode)
          (if Compiler.startswith_noarg (CPython.opname opcode)
           then None else Some oparg) with
  | Raise e => Raise e
  | Ok t =>
      match Compiler.compile false CPython.opname
              (Compiler.mk rest consts 0) with
      | Raise e => Raise e
      | Ok r => Ok (t ++ r)
      end
  end.
Proof.
  rewrite compile_eq, index_in_range, decode_rest.
  unfold rest_of, decode_bytes.
  cbn [Compiler.bytecode Compiler.index Compiler.constants skipn].
  destruct (Compiler.startswith_noarg (CPython.opname opcode));
    rewrite compile_from_cursor; cbn [skipn Nat.add];
    rewrite (template_constants _ (Compiler.mk rest consts 0))
      by reflexivity;
    reflexivity.
Qed.

Lemma insns_of_cons i rest xs :
  insns_of (i :: rest) = Some xs ->
  exists x ys, insn_of i = Some x /\ insns_of rest = Some ys /\ xs = x :: ys.
Proof.
  cbn [insns_of]. destruct (insn_of i) as [x|]; [|discriminate].
  destruct (insns_of rest) as [ys|]; [|discriminate].
  intros H. inversion H. eauto.
Qed.

Ltac string_case op lit E :=
  destruct (String.eqb op lit) eqn:E;
  [apply String.eqb_eq in E; subst op|].

Section Simulation.

Variable consts : list pyconst.
Hypothesis Hsmall : small_constants consts.

(** One bytecode against its template. *)
Lemma template_simulation s op oparg f t xs st :
  Compiler.constants s = consts ->
  Compiler.template s op
    (if Compiler.startswith_noarg op then None else Some oparg) = Ok t ->
  insns_of t = Some xs ->
  represents st f ->
  match CPython.exec consts op (Some oparg) f with
  | CPython.Next f' =>
      exists st', exec_prefix xs st = Running st' /\ represents st' f'
  | CPython.Return v =>
      forall x, CPython.stack f = [x] ->
      forall q, exec (xs ++ q) st = Some (X86.signed64 v)
  | CPython.Stuck => True
  end.
Proof.
  intros Hc Ht Hx Hrep.
  unfold Compiler.template, Compiler.op_in in Ht. unfold CPython.exec.
  cbn [existsb] in Ht.
  string_case op "LOAD_FAST"%string E1.
  { change (Compiler.startswith_noarg "LOAD_FAST"%string) with false in Ht.
    cbv iota in Ht.
    destruct (Compiler.variable (Some oparg)) as [v|] eqn:Hv;
      [|discriminate Ht].
    apply variable_var_reg in Hv. destruct Hv as (r & -> & Hr).
    cbn [bind] in Ht. inversion Ht; subst t; clear Ht.
    cbn [insns_of] in Hx.
    rewrite (proj1 (proj2 (proj2 (proj2 (proj2 (insn_of_table r r 0))))))
      in Hx.
    inversion Hx; subst xs; clear Hx.
    destruct (CPython.fast f (Z.to_nat oparg)) as [x|] eqn:Hf; [|exact I].
    eapply sim_load_fast; eassumption. }
  string_case op "STORE_FAST"%string E2.
  { change (Compiler.startswith_noarg "STORE_FAST"%string) with false in Ht.
    cbv iota in Ht.
    destruct (Compiler.variable (Some oparg)) as [v|] eqn:Hv;
      [|discriminate Ht].
    apply variable_var_reg in Hv. destruct Hv as (r & -> & Hr).
    cbn [bind] in Ht. inversion Ht; subst t; clear Ht.
    cbn [insns_of] in Hx.
    destruct (insn_of_table r rax 0) as (Hmov & _).
    rewrite Hmov in Hx.
    change (insn_of (Opop, Reg rax, ONone)) with (Some (X86.POP rax)) in Hx.
    inversion Hx; subst xs; clear Hx.
    destruct (CPython.stack f) as [|x stk] eqn:Hf; [exact I|].
    eapply sim_store_fast; eassumption. }
  string_case op "LOAD_CONST"%string E3.
  { change (Compiler.startswith_noarg "LOAD_CONST"%string) with false in Ht.
    cbv iota in Ht. unfold Compiler.constant, getitem in Ht.
    rewrite Hc in Ht.
    destruct (nth_error consts (Z.to_nat oparg)) as [[v|]|] eqn:Hn;
      try exact I.
    cbn [bind operand_of_const] in Ht. inversion Ht; subst t; clear Ht.
    cbn [insns_of] in Hx. rewrite insn_of_immediate in Hx.
    change (insn_of (Opush, Reg rax, ONone)) with (Some (X86.PUSH rax)) in Hx.
    inversion Hx; subst xs; clear Hx.
    rewrite Z.mod_small by (apply Hsmall; eapply nth_error_In; exact Hn).
    apply sim_load_const. exact Hrep. }
  string_case op "BINARY_MULTIPLY"%string E4.
  { inversion Ht; subst t; clear Ht.
    vm_compute in Hx. inversion Hx; subst xs; clear Hx.
    unfold CPython.binary.
    destruct (CPython.stack f) as [|tos [|tos1 stk]] eqn:Hf; try exact I.
    eapply sim_binary_multiply; eassumption. }
  destruct (String.eqb op "BINARY_ADD" || String.eqb op "INPLACE_ADD")
    eqn:E5.
  { rewrite Bool.orb_false_r in Ht. rewrite E5 in Ht.
    inversion Ht; subst t; clear Ht.
    vm_compute in Hx. inversion Hx; subst xs; clear Hx.
    unfold CPython.binary.
    destruct (CPython.stack f) as [|tos [|tos1 stk]] eqn:Hf; try exact I.
    eapply sim_binary_add; eassumption. }
  destruct (String.eqb op "BINARY_SUBTRACT" ||
            String.eqb op "INPLACE_SUBTRACT") eqn:E6.
  { rewrite !Bool.orb_false_r in Ht. rewrite E5, E6 in Ht.
    inversion Ht; subst t; clear Ht.
    vm_compute in Hx. inversion Hx; subst xs; clear Hx.
    unfold CPython.binary.
    destruct (CPython.stack f) as [|tos [|tos1 stk]] eqn:Hf; try exact I.
    eapply sim_binary_subtract; eassumption. }
  rewrite !Bool.orb_false_r in Ht. rewrite E5, E6 in Ht.
  string_case op "UNARY_NEGATIVE"%string E7.
  { inversion Ht; subst t; clear Ht. discriminate Hx. }
  string_case op "RETURN_VALUE"%string E8; [|exact I].
  inversion Ht; subst t; clear Ht.
  vm_compute in Hx. inversion Hx; subst xs; clear Hx.
  destruct (CPython.stack f) as [|v stk] eqn:Hf; [exact I|].
  intros x Hs q. inversion Hs; subst. eapply sim_return; eassumption.
Qed.

(** The whole loop: the instructions built from the wordcode return what
    the interpreter returns, read as a signed 64-bit number. *)
Lemma compile_simulation code : forall ir xs st f v,
  Compiler.compile false CPython.opname (Compiler.mk code consts 0) = Ok ir ->
  insns_of ir = Some xs ->
  represents st f ->
  eval_balanced consts code f = Some v ->
  exec xs st = Some (X86.signed64 v).
Proof.
  remember (length code) as n eqn:En. revert code En.
  induction n as [n IH] using lt_wf_ind.
  intros code En ir xs st f v Hc Hx Hrep He.
  destruct code as [|opcode [|oparg rest]]; try discriminate.
  rewrite compile_wordcode in Hc. cbn [eval_balanced] in He.
  destruct (Compiler.template _ _ _) as [t|] eqn:Ht; [|discriminate].
  destruct (Compiler.compile _ _ _) as [r|] eqn:Hr; [|discriminate].
  inversion Hc; subst ir; clear Hc.
  rewrite insns_of_app in Hx.
  destruct (insns_of t) as [xt|] eqn:Hxt; [|discriminate].
  destruct (insns_of r) as [xr|] eqn:Hxr; [|discriminate].
  inversion Hx; subst xs; clear Hx.
  pose proof (template_simulation (Compiler.mk rest consts 0) _ oparg f t xt
                st eq_refl Ht Hxt Hrep)
    as Hstep.
  destruct (CPython.exec consts (CPython.opname opcode) (Some oparg) f)
    as [f'|w|]; [| |discriminate].
  - destruct Hstep as (st' & Hp & Hrep').
    rewrite exec_app, Hp.
    apply (IH (length rest)) with (code := rest) (ir := r) (f := f');
      try assumption; try reflexivity.
    simpl in En. lia.
  - destruct (CPython.stack f) as [|x [|y stk]] eqn:Hf; try discriminate.
    inversion He; subst w. apply (Hstep x eq_refl).
Qed.

End Simulation.

Lemma bind_args_below args : forall k f n,
  (n < k)%nat -> CPython.bind_args k args f n = f n.
Proof.
  induction args as [|a args IH]; intros k f n Hn; cbn [CPython.bind_args];
    [reflexivity|].
  rewrite IH by lia. unfold CPython.store.
  destruct (Nat.eqb_spec k n); [lia|reflexivity].
Qed.

(** On entry the registers of the calling convention hold words that
    stand for the arguments the interpreter binds to the first four
    locals. *)
Lemma represents_entry caller words args :
  Forall2 (fun w a => X86.wrap64 w = X86.wrap64 a) words args ->
  represents (X86.mk (X86.load_args [rdi; rsi; rdx; rcx] words caller) [])
             (CPython.mkframe (CPython.bind_args 0 args (fun _ => None)) []).
Proof.
  intros H. split; [|constructor].
  cbn [X86.regs CPython.fast]. intros n r x Hv Hf.
  apply var_reg_cases in Hv.
  destruct H as [|w0 a0 ws0 as0 E0 H];
    [|destruct H as [|w1 a1 ws1 as1 E1 H];
      [|destruct H as [|w2 a2 ws2 as2 E2 H];
        [|destruct H as [|w3 a3 ws3 as3 E3 H]]]];
    cbn [CPython.bind_args X86.load_args] in *;
    try rewrite bind_args_below in Hf
      by (destruct Hv as [[-> _]|[[-> _]|[[-> _]|[-> _]]]]; lia);
    destruct Hv as [[-> ->]|[[-> ->]|[[-> ->]|[-> ->]]]];
    unfold CPython.store in Hf; cbn [Nat.eqb] in Hf;
    try discriminate Hf;
    inversion Hf; subst x; unfold X86.set_reg; cbn [reg_eqb];
    rewrite wrap64_idem'; assumption.
Qed.

(** An argument that is a C [int] travels unchanged. *)
Lemma as_c_int_small v :
  - 2 ^ 31 <= v < 2 ^ 31 -> as_c_int v = Some v.
Proof.
  intros H. unfold as_c_int.
  replace ((- 2 ^ 63 <=? v) && (v <? 2 ^ 64)) with true
    by (symmetry; apply andb_true_intro; split;
        [apply Z.leb_le|apply Z.ltb_lt]; lia).
  f_equal.
  destruct (v mod 2 ^ 32 <? 2 ^ 31) eqn:E;
    [apply Z.ltb_lt in E|apply Z.ltb_ge in E];
    change (2 ^ 32) with 4294967296 in *;
    change (2 ^ 31) with 2147483648 in *;
    Z.div_mod_to_equations; lia.
Qed.

(** The words a routine of [S (length front)] arguments receives when its
    last argument is a C [int]: every argument, modulo 2^64. *)
Lemma marshal_last_small front : forall last,
  - 2 ^ 31 <= last < 2 ^ 31 ->
  exists words,
    marshal (argtypes (signature (S (length front)))) (front ++ [last])
      = inr words /\
    Forall2 (fun w a => X86.wrap64 w = X86.wrap64 a) words (front ++ [last]).
Proof.
  intros last Hl. cbn [signature argtypes].
  induction front as [|a front IH]; cbn [length repeat app marshal].
  - rewrite (as_c_int_small last Hl). eexists. split; [reflexivity|].
    repeat constructor.
  - destruct IH as (words & -> & Hw). eexists. split; [reflexivity|].
    constructor; [apply wrap64_idem'|exact Hw].
Qed.

(** X15. The builder is right.  For wordcode (CPython 3.6 and later) whose
    integer constants lie between 0 and 1023, and a call whose last
    argument is a C [int] (from -2^31 to 2^31 - 1; the other arguments are
    any integers): if [Compiler.compile] yields an IR, the assembling loop
    fits that IR, as built, into the page, and the interpreter returns [v]
    with nothing else left on its value stack, then the foreign function
    over that page returns [v] too, read as a signed 64-bit number,
    whatever the caller left in the registers. *)
Theorem builder_agrees_with_interpreter
  (PAGESIZE : nat) (code : CPython.codeobj) (ir : list instr)
  (assembler : Assembler.t) (caller : X86.regfile)
  (front : list Z) (last v : Z) :
  Compiler.compile false CPython.opname
    (Compiler.mk (CPython.co_code code) (CPython.co_consts code) 0) = Ok ir ->
  assemble (Assembler.init PAGESIZE) ir = Ok assembler ->
  small_constants (CPython.co_consts code) ->
  - 2 ^ 31 <= last < 2 ^ 31 ->
  call_balanced code (front ++ [last]) = Some v ->
  CPython.call code (front ++ [last]) = Some v /\
  entry_call (CPython.co_argcount code) assembler caller (front ++ [last])
    = Returned (X86.signed64 v).
Proof.
  intros Hc Ha Hs Hl Hv. unfold call_balanced in Hv. unfold CPython.call.
  destruct (Nat.eqb _ _) eqn:En; [|discriminate]. split.
  - apply eval_balanced_eval. exact Hv.
  - apply Nat.eqb_eq in En. rewrite length_app, Nat.add_comm in En.
    cbn [length Nat.add] in En. rewrite <- En.
    destruct (marshal_last_small front last Hl) as (words & Hm & Hw).
    unfold entry_call. rewrite Hm.
    destruct (native_call_exec PAGESIZE ir assembler Ha) as (xs & Hx & ->).
    rewrite (compile_simulation _ Hs _ _ _ _ _ _ Hc Hx
               (represents_entry caller words _ Hw) Hv).
    reflexivity.
Qed.

Lemma builder_agrees_with_interpreter_witness :
  exists assembler,
    assemble (Assembler.init 64) scaled_difference_ir = Ok assembler /\
    CPython.call scaled_difference ([3] ++ [10]) = Some (-21) /\
    entry_call (CPython.co_argcount scaled_difference) assembler
               (fun _ => 0) ([3] ++ [10]) = Returned (-21).
Proof.
  eexists. split; [vm_compute; reflexivity|].
  apply (builder_agrees_with_interpreter 64 scaled_difference
           scaled_difference_ir _ (fun _ => 0) [3] 10 (-21)).
  - reflexivity.
  - vm_compute. reflexivity.
  - intros n [H|[H|[]]]; inversion H. lia.
  - lia.
  - reflexivity.
Defined.

(** ** Constants that are not integers *)

Lemma at_instruction_constants PRE36 opname_table self self' :
  at_instruction PRE36 opname_table self self' ->
  Compiler.constants self' = Compiler.constants self.
Proof.
  induction 1 as [self|self op arg self1 self' Hd _ IH]; [reflexivity|].
  apply Compiler.decode_advance in Hd. destruct Hd as (_ & C & _).
  congruence.
Qed.

(** What the branch of an instruction the decoder arrives at yields is part
    of what [compile] yields. *)
Lemma compile_contains PRE36 opname_table self self' op arg s2 t :
  at_instruction PRE36 opname_table self self' ->
  Compiler.decode PRE36 opname_table self' = Ok (op, arg, s2) ->
  Compiler.template s2 op arg = Ok t ->
  forall ir, Compiler.compile PRE36 opname_table self = Ok ir ->
  forall i, In i t -> In i ir.
Proof.
  intros Hat. induction Hat as [self|self op1 arg1 self1 self' Hd1 _ IH];
    intros Hd Ht ir Hc i Hi; rewrite compile_eq in Hc.
  - destruct (decode_opname _ _ _ _ _ _ Hd) as (opcode & Ho & _).
    rewrite (opcode_at_lt _ _ Ho), Hd, Ht in Hc.
    destruct (Compiler.compile PRE36 opname_table s2); [|discriminate].
    inversion Hc. apply in_or_app. left. exact Hi.
  - destruct (decode_opname _ _ _ _ _ _ Hd1) as (opcode1 & Ho1 & _).
    rewrite (opcode_at_lt _ _ Ho1), Hd1 in Hc.
    destruct (Compiler.template self1 op1 arg1); [|discriminate].
    destruct (Compiler.compile PRE36 opname_table self1) as [r|] eqn:C;
      [|discriminate].
    inversion Hc. apply in_or_app. right. apply (IH Hd Ht r eq_refl i Hi).
Qed.

(** X17. A routine that loads a constant which is not an integer, such as
    [None], is never run natively.  If the decoder arrives at a LOAD_CONST
    whose argument selects such a constant, [compile_native] raises: the
    builder yields an [immediate] with that constant, no pass of the
    optimiser removes it, and the emitter raises on it (unless something
    raised before).  The wrapper stores the Python function at the first
    call and calls it from then on. *)
Theorem non_integer_constant_never_native
  (PRE36 : bool) (opname_table : Z -> String.string) (PAGESIZE : nat)
  (R : Type) (function : list Z -> R) (code : CPython.codeobj)
  (self' s2 : Compiler.t) (n : Z) :
  at_instruction PRE36 opname_table
    (Compiler.mk (CPython.co_code code) (CPython.co_consts code) 0) self' ->
  Compiler.decode PRE36 opname_table self'
    = Ok ("LOAD_CONST"%string, Some n, s2) ->
  nth_error (CPython.co_consts code) (Z.to_nat n) = Some CNone ->
  exists e,
    compile_native PRE36 opname_table PAGESIZE code = Raise e /\
    forall inv rest,
      calls PRE36 opname_table PAGESIZE function code None (inv :: rest) =
      (Some Python,
       [EvCompile; EvDiagnostic e]
         ++ map (fun _ => EvCallPython) (inv :: rest),
       map (fun i => FromPython (function (args i))) (inv :: rest)).
Proof.
  intros Hat Hd Hn.
  assert (Hraise : exists e,
             compile_native PRE36 opname_table PAGESIZE code = Raise e).
  { unfold compile_native.
    destruct (Compiler.compile PRE36 opname_table _) as [ir|e] eqn:C;
      [|simpl; eauto].
    cbn [bind].
    assert (Ht : Compiler.template s2 "LOAD_CONST"%string (Some n) =
                 Ok [(Oimmediate, Reg rax, ONone); (Opush, Reg rax, ONone)]).
    { pose proof (at_instruction_constants _ _ _ _ Hat) as Hk.
      apply Compiler.decode_advance in Hd. destruct Hd as (_ & Hk2 & _).
      unfold Compiler.template, Compiler.constant, getitem.
      cbn [String.eqb Ascii.eqb Bool.eqb].
      rewrite Hk2, Hk. cbn [Compiler.constants]. rewrite Hn. reflexivity. }
    pose proof (compile_contains _ _ _ _ _ _ _ _ Hat Hd Ht ir C
                  (Oimmediate, Reg rax, ONone) (or_introl eq_refl)) as Hin.
    assert (Hin' : In (Oimmediate, Reg rax, ONone) (optimize_loop ir)).
    { apply (filter_In not_stack_traffic).
      rewrite optimize_loop_filter. apply filter_In. split; [exact Hin|].
      reflexivity. }
    destruct (code_of_in_raises _ TypeError _ Hin' eq_refl) as [e' He'].
    apply (code_of_raises _ e'). exact He'. }
  destruct Hraise as [e He]. exists e. split; [exact He|].
  intros inv rest. apply calls_fallback. exact He.
Qed.

Lemma non_integer_constant_never_native_witness :
  exists e,
    compile_native false CPython.opname 4096 return_none = Raise e /\
    forall inv rest,
      calls false CPython.opname 4096 (CPython.call return_none) return_none
            None (inv :: rest) =
      (Some Python,
       [EvCompile; EvDiagnostic e]
         ++ map (fun _ => EvCallPython) (inv :: rest),
       map (fun i => FromPython (CPython.call return_none (args i)))
           (inv :: rest)).
Proof.
  apply (non_integer_constant_never_native false CPython.opname 4096
           (option Z) (CPython.call return_none) return_none
           (Compiler.mk (CPython.co_code return_none)
                        (CPython.co_consts return_none) 0)
           (Compiler.mk (CPython.co_code return_none)
                        (CPython.co_consts return_none) 2) 0).
  - apply at_start.
  - reflexivity.
  - reflexivity.
Defined.

(** ** What the optimisation loop leaves *)

Lemma optimize_from_fixed ir n : forall index,
  (length ir - index <= n)%nat ->
  optimize_from ir index = skipn index ir ->
  forall k i, (index <= k)%nat -> nth_error ir k = Some i ->
  optimize_step ir k = ([i], S k).
Proof.
  induction n as [|n IH]; intros index Hn Hfix k i Hk Hi;
    assert (Hlen : (k < length ir)%nat)
      by (apply nth_error_Some; congruence);
    [lia|].
  rewrite optimize_from_eq in Hfix.
  destruct (index <? length ir)%nat eqn:Hlt;
    [|apply Nat.ltb_ge in Hlt; lia].
  apply Nat.ltb_lt in Hlt.
  rewrite optimize_step_window in Hfix. cbn [fst snd] in Hfix.
  pose proof (optimize_step_window ir index) as Hwin.
  set (w := skipn index ir) in *.
  assert (Lw : length w = (length ir - index)%nat) by apply length_skipn.
  assert (Hw : w <> []) by (intros E; rewrite E in Lw; simpl in Lw; lia).
  destruct (optimize_step_shape w Hw) as (Hj & _ & Hs).
  pose proof (optimize_step_advance w 0) as Hadv.
  set (ys := fst (optimize_step w 0)) in *.
  set (j := snd (optimize_step w 0)) in *.
  destruct (optimize_from_facts ir (length ir) (index + j)%nat ltac:(lia))
    as (Hl & _).
  destruct Hs as [[E1 E2]|E].
  - rewrite E1, E2 in Hfix.
    rewrite <- (firstn_skipn 1 w) in Hfix at 2.
    apply app_inv_head in Hfix.
    assert (Sk : skipn 1 w = skipn (index + 1) ir).
    { unfold w. rewrite skipn_skipn. f_equal. lia. }
    rewrite Sk in Hfix.
    destruct (Nat.eq_dec k index) as [->|Hne].
    + rewrite Hwin, E1, E2. f_equal; [|lia].
      assert (Hi' : nth_error w 0 = Some i).
      { unfold w. rewrite nth_error_skipn, Nat.add_0_r. exact Hi. }
      destruct w; [discriminate|]. simpl in Hi'. inversion Hi'.
      reflexivity.
    + apply (IH (index + 1)%nat); [lia|exact Hfix|lia|exact Hi].
  - apply (f_equal (@length instr)) in Hfix.
    rewrite length_app in Hfix. lia.
Qed.

(** X18. What the optimisation loop of [compile_native] leaves is in normal
    form: at every position a further pass copies the instruction and moves
    on by one.  So the final IR holds no move of a register to itself, no
    two adjacent moves of which the second reads what the first wrote, and
    no [push] directly followed by a [pop]. *)
Theorem optimize_loop_normal_form (ir : list instr) :
  (forall k i, nth_error (optimize_loop ir) k = Some i ->
     optimize_step (optimize_loop ir) k = ([i], S k)) /\
  (forall x, ~ In (Omov, x, x) (optimize_loop ir)) /\
  (forall (pre post : list instr) x y z,
     optimize_loop ir <> pre ++ (Omov, x, y) :: (Omov, z, x) :: post) /\
  (forall (pre post : list instr) x b1 y b2,
     optimize_loop ir <> pre ++ (Opush, x, b1) :: (Opop, y, b2) :: post).
Proof.
  assert (N : forall k i, nth_error (optimize_loop ir) k = Some i ->
     optimize_step (optimize_loop ir) k = ([i], S k)).
  { intros k i Hi.
    apply (optimize_from_fixed _ (length (optimize_loop ir)) 0%nat);
      [lia| |lia|exact Hi].
    apply optimize_loop_fixed. }
  split; [exact N|]. split; [|split].
  - intros x Hin. apply In_nth_error in Hin. destruct Hin as [k Hk].
    pose proof (N k _ Hk) as Hs.
    rewrite optimize_step_window in Hs.
    assert (Hw : nth_error (skipn k (optimize_loop ir)) 0
                 = Some (Omov, x, x))
      by (rewrite nth_error_skipn, Nat.add_0_r; exact Hk).
    destruct (skipn k (optimize_loop ir)) as [|j w]; [discriminate|].
    simpl in Hw. inversion Hw; subst j.
    destruct w as [|[[? ?] ?] [|[[? ?] ?] [|[[? ?] ?] ?]]];
      unfold optimize_step, fetch in Hs;
      cbn [nth_error Nat.add irop_eqb andb] in Hs;
      rewrite operand_eqb_refl in Hs; cbn [fst snd] in Hs;
      discriminate Hs.
  - intros pre post x y z E.
    pose proof (N (length pre) (Omov, x, y)) as Hs. rewrite E in Hs.
    rewrite nth_error_app2, Nat.sub_diag in Hs by lia.
    specialize (Hs eq_refl). rewrite optimize_step_at in Hs.
    destruct post as [|[[? ?] ?] [|[[? ?] ?] ?]];
      unfold optimize_step, fetch in Hs;
      cbn [nth_error Nat.add irop_eqb andb] in Hs;
      rewrite operand_eqb_refl in Hs;
      destruct (operand_eqb x y); cbn [fst snd] in Hs;
      inversion Hs; lia.
  - intros pre post x b1 y b2 E.
    pose proof (N (length pre) (Opush, x, b1)) as Hs. rewrite E in Hs.
    rewrite nth_error_app2, Nat.sub_diag in Hs by lia.
    specialize (Hs eq_refl). rewrite optimize_step_at in Hs.
    destruct post as [|[[? ?] ?] [|[[? ?] ?] ?]];
      unfold optimize_step, fetch in Hs;
      cbn [nth_error Nat.add irop_eqb andb fst snd] in Hs;
      inversion Hs; lia.
Qed.

(** ** The optimiser, pass by pass *)

Lemma operand_eqb_eq x y : operand_eqb x y = true -> x = y.
Proof.
  destruct x as [r|n|], y as [s|m|]; simpl; try discriminate; intros H.
  - destruct (reg_eqb_spec r s); congruence.
  - apply Z.eqb_eq in H. congruence.
  - reflexivity.
Qed.

Lemma refines_refl w : window_refines w w.
Proof.
  intros xs1 xs2 H1 H2 st q v _ E. congruence.
Qed.

Lemma refines_app a1 a2 b1 b2 :
  window_refines a1 a2 -> window_refines b1 b2 ->
  window_refines (a1 ++ b1) (a2 ++ b2).
Proof.
  intros Ha Hb xs1 xs2 H1 H2 st q v W E.
  rewrite insns_of_app in H1, H2.
  destruct (insns_of a1) as [xa1|] eqn:A1; [|discriminate].
  destruct (insns_of b1) as [xb1|] eqn:B1; [|discriminate].
  destruct (insns_of a2) as [xa2|] eqn:A2; [|discriminate].
  destruct (insns_of b2) as [xb2|] eqn:B2; [|discriminate].
  inversion H1; subst xs1. inversion H2; subst xs2. clear H1 H2.
  rewrite <- app_assoc in *.
  apply (Ha xa1 xa2 A1 A2 st (xb1 ++ q) v W) in E.
  rewrite exec_app in *.
  destruct (exec_prefix xa2 st) as [st'|r] eqn:P; [|exact E].
  apply (Hb xb1 xb2 B1 B2 st' q v); [|exact E].
  eapply exec_prefix_words; eauto.
Qed.

(** A safe step keeps the result. *)
Lemma step_refines w :
  w <> [] -> step_safe w = true ->
  window_refines (firstn (snd (optimize_step w 0)) w)
                 (fst (optimize_step w 0)).
Proof.
  intros Hw.
  destruct w as [|[[op1 a1] b1] [|[[op2 a2] b2] [|[[op3 a3] b3]
                 [|[[op4 a4] b4] rest]]]]; [congruence| | | |].
  all: unfold step_safe, optimize_step, fetch; simpl nth_error;
    cbv iota beta;
    repeat match goal with
      | |- context [if ?c then _ else _] =>
          let E := fresh "E" in destruct c eqn:E
      end; simpl fst; simpl snd; intros Hs; try discriminate Hs.
  all: bool_facts; subst.
  all: cbn [firstn].
  all: try apply refines_refl.
  all: try match goal with
    | H : operand_eqb ?a ?b = true |- window_refines [(Omov, ?a, ?b)] [] =>
        apply operand_eqb_eq in H; subst; apply self_move_refines
    end.
  all: try apply push_pop_refines.
  all: try match goal with
    | H : match ?a with Reg _ => _ | _ => _ end = true |- _ =>
        destruct a as [y| |]; try discriminate H
    end.
  all: try (apply window_refines_safe; assumption).
  all: try (apply andb_prop in Hs; destruct Hs;
            apply long_window_refines; assumption).
Qed.

Lemma insns_of_Forall l :
  (exists xs, insns_of l = Some xs) <->
  Forall (fun i => insn_of i <> None) l.
Proof.
  induction l as [|i l IH]; cbn [insns_of].
  - split; [constructor|eauto].
  - destruct (insn_of i) as [x|] eqn:I.
    + destruct (insns_of l) as [xs|].
      * split; [|eauto]. intros _. constructor; [congruence|].
        apply IH. eauto.
      * split; [intros [? H]; discriminate|].
        intros H. inversion H as [|? ? _ Hl]; subst.
        apply IH in Hl. destruct Hl; discriminate.
    + split; [intros [? H]; discriminate|].
      intros H. inversion H; subst. congruence.
Qed.

Lemma refines_trans a b c :
  Forall (fun i => insn_of i <> None) b ->
  window_refines a b -> window_refines b c -> window_refines a c.
Proof.
  intros Hb Hab Hbc xs1 xs3 H1 H3 st q v W E.
  apply insns_of_Forall in Hb. destruct Hb as [xs2 H2].
  apply (Hbc xs2 xs3 H2 H3 st q v W).
  apply (Hab xs1 xs2 H1 H2 st q v W). exact E.
Qed.

Lemma collapse_encodes x b1 y b2 :
  insn_of (Opush, x, b1) <> None -> insn_of (Opop, y, b2) <> None ->
  insn_of (Omov, y, x) <> None.
Proof.
  intros H1 H2.
  destruct (insn_of (Opush, x, b1)) as [i1|] eqn:I1; [|congruence].
  destruct (insn_of (Opop, y, b2)) as [i2|] eqn:I2; [|congruence].
  apply insn_of_reg1 in I1; [|auto]. destruct I1 as (r & -> & _).
  apply insn_of_reg1 in I2; [|auto]. destruct I2 as (s & -> & _).
  destruct (insn_of_table s r 0) as (T & _). rewrite T. discriminate.
Qed.

Lemma chain_encodes a1 b1 a2 b2 :
  insn_of (Omov, a1, b1) <> None -> insn_of (Omov, a2, b2) <> None ->
  insn_of (Omov, a2, b1) <> None.
Proof.
  destruct a1 as [[]| |], b1 as [[]| |]; try (intros H; exfalso; apply H;
    reflexivity); intros _;
    destruct a2 as [[]| |], b2 as [[]| |];
    try (intros H; exfalso; apply H; reflexivity); intros _; discriminate.
Qed.

(** A step on instructions the assembler takes yields instructions the
    assembler takes. *)
Lemma optimize_step_encodes w :
  w <> [] ->
  Forall (fun i => insn_of i <> None) (firstn (snd (optimize_step w 0)) w) ->
  Forall (fun i => insn_of i <> None) (fst (optimize_step w 0)).
Proof.
  intros Hw.
  destruct w as [|[[op1 a1] b1] [|[[op2 a2] b2] [|[[op3 a3] b3]
                 [|[[op4 a4] b4] rest]]]]; [congruence| | | |].
  all: step_cases.
  all: bool_facts; subst.
  all: cbn [firstn]; intros H.
  all: repeat match goal with
    | H : Forall _ (_ :: _) |- _ => inversion H; subst; clear H
    end.
  all: repeat constructor; try assumption.
  all: try (eapply collapse_encodes; eassumption).
  all: try (eapply chain_encodes; eassumption).
Qed.

Lemma optimize_from_encodes ir n : forall index,
  (length ir - index <= n)%nat ->
  Forall (fun i => insn_of i <> None) (skipn index ir) ->
  Forall (fun i => insn_of i <> None) (optimize_from ir index).
Proof.
  induction n as [|n IH]; intros index Hn H; rewrite optimize_from_eq;
    destruct (index <? length ir)%nat eqn:Hlt; try constructor;
    apply Nat.ltb_lt in Hlt; [lia|].
  rewrite optimize_step_window. cbn [fst snd].
  set (w := skipn index ir) in *.
  assert (Lw : length w = (length ir - index)%nat) by apply length_skipn.
  assert (Hw : w <> []) by (intros E; rewrite E in Lw; simpl in Lw; lia).
  pose proof (optimize_step_advance w 0) as Hadv.
  rewrite <- (firstn_skipn (snd (optimize_step w 0)) w) in H.
  apply Forall_app in H. destruct H as [H1 H2].
  apply Forall_app. split.
  - apply optimize_step_encodes; assumption.
  - apply IH; [lia|].
    replace (skipn (index + snd (optimize_step w 0)) ir)
      with (skipn (snd (optimize_step w 0)) w); [exact H2|].
    unfold w. rewrite skipn_skipn. f_equal. lia.
Qed.

Lemma optimize_encodes ir :
  Forall (fun i => insn_of i <> None) ir ->
  Forall (fun i => insn_of i <> None) (optimize ir).
Proof.
  intros H. apply (optimize_from_encodes ir (length ir)); [lia|exact H].
Qed.

(** A pass whose steps are safe keeps the result. *)
Lemma pass_refines ir n : forall index,
  (length ir - index <= n)%nat ->
  pass_safe n ir index = true ->
  window_refines (skipn index ir) (optimize_from ir index).
Proof.
  induction n as [|n IH]; intros index Hn Hs; rewrite optimize_from_eq;
    destruct (index <? length ir)%nat eqn:Hlt;
    try (apply Nat.ltb_lt in Hlt; lia);
    try (apply Nat.ltb_ge in Hlt; rewrite skipn_all2 by lia;
         apply refines_refl).
  cbn [pass_safe] in Hs. rewrite Hlt in Hs.
  apply andb_prop in Hs. destruct Hs as [Hs1 Hs2].
  apply Nat.ltb_lt in Hlt.
  rewrite optimize_step_window in Hs2 |- *. cbn [fst snd] in *.
  set (w := skipn index ir) in *.
  assert (Lw : length w = (length ir - index)%nat) by apply length_skipn.
  assert (Hw : w <> []) by (intros E; rewrite E in Lw; simpl in Lw; lia).
  pose proof (optimize_step_advance w 0) as Hadv.
  rewrite <- (firstn_skipn (snd (optimize_step w 0)) w) at 1.
  apply refines_app; [apply step_refines; assumption|].
  replace (skipn (snd (optimize_step w 0)) w)
    with (skipn (index + snd (optimize_step w 0)) ir).
  - apply IH; [lia|exact Hs2].
  - unfold w. rewrite skipn_skipn. f_equal. lia.
Qed.

Lemma optimize_refines ir :
  pass_safe (length ir) ir 0 = true -> window_refines ir (optimize ir).
Proof.
  intros H. apply (pass_refines ir (length ir) 0%nat) in H; [exact H|lia].
Qed.

(** A loop whose passes are safe keeps the result. *)
Lemma loop_refines n : forall ir,
  (length ir < n)%nat -> loop_safe n ir = true ->
  Forall (fun i => insn_of i <> None) ir ->
  window_refines ir (optimize_loop ir).
Proof.
  induction n as [|n IH]; intros ir Hn Hs He; [lia|].
  cbn [loop_safe] in Hs. apply andb_prop in Hs. destruct Hs as [Hp Hl].
  rewrite optimize_loop_eq.
  destruct (_ =? 0) eqn:Hred; [apply optimize_refines; exact Hp|].
  apply Z.eqb_neq in Hred. pose proof (optimize_length ir).
  apply (refines_trans _ (optimize ir)).
  - apply optimize_encodes. exact He.
  - apply optimize_refines. exact Hp.
  - apply IH; [lia|exact Hl|apply optimize_encodes; exact He].
Qed.

(** X19. The optimisation loop keeps the result of every IR on which each
    of its steps is safe: copying, dropping a self-move, collapsing a
    push/pop pair, or collapsing a window whose in-between instructions
    neither write the popped register nor read it or the stack pointer.  If
    the IR, assembled and called with the caller's registers holding 64-bit
    words, returns a value, then what the loop stops with, when it fits the
    page, returns the same value. *)
Theorem optimisation_sound_when_safe
  (PAGESIZE : nat) (ir : list instr) (caller : X86.regfile)
  (args : list Z) (v : Z) (r' : option Z) :
  rewrites_safe ir = true ->
  words caller ->
  assembled_call PAGESIZE ir caller args = Ok (Some v) ->
  assembled_call PAGESIZE (optimize_loop ir) caller args = Ok r' ->
  r' = Some v.
Proof.
  intros Hs Hc H1 H2.
  assert (He : Forall (fun i => insn_of i <> None) ir).
  { unfold assembled_call in H1. apply bind_ok in H1.
    destruct H1 as (asm & Ha & _).
    destruct (native_call_exec _ _ _ Ha) as (xs & Hx & _).
    apply insns_of_Forall. eauto. }
  apply (rewrite_sound PAGESIZE [] ir (optimize_loop ir) [] caller args);
    cbn [app]; rewrite ?app_nil_r; try assumption.
  apply (loop_refines (S (length ir))); [lia|exact Hs|exact He].
Qed.

Lemma optimisation_sound_when_safe_witness :
  Some (-7) = Some (-7).
Proof.
  apply (optimisation_sound_when_safe 4096 foo_ir
           (fun _ => 0) [3; 4] (-7) (Some (-7))).
  - vm_compute. reflexivity.
  - intros r. split; [lia|reflexivity].
  - vm_compute. reflexivity.
  - vm_compute. reflexivity.
Defined.

Lemma built_traffic_encodes i :
  built i = true -> not_stack_traffic i = false -> insn_of i <> None.
Proof.
  destruct i as [[op a] b].
  destruct op; try discriminate 2;
    destruct a as [[]| |]; try discriminate 1;
    destruct b as [[]| |]; try discriminate 1;
    intros _ _; discriminate.
Qed.

Lemma built_encodes ir :
  Forall (fun i => built i = true) ir ->
  Forall (fun i => insn_of i <> None) (optimize_loop ir) ->
  Forall (fun i => insn_of i <> None) ir.
Proof.
  intros Hb Ho. apply Forall_forall. intros i Hi.
  rewrite Forall_forall in Hb, Ho.
  destruct (not_stack_traffic i) eqn:T.
  - apply Ho. apply (filter_In not_stack_traffic).
    rewrite optimize_loop_filter. apply filter_In. auto.
  - apply built_traffic_encodes; auto.
Qed.

(** X20. [compile_native] is right on every routine on which the steps of
    its optimisation loop are all safe.  For wordcode (CPython 3.6 and
    later) whose integer constants lie between 0 and 1023, and a call
    whose last argument is a C [int] (from -2^31 to 2^31 - 1; the other
    arguments are any integers): if [compile_native] succeeds, every step
    of the loop on the IR of the routine is safe, and the interpreter
    returns [v] with nothing else left on its value stack, then the foreign
    function [compile_native] returns, called with the caller's registers
    holding 64-bit words, returns [v] read as a signed 64-bit number. *)
Theorem compile_native_agrees_when_safe
  (PAGESIZE : nat) (code : CPython.codeobj) (ir : list instr)
  (assembler : Assembler.t) (caller : X86.regfile)
  (front : list Z) (last v : Z) :
  Compiler.compile false CPython.opname
    (Compiler.mk (CPython.co_code code) (CPython.co_consts code) 0) = Ok ir ->
  rewrites_safe ir = true ->
  small_constants (CPython.co_consts code) ->
  compile_native false CPython.opname PAGESIZE code = Ok assembler ->
  words caller ->
  - 2 ^ 31 <= last < 2 ^ 31 ->
  call_balanced code (front ++ [last]) = Some v ->
  CPython.call code (front ++ [last]) = Some v /\
  entry_call (CPython.co_argcount code) assembler caller (front ++ [last])
    = Returned (X86.signed64 v).
Proof.
  intros Hc Hsafe Hsmall Hn Hw Hl Hv.
  unfold call_balanced in Hv. unfold CPython.call.
  destruct (Nat.eqb _ _) eqn:En; [|discriminate]. split.
  { apply eval_balanced_eval. exact Hv. }
  apply Nat.eqb_eq in En. rewrite length_app, Nat.add_comm in En.
  cbn [length Nat.add] in En. rewrite <- En.
  destruct (marshal_last_small front last Hl) as (ws & Hm & Hws).
  unfold entry_call. rewrite Hm.
  unfold compile_native in Hn. rewrite Hc in Hn. cbn [bind] in Hn.
  destruct (native_call_exec PAGESIZE _ assembler Hn) as (xs' & Hx' & ->).
  assert (Hb : Forall (fun i => built i = true) ir).
  { apply (compile_forall false CPython.opname _ template_built
             (length (rest_of (Compiler.mk (CPython.co_code code)
                                           (CPython.co_consts code) 0)))
             _ ir (le_n _) Hc). }
  assert (He : Forall (fun i => insn_of i <> None) ir).
  { apply built_encodes; [exact Hb|]. apply insns_of_Forall. eauto. }
  pose proof He as He'. apply insns_of_Forall in He'.
  destruct He' as [xs Hx].
  pose proof (compile_simulation _ Hsmall _ _ _ _ _ _ Hc Hx
                (represents_entry caller ws _ Hws) Hv) as Hrun.
  pose proof (loop_refines (S (length ir)) ir ltac:(lia) Hsafe He) as Hr.
  specialize (Hr xs xs' Hx Hx'
                (X86.mk (X86.load_args [rdi; rsi; rdx; rcx] ws caller) [])
                [] (X86.signed64 v)).
  rewrite !app_nil_r in Hr. rewrite Hr; [reflexivity| |exact Hrun].
  apply load_args_words. exact Hw.
Qed.

Lemma compile_native_agrees_when_safe_witness :
  exists assembler,
    compile_native false CPython.opname 4096 foo = Ok assembler /\
    CPython.call foo ([3] ++ [4]) = Some (-7) /\
    entry_call (CPython.co_argcount foo) assembler (fun _ => 0) ([3] ++ [4])
      = Returned (-7).
Proof.
  eexists. split; [vm_compute; reflexivity|].
  apply (compile_native_agrees_when_safe 4096 foo foo_ir
           _ (fun _ => 0) [3] 4 (-7)).
  - reflexivity.
  - vm_compute. reflexivity.
  - intros n [H|[]]. discriminate H.
  - vm_compute. reflexivity.
  - intros r. split; [lia|reflexivity].
  - lia.
  - reflexivity.
Defined.

(** ** The foreign function *)

Lemma marshal_error args : forall argtypes e,
  marshal argtypes args = inl e ->
  e = CallTypeError \/ e = CallArgumentError.
Proof.
  induction args as [|a args IH]; intros ts e H;
    destruct ts as [|[] ts]; cbn [marshal] in H.
  - discriminate H.
  - inversion H. auto.
  - destruct (as_c_int a); [|inversion H; auto].
    destruct (marshal [] args) eqn:M; inversion H; subst.
    eapply IH. exact M.
  - destruct (marshal ts args) eqn:M; inversion H; subst.
    eapply IH. exact M.
Qed.

Lemma marshal_declared front : forall tail,
  marshal (repeat c_int64 (length front)) (front ++ tail) =
  match marshal [] tail with
  | inr words => inr (map as_c_int64 front ++ words)
  | inl e => inl e
  end.
Proof.
  induction front as [|a front IH]; intros tail;
    cbn [length repeat app map].
  - destruct (marshal [] tail); reflexivity.
  - cbn [marshal]. rewrite IH. destruct (marshal [] tail); reflexivity.
Qed.

Lemma as_c_int_low v :
  - 2 ^ 63 <= v < 2 ^ 64 ->
  as_c_int v = Some (if v mod 2 ^ 32 <? 2 ^ 31 then v mod 2 ^ 32
                     else v mod 2 ^ 32 - 2 ^ 32) /\
  - 2 ^ 31 <= (if v mod 2 ^ 32 <? 2 ^ 31 then v mod 2 ^ 32
               else v mod 2 ^ 32 - 2 ^ 32) < 2 ^ 31.
Proof.
  intros H. split.
  - unfold as_c_int.
    replace ((- 2 ^ 63 <=? v) && (v <? 2 ^ 64)) with true
      by (symmetry; apply andb_true_intro; split;
          [apply Z.leb_le|apply Z.ltb_lt]; lia).
    reflexivity.
  - pose proof (Z.mod_pos_bound v (2 ^ 32) ltac:(lia)) as B.
    destruct (v mod 2 ^ 32 <? 2 ^ 31) eqn:E;
      [apply Z.ltb_lt in E|apply Z.ltb_ge in E];
      change (2 ^ 32) with 4294967296 in *;
      change (2 ^ 31) with 2147483648 in *; lia.
Qed.

(** X21. What lines 384-393 make of a call.  The prototype of a routine
    without arguments has no result type: a call never returns a number.
    The prototype of a routine with arguments declares one argument type
    less than there are arguments, so the last argument travels as a C
    [int]: a call returns what the call with the last argument reduced to
    its low 32 bits, read as a signed number, returns. *)
Theorem foreign_function_marshalling
  (assembler : Assembler.t) (caller : X86.regfile) :
  (forall args v, entry_call 0 assembler caller args <> Returned v) /\
  (forall front last,
     - 2 ^ 63 <= last < 2 ^ 64 ->
     entry_call (S (length front)) assembler caller (front ++ [last]) =
     entry_call (S (length front)) assembler caller
       (front ++ [if last mod 2 ^ 32 <? 2 ^ 31 then last mod 2 ^ 32
                  else last mod 2 ^ 32 - 2 ^ 32])).
Proof.
  split.
  - intros args v. unfold entry_call. cbn [signature argtypes restype].
    destruct (marshal [] args) as [e|words] eqn:M.
    + apply marshal_error in M. destruct M as [-> | ->]; discriminate.
    + destruct (native_call assembler caller words); discriminate.
  - intros front last Hl. unfold entry_call. cbn [signature argtypes].
    rewrite !marshal_declared. cbn [marshal].
    destruct (as_c_int_low last Hl) as [E B].
    rewrite E, (as_c_int_small _ B). reflexivity.
Qed.

Lemma foreign_function_marshalling_witness :
  entry_call (S (length (@nil Z)))
             (Assembler.mk ([0x48; 0x89; 0xf8; 0xc3] ++ repeat 0 4) 4 8)
             (fun _ => 0) ([] ++ [2 ^ 32 + 4]) =
  entry_call (S (length (@nil Z)))
             (Assembler.mk ([0x48; 0x89; 0xf8; 0xc3] ++ repeat 0 4) 4 8)
             (fun _ => 0) ([] ++ [4]).
Proof.
  apply (proj2 (foreign_function_marshalling
                  (Assembler.mk ([0x48; 0x89; 0xf8; 0xc3] ++ repeat 0 4) 4 8)
                  (fun _ => 0)) [] (2 ^ 32 + 4)).
  lia.
Defined.
